(** * The overlay manager of rippled: a shallow embedding

    The development follows [src/ripple/overlay/impl/OverlayImpl.cpp] and
    the implementation of [ConnectAttempt].  Functions of these two files
    are transcribed statement by statement; mutable members become
    fields of a state record that is threaded through the calls, and calls
    made on objects that live outside the overlay (a peer's send queue, the
    wallet database, the network operations observer, a child's [stop])
    are recorded, in program order, in the [effects_] log of that record.
    Logging through [JLOG] has no bearing on any property below and is
    left out.

    Collaborators whose code is not part of the two files (the peer
    finder, the resource manager, the HTTP and handshake helpers, the
    manifest cache) are interfaces: type classes whose operations thread
    the collaborator's own state. *)

From stdpp Require Import gmap strings list fin_maps pretty sorting.
From Stdlib Require Import ZArith Lia.

Set Default Proof Using "Type".
Set Warnings "-register-all,-clear-no-such-hyp".
Local Open Scope N_scope.

(** ** Basic types *)

(** [Peer::id_t] is [std::uint32_t]; [uint256] is a content hash. *)
Abbreviation Peer_id := N.
Abbreviation uint256 := N.

(** [PeerSet], as far as [selectPeers] uses it: the short ids of the
    peers it holds. *)
Abbreviation PeerSet := (gset Peer_id).

(** [weak_ptr<T>]: the handle either still reaches its object or has
    expired; [lock] returns the object or null. *)
Definition weak_ptr (A : Type) := option A.
Definition lock {A} (w : weak_ptr A) : option A := w.

(** An asio address is kept by its textual form, so that [to_string] is
    the identity; an endpoint is an address and a 16-bit port. *)
Definition address_type := string.
Definition address_to_string (a : address_type) : string := a.

Record endpoint_type := Endpoint { address : address_type; port : N }.

#[global] Instance endpoint_eq_dec : EqDecision endpoint_type.
Proof. solve_decision. Defined.

(** Modelled from the spec: [beast::IP::Endpoint::to_string] is declared
    outside the sources at hand; the specification fixes its output for a
    redirect entry as ["<ip>:<port>"]. *)
Definition endpoint_to_string (e : endpoint_type) : string :=
  address_to_string (address e) +:+ ":" +:+ pretty (port e).

(** ** Protocol messages *)

Inductive MessageType := mtMANIFESTS | mtPROPOSE_LEDGER | mtVALIDATION.

(** The generated protobuf classes: an optional [uint32 hops] field next
    to the payload proper, and for a manifest set the list of serialized
    manifests with the [history] mark. *)
Record TMProposeSet := { ps_hops : option N; ps_payload : string }.
Record TMValidation := { val_hops : option N; val_payload : string }.
Record TMManifests := { mf_list : list string; mf_history : bool }.

Inductive protobuf :=
| PB_ProposeSet (m : TMProposeSet)
| PB_Validation (m : TMValidation)
| PB_Manifests (m : TMManifests).

(** [Message]: the encoded copy shared by all recipients. *)
Record Message := make_Message { msg_body : protobuf; msg_type : MessageType }.

(** The hop count a recipient decodes from a message. *)
Definition message_hops (sm : Message) : option N :=
  match msg_body sm with
  | PB_ProposeSet m => ps_hops m
  | PB_Validation m => val_hops m
  | PB_Manifests _ => None
  end.

(** The accessors protobuf generates for a message with a [hops] field;
    [relay] and [send] are overloaded on the two message classes that
    have it. *)
Class HopsMessage (T : Type) := {
  has_hops : T -> bool;
  hops : T -> N;
  set_hops : N -> T -> T;
  encode : T -> Message;
  has_hops_set n m : has_hops (set_hops n m) = true;
  hops_set n m : hops (set_hops n m) = n;
  message_hops_encode m :
    message_hops (encode m) = if has_hops m then Some (hops m) else None;
}.

#[global, refine] Instance TMProposeSet_hops : HopsMessage TMProposeSet := {
  has_hops m := bool_decide (is_Some (ps_hops m));
  hops m := default 0 (ps_hops m);
  set_hops n m := {| ps_hops := Some n; ps_payload := ps_payload m |};
  encode m := make_Message (PB_ProposeSet m) mtPROPOSE_LEDGER;
}.
Proof.
  - done.
  - done.
  - intros [[h|] ?]; done.
Defined.

#[global, refine] Instance TMValidation_hops : HopsMessage TMValidation := {
  has_hops m := bool_decide (is_Some (val_hops m));
  hops m := default 0 (val_hops m);
  set_hops n m := {| val_hops := Some n; val_payload := val_payload m |};
  encode m := make_Message (PB_Validation m) mtVALIDATION;
}.
Proof.
  - done.
  - done.
  - intros [[h|] ?]; done.
Defined.

(** ** The hash router *)

Module HashRouter.

(** Modelled from the spec: [HashRouter] (ripple/app/misc/HashRouter.h)
    is not among the sources.  An entry maps a content hash to the set
    of short peer ids that already saw the content, with flags recording
    whether it has been relayed; expiry of entries is an external policy
    and is not modelled. *)
Record Entry := { peers : gset Peer_id; flags : Z }.

Abbreviation t := (gmap uint256 Entry).

Definition fresh : Entry := {| peers := ∅; flags := 0 |}.

Definition entry (key : uint256) (r : t) : Entry := default fresh (r !! key).

(** Modelled from the spec: the bit of the [relayed] flag. *)
Definition SF_RELAYED : Z := 1.

Definition has_flag (e : Entry) (flag : Z) : bool :=
  (Z.land (flags e) flag =? flag)%Z.

(** Modelled from the spec: [swapSet(uid, skipSet, flag)] ORs [flag]
    into the entry's flags and swaps the caller's set with the stored
    one; it returns true iff [flag] was newly set.  The triple is the
    returned boolean, the caller's set after the call and the router
    after the call. *)
Definition swapSet (key : uint256) (skip : gset Peer_id) (flag : Z) (r : t)
  : bool * gset Peer_id * t :=
  let e := entry key r in
  (negb (has_flag e flag),
   peers e,
   <[key := {| peers := skip; flags := Z.lor (flags e) flag |}]> r).

(** Modelled from the spec: [addSuppressionPeer(hash, peer)] records
    [peer] among those that saw [hash] and tells whether the hash passes
    suppression, that is, whether the router had no entry for it. *)
Definition addSuppressionPeer (key : uint256) (peer : Peer_id) (r : t)
  : bool * t :=
  let e := entry key r in
  (bool_decide (r !! key = None),
   <[key := {| peers := {[peer]} ∪ peers e; flags := flags e |}]> r).

End HashRouter.

(** ** Collaborators of the overlay *)

Definition PublicKey := string.

Module PeerFinder.

(** [PeerFinder::Slot::ptr]: the handle of a slot together with what the
    crawl report reads from it. *)
Record Slot := { key : N; inbound : bool; listening_port : option N }.

#[global] Instance Slot_eq_dec : EqDecision Slot.
Proof. solve_decision. Defined.

(** [PeerFinder::Endpoint]: an address with the hop distance at which it
    was learned. *)
Record Endpoint := { ep_hops : N; ep_address : endpoint_type }.

Inductive Result := duplicate | full | success.

#[global] Instance Result_eq_dec : EqDecision Result.
Proof. solve_decision. Defined.

(** [PeerFinder::Manager], the part the inbound path calls.  Every
    operation threads the finder's state [PF]; [redirect] does too, since
    handing out addresses may reorder the finder's caches. *)
Class Manager := {
  PF : Type;
  new_inbound_slot : endpoint_type -> endpoint_type -> PF -> option Slot * PF;
  activate : Slot -> PublicKey -> bool -> PF -> Result * PF;
  on_closed : Slot -> PF -> PF;
  redirect : Slot -> PF -> list Endpoint * PF;
}.

End PeerFinder.

Module Resource.

(** [Resource::Manager] and the [Consumer] it hands out. *)
Class Manager := {
  RM : Type;
  Consumer : Type;
  newInboundEndpoint : endpoint_type -> RM -> Consumer * RM;
  disconnect : Consumer -> RM -> bool * RM;
}.

End Resource.

(** HTTP messages as the overlay reads and builds them. *)
Record http_request_type := {
  req_method : string;
  req_url : string;
  req_version : Z;
  req_headers : gmap string string;
}.

(** [request.headers["name"]]: the value, or the empty string. *)
Definition header (name : string) (h : gmap string string) : string :=
  default EmptyString (h !! name).

(** [beast::deprecated_http::message] for a response under construction. *)
Record http_message := {
  m_request : bool;
  m_status : Z;
  m_reason : string;
  m_version : Z * Z;
  m_headers : list (string * string);
}.

Module Json.

Inductive Value :=
| nullValue
| stringValue (s : string)
| uintValue (n : N)
| arrayValue (l : list Value)
| objectValue (members : list (string * Value)).

(** [v[name] = x] on an object (a null value becomes an object first). *)
Definition set (name : string) (x : Value) (v : Value) : Value :=
  match v with
  | objectValue ms =>
      if decide (name ∈ ms.*1)
      then objectValue (map (fun kv => if decide (kv.1 = name) then (name, x) else kv) ms)
      else objectValue (ms ++ [(name, x)])
  | _ => objectValue [(name, x)]
  end.

(** [v.append(x)] on an array (a null value becomes an array first). *)
Definition append (x : Value) (v : Value) : Value :=
  match v with
  | arrayValue l => arrayValue (l ++ [x])
  | _ => arrayValue [x]
  end.

End Json.

(** [make_JsonWriter(m, json)]: the writer that will serialize message
    [m] with [json] as its body. *)
Record Writer := make_JsonWriter { w_message : http_message; w_json : Json.Value }.

(** Modelled from the spec: [Handoff] is declared in
    ripple/server/Handoff.h, which is not among the sources.  A handoff
    tells whether the overlay took the socket ([moved]) and carries the
    HTTP response to write, if any; a default-constructed handoff is the
    answer "not ours". *)
Record Handoff := {
  moved : bool;
  keep_alive : bool;
  response : option Writer;
}.

Definition Handoff_default : Handoff :=
  {| moved := false; keep_alive := false; response := None |}.

(** The accepted socket: what [socket.local_endpoint(ec)] yields ([None]
    when it sets [ec]) and the native TLS handle. *)
Record ssl_bundle := {
  local_endpoint : option endpoint_type;
  native_handle : N;
}.

(** Library helpers the overlay calls on requests and headers
    (beast's rfc2616 and http helpers, base64, protocol version parsing). *)
Class HttpLib := {
  is_upgrade : http_request_type -> bool;
  is_keep_alive : http_request_type -> bool;
  parse_ProtocolVersions : string -> list (N * N);
  split_commas : string -> list string;
  ci_equal : string -> string -> bool;
  base64_encode : string -> string;
}.

(** The hello handshake (TMHello.h) and the cluster roster. *)
Class Handshake := {
  TMHello : Type;
  SharedValue : Type;
  parseHello : bool -> gmap string string -> option TMHello;
  makeSharedValue : N -> option SharedValue;
  verifyHello : TMHello -> SharedValue -> address_type -> endpoint_type -> option PublicKey;
  cluster_member : PublicKey -> option string;
}.

(** Manifests and the manifest cache (ripple/overlay/impl/Manifest.h). *)
Inductive ManifestDisposition := accepted | untrusted | stale | invalid.

#[global] Instance ManifestDisposition_eq_dec : EqDecision ManifestDisposition.
Proof. solve_decision. Defined.

Record Manifest := {
  serialized : string;
  masterKey : PublicKey;
  signingKey : PublicKey;
  sequence : N;
  mhash : uint256;
}.

Class ManifestLib := {
  ManifestCache : Type;
  make_Manifest : string -> option Manifest;
  applyManifest : Manifest -> ManifestCache -> ManifestDisposition * ManifestCache;
}.

(** Constants of the overlay's headers (Overlay.h, Tuning.h). *)
Class Tuning := {
  maxTTL : N;
}.

(** [Overlay::Setup]. *)
Record Setup := {
  expire : bool;
  public_ip : address_type;
  ipLimit : Z;
}.

(** ** The overlay's state *)

Section Overlay.

Context `{!PeerFinder.Manager, !Resource.Manager, !HttpLib, !Handshake,
          !ManifestLib, !Tuning}.

(** [PeerImp]: a peer session, by the arguments of its constructors.  The
    socket bundle and the HTTP message moved into the session are not read
    by the overlay again and are left out. *)
Record PeerImp := {
  id : Peer_id;
  getRemoteAddress : endpoint_type;
  slot : PeerFinder.Slot;
  hello : TMHello;
  getNodePublic : PublicKey;
  usage : Resource.Consumer;
}.

(** Methods of [PeerImp] (PeerImp.cpp) the overlay calls to read a
    session. *)
Class PeerImp_methods := {
  hopsAware : PeerImp -> bool;
  crawl_opt_in : PeerImp -> bool;
  uptime : PeerImp -> N;
  getVersion : PeerImp -> string;
  getScore : PeerImp -> bool -> Z;
}.

Context `{!PeerImp_methods}.

(** The address of a child object.  Distinct live children have distinct
    addresses; a timer, a connect attempt and a peer session are told
    apart by their kind and the id they were created with. *)
Inductive ChildPtr :=
| TimerPtr
| ConnectAttemptPtr (i : Peer_id)
| PeerImpPtr (i : Peer_id).

#[global] Instance ChildPtr_eq_dec : EqDecision ChildPtr.
Proof. solve_decision. Defined.

(** Calls on objects outside the overlay, in program order. *)
Inductive Effect :=
| Sent (to : Peer_id) (sm : Message)
| Run (c : ChildPtr)
| Stopped (c : ChildPtr)
| PubManifest (m : option Manifest)
| InsertValidatorManifest (rawData : string).

(** [emplace] on a map with unique keys: an existing key keeps its
    value. *)
Definition emplace {K V} `{EqDecision K} (k : K) (v : V) (m : list (K * V))
  : list (K * V) :=
  if decide (k ∈ m.*1) then m else m ++ [(k, v)].

(** [OverlayImpl]: the members the functions below read or write, the
    process-wide hash router reached through [app_], and the log of
    effects. *)
Record OverlayImpl := {
  work_ : bool;
  setup_ : Setup;
  m_resourceManager : Resource.RM;
  m_peerFinder : PeerFinder.PF;
  m_peers : list (PeerFinder.Slot * weak_ptr PeerImp);
  ids_ : gmap Peer_id (weak_ptr PeerImp);
  list_ : list (ChildPtr * weak_ptr ChildPtr);
  next_id_ : N;
  manifestCache_ : ManifestCache;
  hashRouter : HashRouter.t;
  effects_ : list Effect;
}.

Definition set_work_ (v : bool) (o : OverlayImpl) : OverlayImpl :=
  {| work_ := v; setup_ := setup_ o;
     m_resourceManager := m_resourceManager o; m_peerFinder := m_peerFinder o;
     m_peers := m_peers o; ids_ := ids_ o; list_ := list_ o;
     next_id_ := next_id_ o; manifestCache_ := manifestCache_ o;
     hashRouter := hashRouter o; effects_ := effects_ o |}.

Definition set_m_resourceManager (v : Resource.RM) (o : OverlayImpl) : OverlayImpl :=
  {| work_ := work_ o; setup_ := setup_ o;
     m_resourceManager := v; m_peerFinder := m_peerFinder o;
     m_peers := m_peers o; ids_ := ids_ o; list_ := list_ o;
     next_id_ := next_id_ o; manifestCache_ := manifestCache_ o;
     hashRouter := hashRouter o; effects_ := effects_ o |}.

Definition set_m_peerFinder (v : PeerFinder.PF) (o : OverlayImpl) : OverlayImpl :=
  {| work_ := work_ o; setup_ := setup_ o;
     m_resourceManager := m_resourceManager o; m_peerFinder := v;
     m_peers := m_peers o; ids_ := ids_ o; list_ := list_ o;
     next_id_ := next_id_ o; manifestCache_ := manifestCache_ o;
     hashRouter := hashRouter o; effects_ := effects_ o |}.

Definition set_m_peers (v : list (PeerFinder.Slot * weak_ptr PeerImp))
  (o : OverlayImpl) : OverlayImpl :=
  {| work_ := work_ o; setup_ := setup_ o;
     m_resourceManager := m_resourceManager o; m_peerFinder := m_peerFinder o;
     m_peers := v; ids_ := ids_ o; list_ := list_ o;
     next_id_ := next_id_ o; manifestCache_ := manifestCache_ o;
     hashRouter := hashRouter o; effects_ := effects_ o |}.

Definition set_list_ (v : list (ChildPtr * weak_ptr ChildPtr))
  (o : OverlayImpl) : OverlayImpl :=
  {| work_ := work_ o; setup_ := setup_ o;
     m_resourceManager := m_resourceManager o; m_peerFinder := m_peerFinder o;
     m_peers := m_peers o; ids_ := ids_ o; list_ := v;
     next_id_ := next_id_ o; manifestCache_ := manifestCache_ o;
     hashRouter := hashRouter o; effects_ := effects_ o |}.

Definition set_next_id_ (v : N) (o : OverlayImpl) : OverlayImpl :=
  {| work_ := work_ o; setup_ := setup_ o;
     m_resourceManager := m_resourceManager o; m_peerFinder := m_peerFinder o;
     m_peers := m_peers o; ids_ := ids_ o; list_ := list_ o;
     next_id_ := v; manifestCache_ := manifestCache_ o;
     hashRouter := hashRouter o; effects_ := effects_ o |}.

Definition set_manifestCache_ (v : ManifestCache) (o : OverlayImpl) : OverlayImpl :=
  {| work_ := work_ o; setup_ := setup_ o;
     m_resourceManager := m_resourceManager o; m_peerFinder := m_peerFinder o;
     m_peers := m_peers o; ids_ := ids_ o; list_ := list_ o;
     next_id_ := next_id_ o; manifestCache_ := v;
     hashRouter := hashRouter o; effects_ := effects_ o |}.

Definition set_hashRouter (v : HashRouter.t) (o : OverlayImpl) : OverlayImpl :=
  {| work_ := work_ o; setup_ := setup_ o;
     m_resourceManager := m_resourceManager o; m_peerFinder := m_peerFinder o;
     m_peers := m_peers o; ids_ := ids_ o; list_ := list_ o;
     next_id_ := next_id_ o; manifestCache_ := manifestCache_ o;
     hashRouter := v; effects_ := effects_ o |}.

(** Performing an effect appends it to the log. *)
Definition emit (e : Effect) (o : OverlayImpl) : OverlayImpl :=
  {| work_ := work_ o; setup_ := setup_ o;
     m_resourceManager := m_resourceManager o; m_peerFinder := m_peerFinder o;
     m_peers := m_peers o; ids_ := ids_ o; list_ := list_ o;
     next_id_ := next_id_ o; manifestCache_ := manifestCache_ o;
     hashRouter := hashRouter o; effects_ := effects_ o ++ [e] |}.

(** [p->send(sm)]: the shared encoded copy is queued on peer [p]. *)
Definition PeerImp_send (p : PeerImp) (sm : Message) (o : OverlayImpl) : OverlayImpl :=
  emit (Sent (id p) sm) o.

(** Modelled from the spec: [for_each] is defined in OverlayImpl.h, which
    is not among the sources; it visits every active peer, that is, every
    entry of [ids_] whose weak handle still locks. *)
Definition active_peers (o : OverlayImpl) : list PeerImp :=
  omap (fun kv => lock kv.2) (map_to_list (ids_ o)).

(** [for_each(f)]: [f] is called on each active peer in turn. *)
Definition for_each (f : PeerImp -> OverlayImpl -> OverlayImpl) (o : OverlayImpl)
  : OverlayImpl :=
  foldl (fun acc p => f p acc) o (active_peers o).

(** ** [OverlayImpl::send] and [OverlayImpl::relay] *)

(** [send] writes the hop count into the caller's message, which is
    returned next to the state. *)
Definition send {T} `{!HopsMessage T} (m : T) (o : OverlayImpl) : T * OverlayImpl :=
  let m := if expire (setup_ o) then set_hops 0 m else m in
  let sm := encode m in
  (m, for_each (fun p o =>
        if negb (has_hops m) || hopsAware p then PeerImp_send p sm o else o) o).

Definition relay {T} `{!HopsMessage T} (m : T) (uid : uint256) (o : OverlayImpl)
  : OverlayImpl :=
  if has_hops m && (maxTTL <=? hops m) then o else
  let '(newly, skip, r) :=
    HashRouter.swapSet uid ∅ HashRouter.SF_RELAYED (hashRouter o) in
  let o := set_hashRouter r o in
  if negb newly then o else
  let sm := encode m in
  for_each (fun p o =>
    if bool_decide (id p ∈ skip) then o
    else if negb (has_hops m) || hopsAware p then PeerImp_send p sm o
    else o) o.

(** Modelled from the spec: [foreach], [send_if_not] and [peer_in_set]
    come from Overlay.h and predicates.h, which are not among the sources;
    together they announce a message to every active peer outside a set
    of ids. *)
Definition peer_in_set (peers : gset Peer_id) (p : PeerImp) : bool :=
  bool_decide (id p ∈ peers).

Definition send_if_not (sm : Message) (predicate : PeerImp -> bool)
  (p : PeerImp) (o : OverlayImpl) : OverlayImpl :=
  if predicate p then o else PeerImp_send p sm o.

Definition foreach := for_each.

(** ** Peer tables *)

Definition add_active (peer : PeerImp) (o : OverlayImpl) : OverlayImpl :=
  let o := set_m_peers (emplace (slot peer) (Some peer) (m_peers o)) o in
  let o :=
    {| work_ := work_ o; setup_ := setup_ o;
       m_resourceManager := m_resourceManager o; m_peerFinder := m_peerFinder o;
       m_peers := m_peers o;
       ids_ := match ids_ o !! id peer with
               | Some _ => ids_ o
               | None => <[id peer := Some peer]> (ids_ o)
               end;
       list_ := list_ o;
       next_id_ := next_id_ o; manifestCache_ := manifestCache_ o;
       hashRouter := hashRouter o; effects_ := effects_ o |} in
  let o := set_list_ (emplace (PeerImpPtr (id peer)) (Some (PeerImpPtr (id peer))) (list_ o)) o in
  emit (Run (PeerImpPtr (id peer))) o.

(** [OverlayImpl::remove(slot)].  The slot has to be in [m_peers]: the
    source asserts that [find] succeeds and erases the iterator it got,
    and erasing [end()] is undefined, so the call has no result for a
    slot that is not in the table. *)
Definition remove_slot (s : PeerFinder.Slot) (o : OverlayImpl)
  : option OverlayImpl :=
  if decide (s ∈ (m_peers o).*1)
  then Some (set_m_peers (filter (fun kv => kv.1 ≠ s) (m_peers o)) o)
  else None.

(** ** The crawl report and the admin route *)

Definition crawl_entry (sp : PeerImp) : Json.Value :=
  let pv := Json.objectValue [] in
  let pv := Json.set "public_key"
              (Json.stringValue (base64_encode (getNodePublic sp))) pv in
  let pv := Json.set "type"
              (Json.stringValue (if PeerFinder.inbound (slot sp) then "in" else "out")) pv in
  let pv := Json.set "uptime" (Json.uintValue (uptime sp mod 2 ^ 32)) pv in
  let pv :=
    if crawl_opt_in sp then
      let pv := Json.set "ip"
                  (Json.stringValue (address_to_string (address (getRemoteAddress sp)))) pv in
      if PeerFinder.inbound (slot sp) then
        match PeerFinder.listening_port (slot sp) with
        | Some port => Json.set "port" (Json.uintValue port) pv
        | None => pv
        end
      else Json.set "port" (Json.stringValue (pretty (port (getRemoteAddress sp)))) pv
    else pv in
  let version := getVersion sp in
  if bool_decide (version = EmptyString) then pv
  else Json.set "version" (Json.stringValue version) pv.

Definition crawl (o : OverlayImpl) : Json.Value :=
  let jv := Json.set "active" (Json.arrayValue []) Json.nullValue in
  Json.set "active"
    (foldl (fun av sp => Json.append (crawl_entry sp) av)
       (Json.arrayValue []) (active_peers o)) jv.

Definition processRequest (req : http_request_type) (handoff : Handoff)
  (o : OverlayImpl) : bool * Handoff :=
  if bool_decide (req_url req ≠ "/crawl") then (false, handoff) else
  let resp := {| m_request := false; m_status := 200; m_reason := "OK";
                 m_version := (Z.quot (req_version req) 10, Z.rem (req_version req) 10);
                 m_headers := [] |} in
  let v := Json.set "overlay" (crawl o) Json.nullValue in
  (true, {| moved := moved handoff; keep_alive := keep_alive handoff;
            response := Some (make_JsonWriter resp v) |}).

Definition isPeerUpgrade (request : http_request_type) : bool :=
  if negb (is_upgrade request) then false else
  let versions := parse_ProtocolVersions (header "Upgrade" (req_headers request)) in
  if bool_decide (length versions = 0%nat) then false else true.

(** [redirect] is called twice; the list in the body is that of the
    second call. *)
Definition makeRedirectResponse (slot : PeerFinder.Slot) (request : http_request_type)
  (remote_address : address_type) (o : OverlayImpl) : Writer * OverlayImpl :=
  let json := Json.objectValue [] in
  let '(result, pf) := PeerFinder.redirect slot (m_peerFinder o) in
  let o := set_m_peerFinder pf o in
  let json := Json.set "peer-ips" (Json.arrayValue []) json in
  let '(eps, pf) := PeerFinder.redirect slot (m_peerFinder o) in
  let o := set_m_peerFinder pf o in
  let ips := foldl (fun ips e =>
               Json.append (Json.stringValue (endpoint_to_string (PeerFinder.ep_address e))) ips)
               (Json.arrayValue []) eps in
  let json := Json.set "peer-ips" ips json in
  let m := {| m_request := false; m_status := 503;
              m_reason := "Service Unavailable";
              m_version := (Z.quot (req_version request) 10, Z.rem (req_version request) 10);
              m_headers := [("Remote-Address", address_to_string remote_address)] |} in
  (make_JsonWriter m json, o).

(** ** [OverlayImpl::onHandoff] *)

Definition with_moved (b : bool) (h : Handoff) : Handoff :=
  {| moved := b; keep_alive := keep_alive h; response := response h |}.

Definition onHandoff (bundle : ssl_bundle) (request : http_request_type)
  (remote_endpoint : endpoint_type) (o : OverlayImpl) : Handoff * OverlayImpl :=
  let id := next_id_ o in
  let o := set_next_id_ ((next_id_ o + 1) mod 2 ^ 32) o in
  let handoff := Handoff_default in
  let '(handled, handoff) := processRequest request handoff o in
  if handled then (handoff, o) else
  if negb (isPeerUpgrade request) then (handoff, o) else
  let handoff := with_moved true handoff in
  match local_endpoint bundle with
  | None => (handoff, o)
  | Some local_endpoint =>
  let '(consumer, rm) :=
    Resource.newInboundEndpoint remote_endpoint (m_resourceManager o) in
  let '(over, rm) := Resource.disconnect consumer rm in
  let o := set_m_resourceManager rm o in
  if over then (handoff, o) else
  let '(slot, pf) :=
    PeerFinder.new_inbound_slot local_endpoint remote_endpoint (m_peerFinder o) in
  let o := set_m_peerFinder pf o in
  match slot with
  | None =>
      (* self-connect, close *)
      (with_moved false handoff, o)
  | Some slot =>
  let types := split_commas (header "Connect-As" (req_headers request)) in
  if bool_decide (List.find (fun s => ci_equal s "peer") types = None) then
    let handoff := with_moved false handoff in
    let '(w, o) := makeRedirectResponse slot request (address remote_endpoint) o in
    ({| moved := moved handoff; keep_alive := is_keep_alive request;
        response := Some w |}, o)
  else
  let handoff := with_moved true handoff in
  match parseHello true (req_headers request) with
  | None => (handoff, o)
  | Some hello =>
  match makeSharedValue (native_handle bundle) with
  | None => (handoff, o)
  | Some sharedValue =>
  match verifyHello hello sharedValue (public_ip (setup_ o)) remote_endpoint with
  | None => (handoff, o)
  | Some publicKey =>
  let '(result, pf) :=
    PeerFinder.activate slot publicKey
      (bool_decide (is_Some (cluster_member publicKey))) (m_peerFinder o) in
  let o := set_m_peerFinder pf o in
  if bool_decide (result ≠ PeerFinder.success) then
    let o := set_m_peerFinder (PeerFinder.on_closed slot (m_peerFinder o)) o in
    let handoff := with_moved false handoff in
    let '(w, o) := makeRedirectResponse slot request (address remote_endpoint) o in
    ({| moved := moved handoff; keep_alive := is_keep_alive request;
        response := Some w |}, o)
  else
  let peer := {| id := id; getRemoteAddress := remote_endpoint; slot := slot;
                 hello := hello; getNodePublic := publicKey;
                 usage := consumer |} in
  let o := set_m_peers (emplace slot (Some peer) (m_peers o)) o in
  let o := set_list_ (emplace (PeerImpPtr id) (Some (PeerImpPtr id)) (list_ o)) o in
  let o := emit (Run (PeerImpPtr id)) o in
  (with_moved true handoff, o)
  end end end end end.

(** ** [OverlayImpl::onManifests] *)

(** The body of the loop, for the serialized manifest [s] of one list
    entry. *)
Definition onManifests_body (history : bool) (from : PeerImp) (s : string)
  (o : OverlayImpl) : OverlayImpl :=
  match make_Manifest s with
  | Some mo =>
      let hash := mhash mo in
      let '(passes, r) :=
        HashRouter.addSuppressionPeer hash (id from) (hashRouter o) in
      let o := set_hashRouter r o in
      if negb passes then o else
      let serialized := serialized mo in
      let '(result, c) := applyManifest mo (manifestCache_ o) in
      let o := set_manifestCache_ c o in
      let o :=
        if bool_decide (result = accepted ∨ result = untrusted)
        then emit (PubManifest (make_Manifest serialized)) o else o in
      let o :=
        if bool_decide (result = accepted)
        then emit (InsertValidatorManifest serialized) o else o in
      if history then
        let '(_, peers, r) :=
          HashRouter.swapSet hash ∅ HashRouter.SF_RELAYED (hashRouter o) in
        set_hashRouter r o
      else if bool_decide (result = accepted) then
        let om := {| mf_list := [s]; mf_history := false |} in
        let '(_, peers, r) :=
          HashRouter.swapSet hash ∅ HashRouter.SF_RELAYED (hashRouter o) in
        let o := set_hashRouter r o in
        foreach (send_if_not (make_Message (PB_Manifests om) mtMANIFESTS)
                   (peer_in_set peers)) o
      else o
  | None => o
  end.

Definition onManifests (m : TMManifests) (from : PeerImp) (o : OverlayImpl)
  : OverlayImpl :=
  let history := mf_history m in
  foldl (fun o s => onManifests_body history from s o) o (mf_list m).

(** ** [OverlayImpl::selectPeers] *)

(** Modelled from the spec: [PeerSet::insert] is not among the sources;
    an insertion is accepted when the peer is not yet in the set. *)
Definition PeerSet_insert (p : PeerImp) (set : PeerSet) : bool * PeerSet :=
  (bool_decide (id p ∉ set), {[id p]} ∪ set).

Definition item : Type := Z * PeerImp.

(** The comparator handed to [std::sort]. *)
Definition item_before (lhs rhs : item) : bool := bool_decide (lhs.1 > rhs.1)%Z.

(** What the C++ standard promises of [std::sort(first, last, comp)]: the
    range is permuted so that no element is ordered before one that
    precedes it.  The relative order of equivalent elements is left
    open: [std::sort] is not a stable sort. *)
Definition std_sort_contract (sort : list item -> list item) : Prop :=
  ∀ v, sort v ≡ₚ v ∧
       StronglySorted (fun a b => item_before b a = false) (sort v).

(** The loop inserting into [set]; [accepted] counts in [std::size_t]. *)
Fixpoint selectPeers_loop (v : list item) (limit accepted : N) (set : PeerSet)
  : N * PeerSet :=
  match v with
  | [] => (accepted, set)
  | e :: v' =>
      let '(ok, set') := PeerSet_insert e.2 set in
      if ok then
        let accepted := (accepted + 1) mod 2 ^ 64 in
        if limit <=? accepted then (accepted, set')
        else selectPeers_loop v' limit accepted set'
      else selectPeers_loop v' limit accepted set'
  end.

(** The vector of scored peers, before sorting. *)
Definition scored (score : PeerImp -> bool) (o : OverlayImpl) : list item :=
  foldl (fun v e => v ++ [(getScore e (score e), e)]) [] (active_peers o).

Definition selectPeers (sort : list item -> list item) (set : PeerSet)
  (limit : N) (score : PeerImp -> bool) (o : OverlayImpl) : N * PeerSet :=
  let v := scored score o in
  let v := sort v in
  selectPeers_loop v limit 0 set.

(** ** [OverlayImpl::stop] *)

Definition stop (o : OverlayImpl) : OverlayImpl :=
  if work_ o then
    let o := set_work_ false o in
    foldl (fun o kv =>
             match lock kv.2 with
             | Some child => emit (Stopped child) o
             | None => o
             end) o (list_ o)
  else o.

End Overlay.

(** ** The outbound connect attempt *)

Module ConnectAttempt.

(** [error_code], as far as the handlers tell values apart. *)
Inductive error_code := no_error | operation_aborted | eof | failure.

#[global] Instance error_code_eq_dec : EqDecision error_code.
Proof. solve_decision. Defined.

(** Calls the attempt makes on its timer, its socket and stream, and on
    the overlay, in program order.  The five [async_] operations on the
    stream are the suspending network operations of the attempt. *)
Inductive Op :=
| timer_expires_from_now (seconds : N) (ok : bool)
| timer_async_wait
| timer_cancel
| async_connect
| async_handshake
| async_write_some
| async_read_some
| async_shutdown
| socket_close
| peerFinder_onRedirects
| overlay_add_active.

Definition is_network_op (op : Op) : bool :=
  match op with
  | async_connect | async_handshake | async_write_some
  | async_read_some | async_shutdown => true
  | _ => false
  end.

(** What the environment answers to the calls whose code lies outside
    the attempt: whether [timer_.expires_from_now] succeeds, whether
    [local_endpoint] does, the finder's [onConnected], the availability of
    the shared value, the size of the request written to [write_buf_], the
    parser's verdicts, and the checks of [processResponse]. *)
Record Answers := {
  timer_ok : bool;
  local_endpoint_ok : bool;
  onConnected : bool;
  sharedValue_ok : bool;
  request_size : N;
  parse_ok : bool;
  bytes_consumed : N;
  parser_complete : bool;
  status_503_with_peer_ips : bool;
  response_isPeerUpgrade : bool;
  parseHello_ok : bool;
  verifyHello_ok : bool;
  activate_success : bool;
}.

Record t := {
  is_open : bool;
  write_buf_ : N;
  ops : list Op;
}.

Definition do (op : Op) (a : t) : t :=
  {| is_open := is_open a; write_buf_ := write_buf_ a; ops := ops a ++ [op] |}.

Definition set_write_buf_ (n : N) (a : t) : t :=
  {| is_open := is_open a; write_buf_ := n; ops := ops a |}.

(** A fresh attempt on which no call was made, with its socket taken as
    open: [async_connect] opens the socket before it connects.  The
    attempt whose open failed is the same record with [is_open := false];
    statements that range over every attempt cover it. *)
Definition create : t := {| is_open := true; write_buf_ := 0; ops := [] |}.

Definition run (a : t) : t := do async_connect a.

Definition close (a : t) : t :=
  if is_open a then
    let a := do timer_cancel a in
    let a := do socket_close a in
    {| is_open := false; write_buf_ := write_buf_ a; ops := ops a |}
  else a.

Definition fail (a : t) : t := close a.

Definition setTimer (env : Answers) (a : t) : t :=
  let a := do (timer_expires_from_now 15 (timer_ok env)) a in
  if negb (timer_ok env) then a
  else do timer_async_wait a.

Definition cancelTimer (a : t) : t := do timer_cancel a.

Definition onTimer (ec : error_code) (a : t) : t :=
  if negb (is_open a) then a else
  if bool_decide (ec = operation_aborted) then a else
  if bool_decide (ec ≠ no_error) then close a else
  fail a.

Definition onConnect (env : Answers) (ec : error_code) (a : t) : t :=
  let a := cancelTimer a in
  if bool_decide (ec = operation_aborted) then a else
  let ec := if bool_decide (ec = no_error)
            then (if local_endpoint_ok env then no_error else failure)
            else ec in
  if bool_decide (ec ≠ no_error) then fail a else
  if negb (is_open a) then a else
  let a := setTimer env a in
  do async_handshake a.

Definition processResponse (env : Answers) (a : t) : t :=
  let a := if status_503_with_peer_ips env then do peerFinder_onRedirects a else a in
  if negb (response_isPeerUpgrade env) then close a else
  if negb (parseHello_ok env) then fail a else
  if negb (sharedValue_ok env) then close a else
  if negb (verifyHello_ok env) then close a else
  if negb (activate_success env) then fail a else
  do overlay_add_active a.

Definition onHandshake (env : Answers) (ec : error_code) (a : t) : t :=
  let a := cancelTimer a in
  if negb (is_open a) then a else
  if bool_decide (ec = operation_aborted) then a else
  let ec := if bool_decide (ec = no_error)
            then (if local_endpoint_ok env then no_error else failure)
            else ec in
  if bool_decide (ec ≠ no_error) then fail a else
  if negb (onConnected env) then fail a else
  if negb (sharedValue_ok env) then close a else
  let a := set_write_buf_ (write_buf_ a + request_size env) a in
  let a := setTimer env a in
  do async_write_some a.

Definition onRead (env : Answers) (ec : error_code) (bytes_transferred : N)
  (a : t) : t :=
  let a := cancelTimer a in
  if negb (is_open a) then a else
  if bool_decide (ec = operation_aborted) then a else
  if bool_decide (ec = eof) then
    let a := setTimer env a in
    do async_shutdown a
  else
  if bool_decide (ec ≠ no_error) then fail a else
  let a := set_write_buf_ (write_buf_ a + bytes_transferred) a in
  if parse_ok env then
    let a := set_write_buf_ (write_buf_ a - bytes_consumed env) a in
    if parser_complete env then processResponse env a
    else
      let a := setTimer env a in
      do async_read_some a
  else fail a.

Definition onWrite (env : Answers) (ec : error_code) (bytes_transferred : N)
  (a : t) : t :=
  let a := cancelTimer a in
  if negb (is_open a) then a else
  if bool_decide (ec = operation_aborted) then a else
  if bool_decide (ec ≠ no_error) then fail a else
  let a := set_write_buf_ (write_buf_ a - bytes_transferred) a in
  if bool_decide (write_buf_ a = 0) then onRead env no_error 0 a else
  let a := setTimer env a in
  do async_write_some a.

Definition onShutdown (ec : error_code) (a : t) : t :=
  let a := cancelTimer a in
  if bool_decide (ec = no_error) then close a else
  if bool_decide (ec ≠ eof) then fail a else
  close a.

(** The watchdog, read off the log: the timer is [waiting s] after
    [expires_from_now(s)] succeeded and [async_wait] followed, and is idle
    after a cancel.  A log is guarded when every suspending network
    operation is started while the timer waits on a 15 second deadline. *)
Inductive timer_state := idle | deadline (s : N) | waiting (s : N).

Definition timer_step (st : timer_state) (op : Op) : timer_state :=
  match op with
  | timer_expires_from_now s true => deadline s
  | timer_expires_from_now s false => idle
  | timer_async_wait =>
      match st with
      | deadline s => waiting s
      | _ => st
      end
  | timer_cancel => idle
  | _ => st
  end.

Fixpoint guarded_from (st : timer_state) (l : list Op) : bool :=
  match l with
  | [] => true
  | op :: l' =>
      (if is_network_op op
       then match st with waiting 15 => true | _ => false end
       else true)
      && guarded_from (timer_step st op) l'
  end.

Definition guarded (a : t) : bool := guarded_from idle (ops a).

End ConnectAttempt.

(** ** Reading the state and the log *)

Section Observations.

Context `{!PeerFinder.Manager, !Resource.Manager, !HttpLib, !Handshake,
          !ManifestLib, !Tuning}.
Context `{!PeerImp_methods}.

(** The effects performed between state [o] and a later state [o']. *)
Definition new_effects (o o' : OverlayImpl) : list Effect :=
  drop (length (effects_ o)) (effects_ o').

(** Appending a list of effects to the log. *)
Definition emits (l : list Effect) (o : OverlayImpl) : OverlayImpl :=
  foldl (fun o e => emit e o) o l.

(** How many copies were queued on the peer with short id [p]. *)
Definition sent_to (p : Peer_id) (e : Effect) : bool :=
  match e with
  | Sent q _ => bool_decide (q = p)
  | _ => false
  end.

Definition sent_count (p : Peer_id) (log : list Effect) : nat :=
  length (List.filter (sent_to p) log).

(** The messages that left the node, whoever received them. *)
Definition sent_messages (log : list Effect) : list Message :=
  omap (fun e => match e with Sent _ sm => Some sm | _ => None end) log.

(** Every message in the log left the node with a hop count of zero. *)
Definition hops_zeroed (log : list Effect) : Prop :=
  ∀ sm, sm ∈ sent_messages log → message_hops sm = Some 0.

(** [ids_] is filled by [emplace(peer->id(), peer)]: a peer is filed
    under its own short id. *)
Definition ids_wf (o : OverlayImpl) : Prop :=
  ∀ k p, ids_ o !! k = Some (Some p) → id p = k.

(** The same, as a check that can be run on a given table. *)
Definition ids_wfb (o : OverlayImpl) : bool :=
  forallb (fun kv => match lock kv.2 with
                     | Some p => id p =? kv.1
                     | None => true
                     end) (map_to_list (ids_ o)).

(** Whether the hash router records [uid] as relayed. *)
Definition relayed (uid : uint256) (o : OverlayImpl) : bool :=
  HashRouter.has_flag (HashRouter.entry uid (hashRouter o)) HashRouter.SF_RELAYED.

(** Whether [relay] drops message [m] for its hop count. *)
Definition ttl_exceeded {T} `{!HopsMessage T} (m : T) : bool :=
  has_hops m && (maxTTL <=? hops m).

(** The peers [relay] forwards [m] to, given the skip set swapped in. *)
Definition relay_recipients {T} `{!HopsMessage T} (m : T) (skip : gset Peer_id)
  (o : OverlayImpl) : list PeerImp :=
  List.filter (fun p => negb (bool_decide (id p ∈ skip))
                        && (negb (has_hops m) || hopsAware p))
    (active_peers o).

(** What happens to the content with a given uid while the node runs: a
    peer session that received it has the router record the sender
    ([addSuppressionPeer]), and the content is handed to [relay]. *)
Inductive Step (T : Type) :=
| Suppress (from : Peer_id)
| Relay (m : T).

#[global] Arguments Suppress {T} from.
#[global] Arguments Relay {T} m.

Definition step {T} `{!HopsMessage T} (uid : uint256) (o : OverlayImpl)
  (s : Step T) : OverlayImpl :=
  match s with
  | Suppress from =>
      set_hashRouter (HashRouter.addSuppressionPeer uid from (hashRouter o)).2 o
  | Relay m => relay m uid o
  end.

(** The children [stop] still reaches through [list_]. *)
Definition reachable_children (o : OverlayImpl) : list ChildPtr :=
  omap (fun kv => lock kv.2) (list_ o).

(** The JSON body [{"peer-ips": [...]}] listing the given endpoints. *)
Definition peer_ips (eps : list PeerFinder.Endpoint) : Json.Value :=
  Json.objectValue
    [("peer-ips",
      Json.arrayValue
        (map (fun e => Json.stringValue (endpoint_to_string (PeerFinder.ep_address e)))
           eps))].

(** Descending order of scores, the order [std::sort] establishes with
    the comparator [item_before]. *)
Definition descending (a b : item) : Prop := (b.1 ≤ a.1)%Z.

#[global] Instance descending_dec a b : Decision (descending a b).
Proof. unfold descending. apply _. Defined.

(** Two sorting procedures that meet the contract of [std::sort]: a merge
    sort of the vector, and the same merge sort started from the other
    end of the vector.  They differ only in the order they give to items
    of equal score. *)
Definition sort_forward (v : list item) : list item := merge_sort descending v.

Definition sort_backward (v : list item) : list item :=
  merge_sort descending (reverse v).

(** Ties broken by insertion order: two items of equal score stand in
    the sorted vector in the order in which they were put into the
    vector. *)
Definition ties_by_insertion_order (v sorted : list item) : Prop :=
  ∀ (i j : nat) (a b : item),
    (i < j)%nat → v !! i = Some a → v !! j = Some b → a.1 = b.1 →
    ∃ i' j' : nat, (i' < j')%nat ∧ sorted !! i' = Some a ∧ sorted !! j' = Some b.

(** The short ids of the peers of a list of items. *)
Definition item_ids (v : list item) : PeerSet :=
  list_to_set (map (fun e => id e.2) v).

End Observations.

(** ** A concrete environment

    Small instances of the collaborators, on which the statements below
    are evaluated. *)

Module Scenario.

(** Modelled from the spec: the slot table of section 4.1, with its own
    listening identity, the cap on admitted peers, the slots handed out
    and the endpoints it suggests when full.  [new_inbound_slot] fails on
    a self-connect, [activate] answers [duplicate] for a node key already
    active and [full] at the cap, [on_closed] releases the slot, and
    [redirect] lists the known endpoints. *)
Record Finder := {
  f_maxPeers : N;
  f_next : N;
  f_open : list PeerFinder.Slot;
  f_active : list (PeerFinder.Slot * PublicKey);
  f_known : list PeerFinder.Endpoint;
}.

#[export] Instance finder : PeerFinder.Manager := {
  PeerFinder.PF := Finder;
  PeerFinder.new_inbound_slot local remote f :=
    if bool_decide (local = remote) then (None, f)
    else
      let s := {| PeerFinder.key := f_next f; PeerFinder.inbound := true;
                  PeerFinder.listening_port := None |} in
      (Some s, {| f_maxPeers := f_maxPeers f; f_next := f_next f + 1;
                  f_open := f_open f ++ [s]; f_active := f_active f;
                  f_known := f_known f |});
  PeerFinder.activate s k cluster f :=
    if bool_decide (k ∈ (f_active f).*2) then (PeerFinder.duplicate, f)
    else if f_maxPeers f <=? N.of_nat (length (f_active f)) then (PeerFinder.full, f)
    else (PeerFinder.success,
          {| f_maxPeers := f_maxPeers f; f_next := f_next f;
             f_open := f_open f; f_active := f_active f ++ [(s, k)];
             f_known := f_known f |});
  PeerFinder.on_closed s f :=
    {| f_maxPeers := f_maxPeers f; f_next := f_next f;
       f_open := List.filter (fun x => negb (bool_decide (x = s))) (f_open f);
       f_active := List.filter (fun x => negb (bool_decide (x.1 = s))) (f_active f);
       f_known := f_known f |};
  PeerFinder.redirect s f := (f_known f, f);
}.

(** Modelled from the spec: the admission budget of section 4.2, indexed
    by source address; a consumer is over its budget after more than
    [budget] charges. *)
Definition budget : N := 100.

#[export] Instance resources : Resource.Manager := {
  Resource.RM := gmap string N;
  Resource.Consumer := string;
  Resource.newInboundEndpoint ep rm :=
    (address ep, <[address ep := default 0 (rm !! address ep) + 1]> rm);
  Resource.disconnect c rm := (budget <? default 0 (rm !! c), rm);
}.

(** Modelled from the spec: the upgrade headers of section 6.  A request
    is an upgrade when it says [Connection: Upgrade]; the one protocol
    token understood is [RTXP/1.2]; a header value holds a single
    token. *)
#[export] Instance http : HttpLib := {
  is_upgrade r := bool_decide (header "Connection" (req_headers r) = "Upgrade");
  is_keep_alive r := bool_decide (req_version r = 11%Z);
  parse_ProtocolVersions s := if bool_decide (s = "RTXP/1.2") then [(1, 2)] else [];
  split_commas s := if bool_decide (s = EmptyString) then [] else [s];
  ci_equal a b := bool_decide (a = b) || bool_decide (a = "Peer") && bool_decide (b = "peer");
  base64_encode s := s;
}.

(** Modelled from the spec: the hello of section 4.3, reduced to the
    node key it advertises; verification fails on our own key. *)
Definition own_key : PublicKey := "n9Self".

#[export] Instance handshake : Handshake := {
  TMHello := PublicKey;
  SharedValue := N;
  parseHello _ h := h !! "Public-Key";
  makeSharedValue handle := if handle =? 0 then None else Some handle;
  verifyHello hello shared ip remote :=
    if bool_decide (hello = own_key) then None else Some hello;
  cluster_member _ := None;
}.

(** Modelled from the spec: the manifest cache of section 4.7, keyed by
    master key with the highest sequence seen; a master key unknown to
    the cache is untrusted and a sequence not above the stored one is
    stale.  A serialized manifest is written as one character naming the
    master key followed by the signing key, whose length stands for the
    sequence number. *)
#[export] Instance manifests : ManifestLib := {
  ManifestCache := gmap PublicKey N;
  make_Manifest s :=
    match s with
    | EmptyString => None
    | String c rest =>
        Some {| serialized := s; masterKey := String c EmptyString;
                signingKey := rest;
                sequence := N.of_nat (String.length rest);
                mhash := N.of_nat (String.length rest) + 1000 * Ascii.N_of_ascii c |}
    end;
  applyManifest m c :=
    match c !! masterKey m with
    | None => (untrusted, c)
    | Some seq =>
        if sequence m <=? seq then (stale, c)
        else (accepted, <[masterKey m := sequence m]> c)
    end;
}.

#[export] Instance tuning : Tuning := {| maxTTL := 3 |}.

(** A peer is hop-aware unless its hello says [legacy]; it opts into the
    crawl, reports no version, and scores by whether it has the item. *)
#[export] Instance peer_methods : PeerImp_methods := {
  hopsAware p := negb (bool_decide (hello p = "legacy"));
  crawl_opt_in _ := true;
  uptime _ := 0;
  getVersion _ := EmptyString;
  getScore p has := if has then 10000%Z else 0%Z;
}.

Definition mk_peer (i : Peer_id) (ip : string) (key : PublicKey) : PeerImp :=
  {| id := i; getRemoteAddress := Endpoint ip 51235;
     slot := {| PeerFinder.key := i; PeerFinder.inbound := true;
                PeerFinder.listening_port := None |};
     hello := key; getNodePublic := key; usage := ip |}.

Definition peerA := mk_peer 1 "10.0.0.1" "n9A".
Definition peerB := mk_peer 2 "10.0.0.2" "n9B".
Definition peerC := mk_peer 3 "10.0.0.3" "legacy".

(** An overlay that has just started: nothing registered, id counter at
    1, and the finder admitting at most one peer. *)
Definition started (exp : bool) : OverlayImpl :=
  {| work_ := true;
     setup_ := {| expire := exp; public_ip := "203.0.113.5"; ipLimit := 0 |};
     m_resourceManager := ∅;
     m_peerFinder := {| f_maxPeers := 1; f_next := 10; f_open := [];
                        f_active := []; f_known := [] |};
     m_peers := []; ids_ := ∅; list_ := [];
     next_id_ := 1; manifestCache_ := {["M" := 3]};
     hashRouter := ∅; effects_ := [] |}.

(** The same overlay after peers A, B and C completed their handshake. *)
Definition with_peers (exp : bool) : OverlayImpl :=
  add_active peerC (add_active peerB (add_active peerA (started exp))).

(** A node whose single slot is taken by peer A, and which knows peer A's
    endpoint as the one to suggest to a client it cannot admit. *)
Definition full : OverlayImpl :=
  let o := add_active peerA (started false) in
  set_m_peerFinder
    {| f_maxPeers := 1; f_next := 10; f_open := [slot peerA];
       f_active := [(slot peerA, getNodePublic peerA)];
       f_known := [{| PeerFinder.ep_hops := 1;
                      PeerFinder.ep_address := getRemoteAddress peerA |}] |} o.

(** An accepted TLS connection and the requests sent over it. *)
Definition listening : endpoint_type := Endpoint "10.0.0.9" 51235.
Definition client : endpoint_type := Endpoint "192.0.2.7" 40000.

Definition bundle : ssl_bundle :=
  {| local_endpoint := Some listening; native_handle := 7 |}.

Definition upgrade_request : http_request_type :=
  {| req_method := "GET"; req_url := "/"; req_version := 11;
     req_headers := {[ "Connection" := "Upgrade"; "Upgrade" := "RTXP/1.2";
                       "Connect-As" := "Peer"; "Public-Key" := "n9New" ]} |}.

Definition plain_request : http_request_type :=
  {| req_method := "GET"; req_url := "/"; req_version := 11;
     req_headers := {[ "Host" := "example" ]} |}.

(** A proposal with a given hop count, and the uid it is relayed under. *)
Definition proposal (h : option N) : TMProposeSet :=
  {| ps_hops := h; ps_payload := "proposal" |}.

Definition uid_H : uint256 := 77.

(** A score that prefers peer C. *)
Definition prefers_C (p : PeerImp) : bool := bool_decide (id p = 3).

End Scenario.

(** * Further operations of the overlay *)

(** ** Collaborators of the outbound path and of the configuration *)

Module Outbound.

(** [PeerFinder::Manager], the part the dialer calls. *)
Class Finder `{!PeerFinder.Manager} := {
  new_outbound_slot :
    endpoint_type -> PeerFinder.PF -> option PeerFinder.Slot * PeerFinder.PF;
  autoconnect : PeerFinder.PF -> list endpoint_type * PeerFinder.PF;
}.

(** [Resource::Manager::newOutboundEndpoint]. *)
Class Resources `{!Resource.Manager} := {
  newOutboundEndpoint :
    endpoint_type -> Resource.RM -> Resource.Consumer * Resource.RM;
}.

End Outbound.

(** What [setup_Overlay] calls on a configuration section and on
    addresses (BasicConfig.h, beast's IP address): [get_bool] is
    [get<bool>(section, name, default)], [set_int] and [set_string] give
    the value the target holds after [set(target, name, section)]. *)
Class ConfigLib := {
  ConfigSection : Type;
  get_bool : ConfigSection -> string -> bool -> bool;
  set_int : Z -> string -> ConfigSection -> Z;
  set_string : string -> string -> ConfigSection -> string;
  Address_from_string : string -> address_type * bool;
  is_v4 : address_type -> bool;
  is_private : address_type -> bool;
}.

(** What [isPeerUpgrade] and [processResponse] call on a received
    message and its body: [message.upgrade()], the JSON reader and
    [parse_endpoint]. *)
Class ResponseLib := {
  message_upgrade : http_message -> bool;
  Reader_parse : string -> option Json.Value;
  parse_endpoint : string -> option endpoint_type;
}.

Section OverlayMore.

Context `{!PeerFinder.Manager, !Resource.Manager, !HttpLib, !Handshake,
          !ManifestLib, !Tuning}.
Context `{!PeerImp_methods}.
Context `{!Outbound.Finder, !Outbound.Resources, !ConfigLib, !ResponseLib}.

Definition set_ids_ (v : gmap Peer_id (weak_ptr PeerImp)) (o : OverlayImpl)
  : OverlayImpl :=
  {| work_ := work_ o; setup_ := setup_ o;
     m_resourceManager := m_resourceManager o; m_peerFinder := m_peerFinder o;
     m_peers := m_peers o; ids_ := v; list_ := list_ o;
     next_id_ := next_id_ o; manifestCache_ := manifestCache_ o;
     hashRouter := hashRouter o; effects_ := effects_ o |}.

(** ** The table of active peers *)

(** [OverlayImpl::activate]: the peer is filed under its short id, unless
    the id is taken. *)
Definition activate (peer : PeerImp) (o : OverlayImpl) : OverlayImpl :=
  set_ids_ (match ids_ o !! id peer with
            | Some _ => ids_ o
            | None => <[id peer := Some peer]> (ids_ o)
            end) o.

Definition onPeerDeactivate (i : Peer_id) (o : OverlayImpl) : OverlayImpl :=
  set_ids_ (delete i (ids_ o)) o.

(** [OverlayImpl::size]: the number of entries of [ids_]. *)
Definition OverlayImpl_size (o : OverlayImpl) : nat := size (ids_ o).

Definition findPeerByShortID (i : Peer_id) (o : OverlayImpl) : option PeerImp :=
  match ids_ o !! i with
  | Some w => lock w
  | None => None
  end.

Definition getActivePeers (o : OverlayImpl) : list PeerImp :=
  foldl (fun ret sp => ret ++ [sp]) [] (active_peers o).

(** ** Children and the end of the shutdown *)

(** [checkStopped]: whether [stopped()] is called.  [isStopping] and
    [areChildrenStopped] are answers of the [Stoppable] base class. *)
Definition checkStopped (isStopping areChildrenStopped : bool) (o : OverlayImpl)
  : bool :=
  isStopping && areChildrenStopped && bool_decide (list_ o = []).

(** [OverlayImpl::remove(Child&)]; the boolean tells whether [stopped()]
    was called. *)
Definition remove_child (isStopping areChildrenStopped : bool) (child : ChildPtr)
  (o : OverlayImpl) : bool * OverlayImpl :=
  let o := set_list_ (List.filter (fun kv => negb (bool_decide (kv.1 = child)))
                        (list_ o)) o in
  if bool_decide (list_ o = [])
  then (checkStopped isStopping areChildrenStopped o, o)
  else (false, o).

(** The children destroyed one after the other while the overlay is
    stopping and its [Stoppable] children have stopped; the booleans are
    the answers of the successive [remove] calls. *)
Fixpoint drain (cs : list ChildPtr) (o : OverlayImpl) : list bool * OverlayImpl :=
  match cs with
  | [] => ([], o)
  | c :: cs' =>
      let '(signalled, o) := remove_child true true c o in
      let '(rest, o) := drain cs' o in
      (signalled :: rest, o)
  end.

(** ** [OverlayImpl::connect] and [OverlayImpl::autoConnect] *)

Definition connect (remote_endpoint : endpoint_type) (o : OverlayImpl)
  : OverlayImpl :=
  let '(usage, rm) :=
    Outbound.newOutboundEndpoint remote_endpoint (m_resourceManager o) in
  let '(over, rm) := Resource.disconnect usage rm in
  let o := set_m_resourceManager rm o in
  if over then o else
  let '(slot, pf) := Outbound.new_outbound_slot remote_endpoint (m_peerFinder o) in
  let o := set_m_peerFinder pf o in
  match slot with
  | None => o
  | Some slot =>
      let id := next_id_ o in
      let o := set_next_id_ ((next_id_ o + 1) mod 2 ^ 32) o in
      let o := set_list_ (emplace (ConnectAttemptPtr id)
                            (Some (ConnectAttemptPtr id)) (list_ o)) o in
      emit (Run (ConnectAttemptPtr id)) o
  end.

Definition autoConnect (o : OverlayImpl) : OverlayImpl :=
  let '(result, pf) := Outbound.autoconnect (m_peerFinder o) in
  let o := set_m_peerFinder pf o in
  foldl (fun o addr => connect addr o) o result.

(** ** [setup_Overlay] *)

(** [default] is a default-constructed [Overlay::Setup]; a thrown
    [std::runtime_error] is returned with its message. *)
Definition setup_Overlay (default : Setup) (section : ConfigSection)
  : string + Setup :=
  let expire := get_bool section "expire" false in
  let ipLimit := set_int (ipLimit default) "ip_limit" section in
  if (ipLimit <? 0)%Z then inl "Configured IP limit is invalid" else
  let ip := set_string EmptyString "public_ip" section in
  if bool_decide (ip = EmptyString)
  then inr {| expire := expire; public_ip := public_ip default; ipLimit := ipLimit |}
  else
    let '(a, valid) := Address_from_string ip in
    if negb valid || negb (is_v4 a) || is_private a
    then inl "Configured public IP is invalid"
    else inr {| expire := expire; public_ip := a; ipLimit := ipLimit |}.

(** ** The response to an upgrade request, on the dialer's side *)

(** [m.headers["name"]] on a message under construction or received. *)
Definition message_header (name : string) (m : http_message) : string :=
  match List.find (fun kv => bool_decide (kv.1 = name)) (m_headers m) with
  | Some kv => kv.2
  | None => EmptyString
  end.

(** [OverlayImpl::isPeerUpgrade(beast::deprecated_http::message const&)]. *)
Definition isPeerUpgrade_message (request : http_message) : bool :=
  if negb (message_upgrade request) then false else
  let versions := parse_ProtocolVersions (message_header "Upgrade" request) in
  if bool_decide (length versions = 0%nat) then false else
  if negb (m_request request) && bool_decide (m_status request ≠ 101%Z) then false
  else true.

(** [json.isMember(name)] and [json[name]] on a constant value. *)
Definition Json_isMember (name : string) (v : Json.Value) : bool :=
  match v with
  | Json.objectValue ms => bool_decide (name ∈ ms.*1)
  | _ => false
  end.

Definition Json_get (name : string) (v : Json.Value) : Json.Value :=
  match v with
  | Json.objectValue ms =>
      match List.find (fun kv => bool_decide (kv.1 = name)) ms with
      | Some kv => kv.2
      | None => Json.nullValue
      end
  | _ => Json.nullValue
  end.

(** The first part of [ConnectAttempt::processResponse]: the endpoints
    handed to [onRedirects], when it is called at all. *)
Definition redirects_of_json (json : Json.Value) : option (list endpoint_type) :=
  match json with
  | Json.objectValue _ =>
      if Json_isMember "peer-ips" json then
        match Json_get "peer-ips" json with
        | Json.arrayValue ips =>
            Some (foldl (fun eps v =>
                           match v with
                           | Json.stringValue s =>
                               match parse_endpoint s with
                               | Some ep => eps ++ [ep]
                               | None => eps
                               end
                           | _ => eps
                           end) [] ips)
        | _ => None
        end
      else None
  | _ => None
  end.

Definition response_redirects (status : Z) (body : string)
  : option (list endpoint_type) :=
  if bool_decide (status = 503%Z) then
    match Reader_parse body with
    | Some json => redirects_of_json json
    | None => None
    end
  else None.

(** The answers [processResponse] works with, as far as the response
    itself decides them. *)
Definition answers_for (m : http_message) (body : string)
  (env : ConnectAttempt.Answers) : Prop :=
  ConnectAttempt.status_503_with_peer_ips env
    = bool_decide (is_Some (response_redirects (m_status m) body))
  ∧ ConnectAttempt.response_isPeerUpgrade env = isPeerUpgrade_message m.

(** ** Runs of calls on the overlay *)

(** The tables hold what [emplace] lets in: a peer is filed under its own
    short id, and no slot and no child is listed twice. *)
Definition tables_wf (o : OverlayImpl) : Prop :=
  ids_wf o ∧ NoDup (m_peers o).*1 ∧ NoDup (list_ o).*1.

Inductive Call :=
| call_add_active (peer : PeerImp)
| call_activate (peer : PeerImp)
| call_onPeerDeactivate (i : Peer_id)
| call_remove_slot (s : PeerFinder.Slot)
| call_remove_child (isStopping areChildrenStopped : bool) (child : ChildPtr)
| call_connect (remote_endpoint : endpoint_type)
| call_autoConnect
| call_onHandoff (bundle : ssl_bundle) (request : http_request_type)
    (remote_endpoint : endpoint_type)
| call_send_propose (m : TMProposeSet)
| call_send_validation (m : TMValidation)
| call_relay_propose (m : TMProposeSet) (uid : uint256)
| call_relay_validation (m : TMValidation) (uid : uint256)
| call_onManifests (m : TMManifests) (from : PeerImp)
| call_stop.

(** A call on the overlay; [remove(slot)] has no result when the slot is
    not in [m_peers]. *)
Definition perform (o : OverlayImpl) (c : Call) : option OverlayImpl :=
  match c with
  | call_add_active peer => Some (add_active peer o)
  | call_activate peer => Some (activate peer o)
  | call_onPeerDeactivate i => Some (onPeerDeactivate i o)
  | call_remove_slot s => remove_slot s o
  | call_remove_child s1 s2 child => Some (remove_child s1 s2 child o).2
  | call_connect e => Some (connect e o)
  | call_autoConnect => Some (autoConnect o)
  | call_onHandoff b r e => Some (onHandoff b r e o).2
  | call_send_propose m => Some (send m o).2
  | call_send_validation m => Some (send m o).2
  | call_relay_propose m uid => Some (relay m uid o)
  | call_relay_validation m uid => Some (relay m uid o)
  | call_onManifests m from => Some (onManifests m from o)
  | call_stop => Some (stop o)
  end.

(** A run of calls, one after the other; the run has no result once a
    call has none. *)
Fixpoint perform_all (cs : list Call) (o : OverlayImpl) : option OverlayImpl :=
  match cs with
  | [] => Some o
  | c :: cs' =>
      match perform o c with
      | Some o' => perform_all cs' o'
      | None => None
      end
  end.

(** The three tables, and the members that neither the tables nor the
    collaborators account for. *)
Definition tables (o : OverlayImpl) :=
  (ids_ o, m_peers o, list_ o).

Definition settings (o : OverlayImpl) :=
  (work_ o, setup_ o, next_id_ o).

(** ** Reading the crawl report *)

(** The members of a JSON object, by name. *)
Definition Json_members (v : Json.Value) : list string :=
  match v with
  | Json.objectValue ms => ms.*1
  | _ => []
  end.

(** Whether peer [p] may be sent message [m] by [send]. *)
Definition eligible {T} `{!HopsMessage T} (m : T) (p : PeerImp) : bool :=
  negb (has_hops m) || hopsAware p.

(** Whether an effect queues a message on a peer. *)
Definition is_Sent (e : Effect) : bool :=
  match e with
  | Sent _ _ => true
  | _ => false
  end.

End OverlayMore.

(** ** Runs of the connect attempt *)

Module ConnectAttemptRuns.
Import ConnectAttempt.

#[global] Instance Op_eq_dec : EqDecision Op.
Proof. solve_decision. Defined.

(** [ConnectAttempt::stop], once it runs on the strand. *)
Definition stop (a : t) : t :=
  close a.

(** What can happen to an attempt after [run]: one of its completion
    handlers is called, or the overlay calls [stop]. *)
Inductive Completion :=
| stop_called
| timer_fired (ec : error_code)
| connect_done (env : Answers) (ec : error_code)
| handshake_done (env : Answers) (ec : error_code)
| write_done (env : Answers) (ec : error_code) (bytes_transferred : N)
| read_done (env : Answers) (ec : error_code) (bytes_transferred : N)
| shutdown_done (ec : error_code).

Definition handle (a : t) (c : Completion) : t :=
  match c with
  | stop_called => stop a
  | timer_fired ec => onTimer ec a
  | connect_done env ec => onConnect env ec a
  | handshake_done env ec => onHandshake env ec a
  | write_done env ec n => onWrite env ec n a
  | read_done env ec n => onRead env ec n a
  | shutdown_done ec => onShutdown ec a
  end.

(** Whether [timer_.expires_from_now] succeeds in the handler called. *)
Definition timer_can_be_set (c : Completion) : bool :=
  match c with
  | connect_done env _ | handshake_done env _
  | write_done env _ _ | read_done env _ _ => timer_ok env
  | _ => true
  end.

(** Whether the handler is called with [operation_aborted]. *)
Definition aborted (c : Completion) : bool :=
  match c with
  | timer_fired ec | connect_done _ ec | handshake_done _ ec
  | write_done _ ec _ | read_done _ ec _ =>
      bool_decide (ec = operation_aborted)
  | _ => false
  end.

(** The operations logged between two states of an attempt. *)
Definition new_ops (a a' : t) : list Op :=
  drop (length (ops a)) (ops a').

Definition count_op (op : Op) (l : list Op) : nat :=
  length (List.filter (fun x => bool_decide (x = op)) l).

End ConnectAttemptRuns.

(** ** The concrete environment, continued *)

From Stdlib Require DecimalString.

Module ScenarioMore.
Import Scenario.

(** Modelled from the spec: [new_outbound_slot] of section 4.1 fails when
    the capacity is exhausted; [autoconnect] proposes the known
    endpoints. *)
#[export] Instance outbound_finder : Outbound.Finder := {
  Outbound.new_outbound_slot remote f :=
    if f_maxPeers f <=? N.of_nat (length (f_open f)) then (None, f)
    else
      let s := {| PeerFinder.key := f_next f; PeerFinder.inbound := false;
                  PeerFinder.listening_port := None |} in
      (Some s, {| f_maxPeers := f_maxPeers f; f_next := f_next f + 1;
                  f_open := f_open f ++ [s]; f_active := f_active f;
                  f_known := f_known f |});
  Outbound.autoconnect f := (map PeerFinder.ep_address (f_known f), f);
}.

(** Modelled from the spec: outbound endpoints are charged like inbound
    ones (section 4.2). *)
#[export] Instance outbound_resources : Outbound.Resources := {
  Outbound.newOutboundEndpoint ep rm :=
    (address ep, <[address ep := default 0 (rm !! address ep) + 1]> rm);
}.

(** Modelled from the spec: the configuration keys of section 6.  A
    section maps keys to strings; an integer is written in decimal, a
    boolean as [1] or [true]; an address is valid unless empty of dots
    and colons, is IPv4 unless it holds a colon, and is private when it
    starts with [10.] or [192.168.]. *)
Definition has_char (c : string) (s : string) : bool :=
  bool_decide (is_Some (String.index 0 c s)).

#[export] Instance config : ConfigLib := {
  ConfigSection := gmap string string;
  get_bool section name d :=
    match section !! name with
    | Some v => bool_decide (v = "1") || bool_decide (v = "true")
    | None => d
    end;
  set_int target name section :=
    match section !! name ≫= DecimalString.NilZero.int_of_string with
    | Some n => Z.of_int n
    | None => target
    end;
  set_string target name section := default target (section !! name);
  Address_from_string s := (s, has_char "." s || has_char ":" s);
  is_v4 a := negb (has_char ":" a);
  is_private a := String.prefix "10." a || String.prefix "192.168." a;
}.

(** Modelled from the spec: a response is an upgrade when it says
    [Connection: Upgrade]; the one body the reader understands is the
    redirect body naming peer A; [parse_endpoint] understands peer A's
    endpoint. *)
Definition redirect_body : string := "peer-ips: 10.0.0.1:51235".

#[export] Instance responses : ResponseLib := {
  message_upgrade m := bool_decide (message_header "Connection" m = "Upgrade");
  Reader_parse s :=
    if bool_decide (s = redirect_body)
    then Some (peer_ips [{| PeerFinder.ep_hops := 1;
                            PeerFinder.ep_address := getRemoteAddress peerA |}])
    else None;
  parse_endpoint s :=
    if bool_decide (s = "10.0.0.1:51235") then Some (getRemoteAddress peerA)
    else None;
}.

(** A peer that asks to be left out of nothing, and an overlay section
    of the configuration file. *)
Definition peerD := mk_peer 4 "10.0.0.4" "n9D".

Definition overlay_section : gmap string string :=
  {[ "expire" := "1"; "ip_limit" := "2"; "public_ip" := "203.0.113.5" ]}.

Definition default_setup : Setup :=
  {| expire := false; public_ip := EmptyString; ipLimit := 0 |}.

(** The answers of an environment in which every check succeeds. *)
Definition all_ok : ConnectAttempt.Answers :=
  {| ConnectAttempt.timer_ok := true;
     ConnectAttempt.local_endpoint_ok := true;
     ConnectAttempt.onConnected := true;
     ConnectAttempt.sharedValue_ok := true;
     ConnectAttempt.request_size := 300;
     ConnectAttempt.parse_ok := true;
     ConnectAttempt.bytes_consumed := 0;
     ConnectAttempt.parser_complete := false;
     ConnectAttempt.status_503_with_peer_ips := false;
     ConnectAttempt.response_isPeerUpgrade := true;
     ConnectAttempt.parseHello_ok := true;
     ConnectAttempt.verifyHello_ok := true;
     ConnectAttempt.activate_success := true |}.

(** The same environment when the timer cannot be set, and when the
    response is no upgrade. *)
Definition no_timer : ConnectAttempt.Answers :=
  {| ConnectAttempt.timer_ok := false;
     ConnectAttempt.local_endpoint_ok := true;
     ConnectAttempt.onConnected := true;
     ConnectAttempt.sharedValue_ok := true;
     ConnectAttempt.request_size := 300;
     ConnectAttempt.parse_ok := true;
     ConnectAttempt.bytes_consumed := 0;
     ConnectAttempt.parser_complete := false;
     ConnectAttempt.status_503_with_peer_ips := false;
     ConnectAttempt.response_isPeerUpgrade := true;
     ConnectAttempt.parseHello_ok := true;
     ConnectAttempt.verifyHello_ok := true;
     ConnectAttempt.activate_success := true |}.

Definition refused : ConnectAttempt.Answers :=
  {| ConnectAttempt.timer_ok := true;
     ConnectAttempt.local_endpoint_ok := true;
     ConnectAttempt.onConnected := true;
     ConnectAttempt.sharedValue_ok := true;
     ConnectAttempt.request_size := 300;
     ConnectAttempt.parse_ok := true;
     ConnectAttempt.bytes_consumed := 120;
     ConnectAttempt.parser_complete := true;
     ConnectAttempt.status_503_with_peer_ips := false;
     ConnectAttempt.response_isPeerUpgrade := false;
     ConnectAttempt.parseHello_ok := true;
     ConnectAttempt.verifyHello_ok := true;
     ConnectAttempt.activate_success := true |}.

(** The answers to a 503 response with the redirect body. *)
Definition redirected : ConnectAttempt.Answers :=
  {| ConnectAttempt.timer_ok := true;
     ConnectAttempt.local_endpoint_ok := true;
     ConnectAttempt.onConnected := true;
     ConnectAttempt.sharedValue_ok := true;
     ConnectAttempt.request_size := 300;
     ConnectAttempt.parse_ok := true;
     ConnectAttempt.bytes_consumed := 120;
     ConnectAttempt.parser_complete := true;
     ConnectAttempt.status_503_with_peer_ips := true;
     ConnectAttempt.response_isPeerUpgrade := false;
     ConnectAttempt.parseHello_ok := true;
     ConnectAttempt.verifyHello_ok := true;
     ConnectAttempt.activate_success := true |}.

(** A response that upgrades in its headers but answers 200. *)
Definition ok_response : http_message :=
  {| m_request := false; m_status := 200; m_reason := "OK";
     m_version := (1%Z, 1%Z);
     m_headers := [("Connection", "Upgrade"); ("Upgrade", "RTXP/1.2")] |}.

(** An upgrade request that does not ask to connect as a peer, and a
    request for the crawl report. *)
Definition leaf_request : http_request_type :=
  {| req_method := "GET"; req_url := "/"; req_version := 11;
     req_headers := {[ "Connection" := "Upgrade"; "Upgrade" := "RTXP/1.2";
                       "Connect-As" := "Leaf" ]} |}.

Definition crawl_request : http_request_type :=
  {| req_method := "GET"; req_url := "/crawl"; req_version := 11;
     req_headers := {[ "Connection" := "Upgrade"; "Upgrade" := "RTXP/1.2" ]} |}.

(** An overlay whose resource manager has charged the client past its
    budget, a socket whose local endpoint cannot be read, and an overlay
    whose finder knows two endpoints to dial and has room for them. *)
Definition charged : OverlayImpl :=
  set_m_resourceManager {[ "192.0.2.7" := 101 ]} (started false).

Definition broken_bundle : ssl_bundle :=
  {| local_endpoint := None; native_handle := 7 |}.

Definition dialling : OverlayImpl :=
  set_m_peerFinder
    {| f_maxPeers := 5; f_next := 10; f_open := []; f_active := [];
       f_known := [{| PeerFinder.ep_hops := 1;
                      PeerFinder.ep_address := getRemoteAddress peerA |};
                   {| PeerFinder.ep_hops := 1;
                      PeerFinder.ep_address := getRemoteAddress peerB |}] |}
    (started false).

End ScenarioMore.

(** * Properties *)

Section Properties.

Context `{!PeerFinder.Manager, !Resource.Manager, !HttpLib, !Handshake,
          !ManifestLib, !Tuning}.
Context `{!PeerImp_methods}.

Implicit Types (o : OverlayImpl) (p : PeerImp) (l : list Effect).

(** ** The log *)

Lemma effects_emits l o : effects_ (emits l o) = effects_ o ++ l.
Proof.
  revert o. induction l as [|e l IH]; intros o; simpl.
  - by rewrite app_nil_r.
  - rewrite IH. simpl. by rewrite <- app_assoc.
Qed.

Lemma emits_app l1 l2 o : emits (l1 ++ l2) o = emits l2 (emits l1 o).
Proof. unfold emits. by rewrite foldl_app. Qed.

Lemma ids_emits l o : ids_ (emits l o) = ids_ o.
Proof. revert o. induction l as [|e l IH]; intros o; simpl; [done|]. by rewrite IH. Qed.

Lemma hashRouter_emits l o : hashRouter (emits l o) = hashRouter o.
Proof. revert o. induction l as [|e l IH]; intros o; simpl; [done|]. by rewrite IH. Qed.

Lemma manifestCache_emits l o : manifestCache_ (emits l o) = manifestCache_ o.
Proof. revert o. induction l as [|e l IH]; intros o; simpl; [done|]. by rewrite IH. Qed.

Lemma new_effects_emits l o : new_effects o (emits l o) = l.
Proof. unfold new_effects. rewrite effects_emits. by rewrite drop_app_length. Qed.

Lemma new_effects_refl o : new_effects o o = [].
Proof. unfold new_effects. by rewrite drop_all. Qed.

Lemma new_effects_app o o' l :
  effects_ o' = effects_ o ++ l → new_effects o o' = l.
Proof. intros E. unfold new_effects. rewrite E. by rewrite drop_app_length. Qed.

(** Visiting a list of peers and queueing a message on those that pass a
    test appends one [Sent] per such peer, in the order of the visit. *)
Lemma visit_send (cond : PeerImp → bool) (sm : Message) (ps : list PeerImp) o :
  foldl (fun acc p => if cond p then PeerImp_send p sm acc else acc) o ps
  = emits (map (fun p => Sent (id p) sm) (List.filter cond ps)) o.
Proof.
  revert o. induction ps as [|p ps IH]; intros o; simpl; [done|].
  rewrite IH. destruct (cond p); done.
Qed.

Lemma for_each_send (cond : PeerImp → bool) (sm : Message) o :
  for_each (fun p acc => if cond p then PeerImp_send p sm acc else acc) o
  = emits (map (fun p => Sent (id p) sm) (List.filter cond (active_peers o))) o.
Proof. unfold for_each. apply visit_send. Qed.

Lemma foldl_pointwise {A B} (f g : A → B → A) (bs : list B) (a : A) :
  (∀ a b, f a b = g a b) → foldl f a bs = foldl g a bs.
Proof.
  intros E. revert a. induction bs as [|b bs IH]; intros a; simpl; [done|].
  by rewrite E, IH.
Qed.

(** ** [relay], step by step *)

Lemma relay_unfold {T} `{!HopsMessage T} (m : T) (uid : uint256) o :
  relay m uid o =
  if ttl_exceeded m then o else
  let '(newly, skip, r) :=
    HashRouter.swapSet uid ∅ HashRouter.SF_RELAYED (hashRouter o) in
  if newly
  then emits (map (fun p => Sent (id p) (encode m)) (relay_recipients m skip o))
         (set_hashRouter r o)
  else set_hashRouter r o.
Proof.
  unfold relay, ttl_exceeded. destruct (has_hops m && (maxTTL <=? hops m)); [done|].
  unfold HashRouter.swapSet.
  destruct (negb (HashRouter.has_flag _ _)); simpl; [|done].
  unfold for_each, relay_recipients.
  rewrite <- visit_send. apply foldl_pointwise. intros acc p.
  destruct (bool_decide _); simpl; done.
Qed.

Lemma flag_stays_set (f flag : Z) : (Z.land (Z.lor f flag) flag =? flag)%Z = true.
Proof.
  apply Z.eqb_eq. apply Z.bits_inj'. intros n _.
  rewrite Z.land_spec, Z.lor_spec.
  destruct (Z.testbit f n), (Z.testbit flag n); done.
Qed.

Lemma relayed_after_swapSet uid skip o :
  let '(_, _, r) := HashRouter.swapSet uid skip HashRouter.SF_RELAYED (hashRouter o) in
  ∀ l, relayed uid (emits l (set_hashRouter r o)) = true.
Proof.
  simpl. intros l. unfold relayed. rewrite hashRouter_emits. simpl.
  unfold HashRouter.entry at 1. rewrite lookup_insert_eq. simpl.
  unfold HashRouter.has_flag. simpl. apply flag_stays_set.
Qed.

(** Under [ids_wf] no two active peers share a short id. *)
Lemma omap_lock_NoDup (kvs : list (Peer_id * weak_ptr PeerImp)) :
  NoDup kvs.*1 →
  (∀ k p, (k, Some p) ∈ kvs → id p = k) →
  NoDup (id <$> omap (fun kv => lock kv.2) kvs).
Proof.
  induction kvs as [|[k w] kvs IH]; simpl; intros ND Hwf; [constructor|].
  apply NoDup_cons in ND as [Hk ND].
  assert (NoDup (id <$> omap (fun kv => lock kv.2) kvs)) as IH'.
  { apply IH; [done|]. intros k' p' Hin. apply Hwf. by right. }
  destruct w as [p|]; simpl; [|done].
  apply NoDup_cons. split; [|done].
  intros Hin. apply list_elem_of_fmap in Hin as (q & Hq & Hin).
  apply list_elem_of_omap in Hin as ([k' w'] & Hin & Hlock).
  simpl in Hlock. unfold lock in Hlock. subst w'.
  assert (id q = k') as <- by (apply Hwf; by right).
  assert (id p = k) as <- by (apply Hwf; by left).
  apply Hk. rewrite Hq. apply list_elem_of_fmap. by exists (id q, Some q).
Qed.

Lemma active_peers_NoDup o : ids_wf o → NoDup (id <$> active_peers o).
Proof.
  intros Hwf. unfold active_peers. apply omap_lock_NoDup.
  - apply NoDup_fst_map_to_list.
  - intros k p Hin. apply Hwf. by apply elem_of_map_to_list.
Qed.

Lemma sent_count_app i l1 l2 :
  sent_count i (l1 ++ l2) = (sent_count i l1 + sent_count i l2)%nat.
Proof. unfold sent_count. by rewrite List.filter_app, length_app. Qed.

Lemma sent_count_NoDup i (sm : Message) (ps : list PeerImp) :
  NoDup (id <$> ps) → (sent_count i (map (fun p => Sent (id p) sm) ps) ≤ 1)%nat.
Proof.
  induction ps as [|p ps IH]; simpl; intros ND; [unfold sent_count; simpl; lia|].
  apply NoDup_cons in ND as [Hp ND]. specialize (IH ND).
  unfold sent_count in *. simpl. case_bool_decide as E; simpl; [|done].
  assert (List.filter (sent_to i) (map (fun p => Sent (id p) sm) ps) = []) as ->; [|simpl; lia].
  clear IH ND. induction ps as [|q ps IH]; simpl; [done|].
  case_bool_decide as E'; simpl.
  - exfalso. apply Hp. rewrite E, <- E'. simpl. by left.
  - apply IH. intros Hin. apply Hp. simpl. by right.
Qed.

Lemma NoDup_filter_ids (cond : PeerImp → bool) (ps : list PeerImp) :
  NoDup (id <$> ps) → NoDup (id <$> List.filter cond ps).
Proof.
  induction ps as [|p ps IH]; simpl; intros ND; [done|].
  apply NoDup_cons in ND as [Hp ND].
  destruct (cond p); simpl; [|by apply IH].
  apply NoDup_cons. split; [|by apply IH].
  intros Hin. apply Hp. apply list_elem_of_fmap in Hin as (q & -> & Hin).
  apply list_elem_of_fmap. exists q. split; [done|].
  apply list_elem_of_In. apply list_elem_of_In in Hin.
  by apply List.filter_In in Hin as [? _].
Qed.

Lemma relay_effects {T} `{!HopsMessage T} (m : T) (uid : uint256) o :
  effects_ (relay m uid o) =
  effects_ o ++
    (if negb (ttl_exceeded m) && negb (relayed uid o)
     then map (fun p => Sent (id p) (encode m))
            (relay_recipients m (HashRouter.peers (HashRouter.entry uid (hashRouter o))) o)
     else []).
Proof.
  rewrite relay_unfold. destruct (ttl_exceeded m); simpl; [by rewrite app_nil_r|].
  unfold relayed. destruct (HashRouter.has_flag _ _); simpl.
  - by rewrite app_nil_r.
  - by rewrite effects_emits.
Qed.

Lemma relay_ids {T} `{!HopsMessage T} (m : T) (uid : uint256) o :
  ids_ (relay m uid o) = ids_ o.
Proof.
  rewrite relay_unfold. destruct (ttl_exceeded m); [done|]. simpl.
  destruct (negb _); [|done]. by rewrite ids_emits.
Qed.

(** Once the router records [uid] as relayed, [relay] sends nothing and
    the record stays. *)
Lemma relay_when_relayed {T} `{!HopsMessage T} (m : T) (uid : uint256) o :
  relayed uid o = true →
  effects_ (relay m uid o) = effects_ o ∧ relayed uid (relay m uid o) = true.
Proof.
  intros R. split.
  - rewrite relay_effects, R, andb_false_r. by rewrite app_nil_r.
  - rewrite relay_unfold. destruct (ttl_exceeded m); [done|].
    pose proof (relayed_after_swapSet uid ∅ o) as Hs. simpl in *.
    destruct (negb _); [apply Hs|apply (Hs [])].
Qed.

(** A call that is not dropped for its hop count leaves [uid] recorded
    as relayed. *)
Lemma relay_records {T} `{!HopsMessage T} (m : T) (uid : uint256) o :
  ttl_exceeded m = false → relayed uid (relay m uid o) = true.
Proof.
  intros E. rewrite relay_unfold, E.
  pose proof (relayed_after_swapSet uid ∅ o) as Hs. simpl in *.
  destruct (negb _); [apply Hs|apply (Hs [])].
Qed.

Lemma relay_recipients_NoDup {T} `{!HopsMessage T} (m : T) skip o :
  ids_wf o → NoDup (id <$> relay_recipients m skip o).
Proof. intros Hwf. apply NoDup_filter_ids. by apply active_peers_NoDup. Qed.

Lemma relayed_after_suppress (uid : uint256) (from : Peer_id) o :
  relayed uid
    (set_hashRouter (HashRouter.addSuppressionPeer uid from (hashRouter o)).2 o)
  = relayed uid o.
Proof.
  unfold relayed. simpl. unfold HashRouter.entry at 1.
  by rewrite lookup_insert_eq.
Qed.

Lemma steps_effects {T} `{!HopsMessage T} (uid : uint256) (ss : list (Step T)) o :
  ids_wf o →
  ∃ l, effects_ (foldl (step uid) o ss) = effects_ o ++ l
       ∧ (∀ i, (sent_count i l ≤ 1)%nat)
       ∧ (relayed uid o = true → l = []).
Proof.
  revert o. induction ss as [|[from|m] ss IH]; intros o Hwf; simpl.
  - exists []. rewrite app_nil_r. split; [done|]. split; [|done].
    intros i. unfold sent_count. simpl. lia.
  - destruct (IH (set_hashRouter
                    (HashRouter.addSuppressionPeer uid from (hashRouter o)).2 o) Hwf)
      as (l' & El' & Hc' & Hr').
    exists l'. split; [exact El'|]. split; [done|].
    intros R. apply Hr'. by rewrite relayed_after_suppress.
  - assert (ids_wf (relay m uid o)) as Hwf'.
    { unfold ids_wf. rewrite relay_ids. apply Hwf. }
    destruct (IH (relay m uid o) Hwf') as (l' & El' & Hc' & Hr').
    destruct (relayed uid o) eqn:R.
    + destruct (relay_when_relayed m uid o R) as [Ee Rr].
      exists []. rewrite El', Ee, (Hr' Rr). split; [done|]. split; [|done].
      intros i. unfold sent_count. simpl. lia.
    + destruct (ttl_exceeded m) eqn:Et.
      * assert (relay m uid o = o) as Eo by (by rewrite relay_unfold, Et).
        rewrite Eo in *. exists l'. split; [done|]. split; [done|]. intros; done.
      * rewrite (Hr' (relay_records m uid o Et)), app_nil_r in El'.
        rewrite El', relay_effects, Et, R. simpl.
        eexists. split; [done|]. split; [|intros; done].
        intros i. apply sent_count_NoDup. by apply relay_recipients_NoDup.
Qed.

(** C1. A message relayed under a given uid reaches every peer at most
    once.  One call of [relay] queues the shared encoded copy exactly on
    the active peers whose id is outside the skip set swapped in by
    [swapSet(uid, skip, SF_RELAYED)] and which are hop-aware whenever the
    message declares a hop count, and it does so only when [swapSet]
    returned true; when [swapSet] returns false (or the message is dropped
    for its hop count before the router is asked), nothing is sent.  Hence
    no call queues two copies on one peer, and neither does any run in
    which the content arrives again and again, from whatever peers, and
    is handed to [relay] each time. *)
Theorem relay_at_most_once {T} `{!HopsMessage T} (uid : uint256) o :
  ids_wf o →
  (∀ m : T,
     let '(newly, skip, _) :=
       HashRouter.swapSet uid ∅ HashRouter.SF_RELAYED (hashRouter o) in
     new_effects o (relay m uid o) =
       if negb (ttl_exceeded m) && newly
       then map (fun p => Sent (id p) (encode m)) (relay_recipients m skip o)
       else [])
  ∧ (∀ (m : T) (i : Peer_id),
       (sent_count i (new_effects o (relay m uid o)) ≤ 1)%nat)
  ∧ (∀ (ss : list (Step T)) (i : Peer_id),
       (sent_count i (new_effects o (foldl (step uid) o ss)) ≤ 1)%nat).
Proof.
  intros Hwf. split; [|split].
  - intros m. simpl. apply new_effects_app. apply relay_effects.
  - intros m i. destruct (steps_effects uid [Relay m] o Hwf) as (l & El & Hc & _).
    simpl in El. by rewrite (new_effects_app _ _ _ El).
  - intros ss i. destruct (steps_effects uid ss o Hwf) as (l & El & Hc & _).
    by rewrite (new_effects_app _ _ _ El).
Qed.

(** C2. A message whose hop count has reached [maxTTL] is not relayed:
    [relay] returns with the whole state as it was, so no peer is sent
    the message and the hash router keeps its entry for the uid
    untouched. *)
Theorem relay_ttl_drop {T} `{!HopsMessage T} (m : T) (uid : uint256) o :
  has_hops m = true → maxTTL ≤ hops m →
  relay m uid o = o
  ∧ new_effects o (relay m uid o) = []
  ∧ hashRouter (relay m uid o) !! uid = hashRouter o !! uid.
Proof.
  intros Hh Hle.
  assert (relay m uid o = o) as E.
  { unfold relay. rewrite Hh. simpl.
    by destruct (N.leb_spec maxTTL (hops m)); [|lia]. }
  rewrite E. split; [done|]. split; [apply new_effects_refl|done].
Qed.

(** ** [send] and the [expire] setting *)

Lemma send_unfold {T} `{!HopsMessage T} (m : T) o :
  send m o =
  let m' := if expire (setup_ o) then set_hops 0 m else m in
  (m', emits (map (fun p => Sent (id p) (encode m'))
                (List.filter (fun p => negb (has_hops m') || hopsAware p)
                   (active_peers o))) o).
Proof. unfold send. simpl. f_equal. apply for_each_send. Qed.

Lemma sent_messages_map (sm : Message) (ps : list PeerImp) (x : Message) :
  x ∈ sent_messages (map (fun p => Sent (id p) sm) ps) → x = sm.
Proof.
  unfold sent_messages. intros Hin.
  apply list_elem_of_omap in Hin as (e & He & Hx).
  apply list_elem_of_In, List.in_map_iff in He as (p & <- & _).
  by injection Hx as <-.
Qed.

(** C3 (as amended). With [expire] set, [send] writes a hop count of zero
    into the message before encoding it, so every copy that leaves the
    node through [send] carries [hops = 0]; [relay] does not touch the
    hop count, and every copy that leaves through [relay] carries the hop
    count the message had when [relay] was called. *)
Theorem expire_zeroes_hops_on_send {T} `{!HopsMessage T} (m : T) (uid : uint256) o :
  expire (setup_ o) = true →
  (send m o).1 = set_hops 0 m
  ∧ hops_zeroed (new_effects o (send m o).2)
  ∧ (∀ sm, sm ∈ sent_messages (new_effects o (relay m uid o)) →
           message_hops sm = if has_hops m then Some (hops m) else None).
Proof.
  intros He. rewrite send_unfold, He. simpl. split; [done|]. split.
  - intros sm. rewrite new_effects_emits. intros Hin.
    apply sent_messages_map in Hin as ->.
    by rewrite message_hops_encode, has_hops_set, hops_set.
  - intros sm. rewrite (new_effects_app _ _ _ (relay_effects m uid o)).
    destruct (_ && _); [|by intros ?%elem_of_nil].
    intros Hin. apply sent_messages_map in Hin as ->.
    apply message_hops_encode.
Qed.

(** ** [onHandoff] *)

(** C9. A connection that asks neither for [/crawl] nor for a peer
    upgrade is passed through: the handoff is not moved and carries no
    response, and the overlay is as before except for the id counter.  No
    consumer is charged, no slot is created, and [m_peers], [ids_] and
    [list_] are as they were. *)
Theorem onHandoff_not_ours (bundle : ssl_bundle) (request : http_request_type)
  (remote_endpoint : endpoint_type) o :
  req_url request ≠ "/crawl" →
  (is_upgrade request = false
   ∨ parse_ProtocolVersions (header "Upgrade" (req_headers request)) = []) →
  let h := (onHandoff bundle request remote_endpoint o).1 in
  let o' := (onHandoff bundle request remote_endpoint o).2 in
  moved h = false ∧ response h = None
  ∧ o' = set_next_id_ ((next_id_ o + 1) mod 2 ^ 32) o
  ∧ m_resourceManager o' = m_resourceManager o
  ∧ m_peerFinder o' = m_peerFinder o
  ∧ m_peers o' = m_peers o ∧ ids_ o' = ids_ o ∧ list_ o' = list_ o.
Proof.
  intros Hurl Hup.
  assert (isPeerUpgrade request = false) as Hno.
  { unfold isPeerUpgrade. destruct Hup as [-> | ->]; [done|].
    by destruct (is_upgrade request). }
  unfold onHandoff, processRequest.
  rewrite (bool_decide_eq_true_2 _ Hurl), Hno. simpl. done.
Qed.

(** C5. When [new_inbound_slot] returns null the connection is dropped
    without a response: the handoff is not moved and has no response
    attached, and no session results: [m_peers], [ids_] and [list_] are
    as before, no peer was started, and the finder is in the state in
    which its refusal left it. *)
Theorem onHandoff_self_connect (bundle : ssl_bundle) (request : http_request_type)
  (remote_endpoint local : endpoint_type) o consumer rm1 rm2 pf1 :
  req_url request ≠ "/crawl" →
  isPeerUpgrade request = true →
  local_endpoint bundle = Some local →
  Resource.newInboundEndpoint remote_endpoint (m_resourceManager o) = (consumer, rm1) →
  Resource.disconnect consumer rm1 = (false, rm2) →
  PeerFinder.new_inbound_slot local remote_endpoint (m_peerFinder o) = (None, pf1) →
  let h := (onHandoff bundle request remote_endpoint o).1 in
  let o' := (onHandoff bundle request remote_endpoint o).2 in
  moved h = false ∧ response h = None
  ∧ m_peers o' = m_peers o ∧ ids_ o' = ids_ o ∧ list_ o' = list_ o
  ∧ new_effects o o' = []
  ∧ m_peerFinder o' = pf1.
Proof.
  intros Hurl Hup Hle Hnew Hdis Hslot.
  unfold onHandoff, processRequest.
  rewrite (bool_decide_eq_true_2 _ Hurl), Hup, Hle. simpl.
  rewrite Hnew, Hdis. simpl. rewrite Hslot. simpl.
  repeat split; try done. unfold new_effects. simpl. apply drop_all.
Qed.

Lemma peer_ips_array (eps : list PeerFinder.Endpoint) (acc : list Json.Value) :
  foldl (fun ips e =>
           Json.append (Json.stringValue (endpoint_to_string (PeerFinder.ep_address e))) ips)
    (Json.arrayValue acc) eps
  = Json.arrayValue
      (acc ++ map (fun e => Json.stringValue (endpoint_to_string (PeerFinder.ep_address e))) eps).
Proof.
  revert acc. induction eps as [|e eps IH]; intros acc; simpl.
  - by rewrite app_nil_r.
  - rewrite IH. by rewrite <- app_assoc.
Qed.

Lemma peer_ips_object (ips : Json.Value) :
  Json.set "peer-ips" ips
    (Json.set "peer-ips" (Json.arrayValue []) (Json.objectValue []))
  = Json.objectValue [("peer-ips", ips)].
Proof. reflexivity. Qed.

Lemma makeRedirectResponse_unfold (s : PeerFinder.Slot) (request : http_request_type)
  (remote_address : address_type) o eps0 pf1 eps pf2 :
  PeerFinder.redirect s (m_peerFinder o) = (eps0, pf1) →
  PeerFinder.redirect s pf1 = (eps, pf2) →
  makeRedirectResponse s request remote_address o =
  (make_JsonWriter
     {| m_request := false; m_status := 503; m_reason := "Service Unavailable";
        m_version := (Z.quot (req_version request) 10, Z.rem (req_version request) 10);
        m_headers := [("Remote-Address", address_to_string remote_address)] |}
     (peer_ips eps),
   set_m_peerFinder pf2 o).
Proof.
  intros E0 E1. unfold makeRedirectResponse. rewrite E0.
  cbn [m_peerFinder set_m_peerFinder]. rewrite E1.
  rewrite peer_ips_array, peer_ips_object. destruct o; reflexivity.
Qed.

(** C4. An upgrade request refused because [activate] does not answer
    [success] releases its slot through [on_closed] and is answered with
    status 503; the JSON body is [{"peer-ips": [...]}] with one
    ["<ip>:<port>"] string for each endpoint that [redirect(slot)]
    returned, in that order, and the response carries a [Remote-Address]
    header holding the client's address.  The socket is not taken
    ([moved] is false). *)
Theorem onHandoff_redirect (bundle : ssl_bundle) (request : http_request_type)
  (remote_endpoint local : endpoint_type) o consumer rm1 rm2 s pf1 token
  hello shared publicKey result pf2 eps0 pf3 eps pf4 :
  req_url request ≠ "/crawl" →
  isPeerUpgrade request = true →
  local_endpoint bundle = Some local →
  Resource.newInboundEndpoint remote_endpoint (m_resourceManager o) = (consumer, rm1) →
  Resource.disconnect consumer rm1 = (false, rm2) →
  PeerFinder.new_inbound_slot local remote_endpoint (m_peerFinder o) = (Some s, pf1) →
  List.find (fun t => ci_equal t "peer")
    (split_commas (header "Connect-As" (req_headers request))) = Some token →
  parseHello true (req_headers request) = Some hello →
  makeSharedValue (native_handle bundle) = Some shared →
  verifyHello hello shared (public_ip (setup_ o)) remote_endpoint = Some publicKey →
  PeerFinder.activate s publicKey
    (bool_decide (is_Some (cluster_member publicKey))) pf1 = (result, pf2) →
  result ≠ PeerFinder.success →
  PeerFinder.redirect s (PeerFinder.on_closed s pf2) = (eps0, pf3) →
  PeerFinder.redirect s pf3 = (eps, pf4) →
  let h := (onHandoff bundle request remote_endpoint o).1 in
  let o' := (onHandoff bundle request remote_endpoint o).2 in
  moved h = false
  ∧ m_peerFinder o' = pf4
  ∧ ∃ w, response h = Some w
         ∧ m_status (w_message w) = 503%Z
         ∧ w_json w = peer_ips eps
         ∧ m_headers (w_message w)
           = [("Remote-Address", address_to_string (address remote_endpoint))].
Proof.
  intros Hurl Hup Hle Hnew Hdis Hslot Hfind Hhello Hshared Hverify Hact Hres Hr0 Hr1.
  unfold onHandoff, processRequest.
  rewrite (bool_decide_eq_true_2 _ Hurl), Hup, Hle. simpl.
  rewrite Hnew, Hdis. simpl. rewrite Hslot. simpl.
  rewrite Hfind. simpl. rewrite Hhello, Hshared, Hverify, Hact. simpl.
  rewrite (bool_decide_eq_true_2 _ Hres).
  erewrite makeRedirectResponse_unfold; [|exact Hr0|exact Hr1].
  simpl. split; [done|]. split; [done|]. eexists. split; [done|].
  simpl. repeat split; reflexivity.
Qed.

(** ** [stop] *)

Lemma visit_stop (cs : list (ChildPtr * weak_ptr ChildPtr)) o :
  foldl (fun o kv =>
           match lock kv.2 with
           | Some child => emit (Stopped child) o
           | None => o
           end) o cs
  = emits (map Stopped (omap (fun kv => lock kv.2) cs)) o.
Proof.
  revert o. induction cs as [|[c w] cs IH]; intros o; simpl; [done|].
  rewrite IH. destruct w; done.
Qed.

Lemma stop_unfold o :
  stop o = if work_ o
           then emits (map Stopped (reachable_children o)) (set_work_ false o)
           else o.
Proof. unfold stop. destruct (work_ o); [|done]. apply visit_stop. Qed.

Lemma work_emits l o : work_ (emits l o) = work_ o.
Proof. revert o. induction l as [|e l IH]; intros o; simpl; [done|]. by rewrite IH. Qed.

Lemma list_emits l o : list_ (emits l o) = list_ o.
Proof. revert o. induction l as [|e l IH]; intros o; simpl; [done|]. by rewrite IH. Qed.

Lemma m_peers_emits l o : m_peers (emits l o) = m_peers o.
Proof. revert o. induction l as [|e l IH]; intros o; simpl; [done|]. by rewrite IH. Qed.

(** C10. [stop] is idempotent.  A call that finds the work guard engaged
    releases it and calls [stop()] once on every child that [list_] still
    reaches, in the order of [list_]: the log grows by exactly these
    calls and nothing else of the state changes.  A call that finds the
    guard released changes nothing.  After any call the guard is
    released, so a further call leaves the state as it is and adds no
    [stop()] call to the log. *)
Theorem stop_idempotent o :
  stop o = (if work_ o
            then emits (map Stopped (reachable_children o)) (set_work_ false o)
            else o)
  ∧ (work_ o = true →
     effects_ (stop o) = effects_ o ++ map Stopped (reachable_children o)
     ∧ new_effects o (stop o) = map Stopped (reachable_children o)
     ∧ list_ (stop o) = list_ o ∧ ids_ (stop o) = ids_ o
     ∧ m_peers (stop o) = m_peers o ∧ hashRouter (stop o) = hashRouter o)
  ∧ (work_ o = false → stop o = o ∧ new_effects o (stop o) = [])
  ∧ work_ (stop o) = false
  ∧ stop (stop o) = stop o
  ∧ effects_ (stop (stop o)) = effects_ (stop o)
  ∧ new_effects (stop o) (stop (stop o)) = [].
Proof.
  assert (work_ (stop o) = false) as Hw.
  { rewrite stop_unfold. destruct (work_ o) eqn:E; [|done]. by rewrite work_emits. }
  assert (stop (stop o) = stop o) as Hi.
  { rewrite (stop_unfold (stop o)). by rewrite Hw. }
  split; [apply stop_unfold|]. split; [|split].
  - intros Hon. rewrite stop_unfold, Hon.
    assert (effects_ (emits (map Stopped (reachable_children o)) (set_work_ false o))
            = effects_ o ++ map Stopped (reachable_children o)) as He
      by (by rewrite effects_emits).
    split; [exact He|]. split; [by apply new_effects_app|].
    by rewrite list_emits, ids_emits, m_peers_emits, hashRouter_emits.
  - intros Hoff. rewrite stop_unfold, Hoff. split; [done|]. apply new_effects_refl.
  - split; [done|]. split; [done|]. rewrite Hi. split; [done|].
    apply new_effects_refl.
Qed.

(** ** [onManifests] *)

Lemma foreach_send_if_not (sm : Message) (peers : gset Peer_id) o :
  foreach (send_if_not sm (peer_in_set peers)) o
  = emits (map (fun p => Sent (id p) sm)
             (List.filter (fun p => negb (peer_in_set peers p)) (active_peers o))) o.
Proof.
  unfold foreach, for_each. rewrite <- visit_send.
  apply foldl_pointwise. intros acc p. unfold send_if_not.
  by destruct (peer_in_set peers p).
Qed.

(** The loop of [onManifests] taken apart at one list entry. *)
Lemma onManifests_split (m : TMManifests) (from : PeerImp) o pre s post :
  mf_list m = pre ++ s :: post →
  onManifests m from o =
  foldl (fun o s => onManifests_body (mf_history m) from s o)
    (onManifests_body (mf_history m) from s
       (foldl (fun o s => onManifests_body (mf_history m) from s o) o pre))
    post.
Proof. intros E. unfold onManifests. rewrite E. by rewrite foldl_app. Qed.

(** C6. A well-formed manifest that passes the hash router's suppression
    is applied to the cache, and then, by the disposition: [accepted]
    publishes it to the observers, inserts its raw bytes into the
    [ValidatorManifests] table and, in a set not marked history,
    announces it to every active peer outside the skip set that
    [swapSet] hands back; [untrusted] publishes it and does nothing else;
    any other disposition publishes, stores and announces nothing.  In a
    set marked history nothing is announced to any peer, whatever the
    disposition. *)
Theorem onManifests_disposition (m : TMManifests) (from : PeerImp) o
  (pre post : list string) (s : string) (mo : Manifest) r1 result c1 :
  mf_list m = pre ++ s :: post →
  let step := fun o s => onManifests_body (mf_history m) from s o in
  let o1 := foldl step o pre in
  make_Manifest s = Some mo →
  HashRouter.addSuppressionPeer (mhash mo) (id from) (hashRouter o1) = (true, r1) →
  applyManifest mo (manifestCache_ o1) = (result, c1) →
  let o2 := step o1 s in
  let '(_, skip, _) :=
    HashRouter.swapSet (mhash mo) ∅ HashRouter.SF_RELAYED r1 in
  onManifests m from o = foldl step o2 post
  ∧ manifestCache_ o2 = c1
  ∧ new_effects o1 o2 =
      (if bool_decide (result = accepted ∨ result = untrusted)
       then [PubManifest (make_Manifest (serialized mo))] else [])
      ++ (if bool_decide (result = accepted)
          then [InsertValidatorManifest (serialized mo)] else [])
      ++ (if negb (mf_history m) && bool_decide (result = accepted)
          then map (fun p =>
                      Sent (id p)
                        (make_Message
                           (PB_Manifests {| mf_list := [s]; mf_history := false |})
                           mtMANIFESTS))
                 (List.filter (fun p => negb (bool_decide (id p ∈ skip)))
                    (active_peers o1))
          else []).
Proof.
  intros E step o1 Hmk Hsup Happ o2. simpl.
  split; [by apply onManifests_split|].
  subst o2 step. cbv beta. unfold onManifests_body.
  rewrite Hmk, Hsup. cbn [negb hashRouter set_hashRouter manifestCache_].
  rewrite Happ.
  destruct (mf_history m); destruct result; simpl;
    rewrite ?foreach_send_if_not, ?manifestCache_emits; simpl;
    (split; [reflexivity|]); apply new_effects_app;
    rewrite ?effects_emits; simpl; rewrite <- ?app_assoc, ?app_nil_r; reflexivity.
Qed.

(** ** [selectPeers] *)

#[local] Instance descending_trans : Transitive descending.
Proof. unfold descending. intros a b c ? ?. lia. Qed.

#[local] Instance descending_total : Total descending.
Proof. unfold descending. intros a b. lia. Qed.

Lemma not_before_descending (a b : item) :
  item_before b a = false ↔ descending a b.
Proof.
  unfold item_before, descending. rewrite bool_decide_eq_false. lia.
Qed.

Lemma StronglySorted_weaken {A} (R1 R2 : relation A) (xs : list A) :
  (∀ a b, R1 a b → R2 a b) → StronglySorted R1 xs → StronglySorted R2 xs.
Proof.
  intros Hi. induction 1 as [|x xs Hs IH Hall]; constructor; [done|].
  eapply Forall_impl; [exact Hall|]. intros b. apply Hi.
Qed.

Lemma merge_sort_contract (pre : list item → list item) :
  (∀ v, pre v ≡ₚ v) →
  std_sort_contract (fun v => merge_sort descending (pre v)).
Proof.
  intros Hpre v. split.
  - rewrite merge_sort_Permutation. apply Hpre.
  - eapply StronglySorted_weaken; [|apply StronglySorted_merge_sort; apply _].
    intros a b. apply not_before_descending.
Qed.

Lemma sort_forward_contract : std_sort_contract sort_forward.
Proof. apply (merge_sort_contract (fun v => v)). done. Qed.

Lemma sort_backward_contract : std_sort_contract sort_backward.
Proof. apply (merge_sort_contract reverse). intros v. apply reverse_Permutation. Qed.

Lemma scored_map (score : PeerImp → bool) o :
  scored score o = map (fun e => (getScore e (score e), e)) (active_peers o).
Proof.
  unfold scored.
  assert (∀ ps acc,
    foldl (fun v e => v ++ [(getScore e (score e), e)]) acc ps
    = acc ++ map (fun e => (getScore e (score e), e)) ps) as Hf.
  { induction ps as [|p ps IH]; intros acc; simpl.
    - by rewrite app_nil_r.
    - rewrite IH. by rewrite <- app_assoc. }
  apply (Hf _ []).
Qed.

(** The insertion loop, started below the limit. *)
Lemma selectPeers_loop_spec (v : list item) (limit accepted : N) (set : PeerSet) :
  accepted < limit → limit < 2 ^ 64 →
  let n := (selectPeers_loop v limit accepted set).1 in
  let set' := (selectPeers_loop v limit accepted set).2 in
  (∃ considered rest, v = considered ++ rest
     ∧ set' = set ∪ item_ids considered
     ∧ (rest = [] ∨ n = limit))
  ∧ n = accepted + N.of_nat (size (set' ∖ set))
  ∧ n ≤ limit.
Proof.
  revert accepted set. induction v as [|e v IH]; intros accepted set Hlt Hmax; simpl.
  - split; [|split].
    + exists [], []. unfold item_ids. simpl. split; [done|]. split; [set_solver|by left].
    + replace (set ∖ set) with (∅ : PeerSet) by set_solver.
      rewrite size_empty. lia.
    + lia.
  - case_bool_decide as Hin; simpl.
    + assert ((accepted + 1) mod 2 ^ 64 = accepted + 1) as -> by (apply N.mod_small; lia).
      destruct (N.leb_spec limit (accepted + 1)) as [Hle|Hgt]; simpl.
      * split; [|split].
        -- exists [e], v. unfold item_ids. simpl. split; [done|].
           split; [set_solver|right; lia].
        -- replace (({[id e.2]} ∪ set) ∖ set) with ({[id e.2]} : PeerSet) by set_solver.
           rewrite size_singleton. lia.
        -- lia.
      * destruct (IH (accepted + 1) ({[id e.2]} ∪ set) Hgt Hmax)
          as ((considered & rest & Ev & Es & Hr) & Hn & Hl).
        split; [|split].
        -- exists (e :: considered), rest. split; [by rewrite Ev|].
           split; [|done]. rewrite Es. unfold item_ids. simpl. set_solver.
        -- rewrite Hn.
           set (set' := (selectPeers_loop v limit (accepted + 1) ({[id e.2]} ∪ set)).2) in *.
           assert (set' ∖ set = {[id e.2]} ∪ set' ∖ ({[id e.2]} ∪ set)) as ->.
           { apply set_eq. intros x. rewrite Es.
             destruct (decide (x = id e.2)) as [->|]; set_solver. }
           assert ({[id e.2]} ## set' ∖ ({[id e.2]} ∪ set)) as Hd by set_solver.
           rewrite (size_union (C:=gset N) _ _ Hd), size_singleton. lia.
        -- done.
    + assert ({[id e.2]} ∪ set = set) as -> by set_solver.
      destruct (IH accepted set Hlt Hmax) as ((considered & rest & Ev & Es & Hr) & Hn & Hl).
      split; [|split]; [|done|done].
      exists (e :: considered), rest. split; [by rewrite Ev|]. split; [|done].
      rewrite Es. unfold item_ids. simpl. set_solver.
Qed.

(** X29. For a limit above zero (and within [std::size_t]),
    [selectPeers] scores every active peer exactly once, considers the
    peers in descending order of score, inserts them into the set until
    [limit] insertions have been accepted or the peers are exhausted, and
    returns the number of accepted insertions, which never exceeds the
    limit.  Nothing is said of the order among peers of equal score: the
    statement holds for every sorting procedure that meets the contract
    of [std::sort], hence for the one the program runs. *)
Theorem selectPeers_spec (sort : list item → list item) (set : PeerSet)
  (limit : N) (score : PeerImp → bool) o :
  std_sort_contract sort → 0 < limit → limit < 2 ^ 64 →
  let v := scored score o in
  let n := (selectPeers sort set limit score o).1 in
  let set' := (selectPeers sort set limit score o).2 in
  v = map (fun e => (getScore e (score e), e)) (active_peers o)
  ∧ sort v ≡ₚ v
  ∧ StronglySorted descending (sort v)
  ∧ (∃ considered rest, sort v = considered ++ rest
       ∧ set' = set ∪ item_ids considered
       ∧ (rest = [] ∨ n = limit))
  ∧ n = N.of_nat (size (set' ∖ set))
  ∧ n ≤ limit.
Proof.
  intros Hsort Hpos Hmax. simpl.
  destruct (Hsort (scored score o)) as [Hperm Hsorted].
  split; [apply scored_map|]. split; [done|]. split.
  { eapply StronglySorted_weaken; [|exact Hsorted].
    intros a b. apply not_before_descending. }
  unfold selectPeers.
  destruct (selectPeers_loop_spec (sort (scored score o)) limit 0 set Hpos Hmax)
    as (Hc & Hn & Hl).
  split; [done|]. split; [|done]. by rewrite Hn, N.add_0_l.
Qed.

Lemma ids_wfb_sound o : ids_wfb o = true → ids_wf o.
Proof.
  unfold ids_wfb, ids_wf. intros Hb k p Hk.
  rewrite forallb_forall in Hb.
  apply elem_of_map_to_list, list_elem_of_In in Hk.
  specialize (Hb _ Hk). simpl in Hb. by apply N.eqb_eq in Hb.
Qed.

End Properties.

(** ** The connect attempt and its watchdog *)

Module ConnectAttemptFacts.
Import ConnectAttempt.

(** The operations a handler adds to the log. *)
Lemma ops_do op a : ops (do op a) = ops a ++ [op].
Proof. reflexivity. Qed.

Lemma guarded_from_app st l1 l2 :
  guarded_from st (l1 ++ l2)
  = guarded_from st l1 && guarded_from (foldl timer_step st l1) l2.
Proof.
  revert st. induction l1 as [|op l1 IH]; intros st; simpl; [done|].
  rewrite IH. by rewrite andb_assoc.
Qed.

(** [setTimer] followed by a network operation is guarded, provided
    [expires_from_now] succeeds. *)
Lemma setTimer_guards env op a st :
  timer_ok env = true →
  ops a = [] →
  guarded_from st (ops (do op (setTimer env a))) = true.
Proof.
  intros Hok Ha. unfold setTimer. rewrite Hok. simpl. rewrite Ha. simpl.
  destruct (is_network_op op); reflexivity.
Qed.

(** Every handler other than [run] arms the 15 second timer before the
    network operation it starts, as long as the timer can be set. *)
Lemma handlers_guarded env ec n a st :
  timer_ok env = true →
  ops a = [] →
  guarded_from st (ops (onConnect env ec a)) = true
  ∧ guarded_from st (ops (onHandshake env ec a)) = true
  ∧ guarded_from st (ops (onWrite env ec n a)) = true
  ∧ guarded_from st (ops (onRead env ec n a)) = true
  ∧ guarded_from st (ops (onShutdown ec a)) = true.
Proof.
  intros Hok Ha. destruct a as [open buf l]. simpl in Ha. subst l.
  unfold onConnect, onHandshake, onWrite, onRead, onShutdown, processResponse,
    setTimer, cancelTimer, fail, close, do, set_write_buf_.
  rewrite Hok. simpl.
  repeat split;
    repeat (first [ case_bool_decide
                  | match goal with
                    | |- context [if ?b then _ else _] => destruct b eqn:?
                    end ]; simpl; try reflexivity).
Qed.

(** Expiry of the timer on an open attempt closes the socket. *)
Lemma onTimer_fails a :
  is_open a = true →
  is_open (onTimer no_error a) = false
  ∧ ops (onTimer no_error a) = ops a ++ [timer_cancel; socket_close].
Proof.
  intros Ho. unfold onTimer, fail, close. rewrite Ho. simpl.
  by rewrite <- app_assoc.
Qed.

(** C8. [run] starts the connect with no timer armed: the log of a fresh
    attempt after [run] holds the single operation [async_connect], and it
    is not guarded by the 15 second watchdog. *)
Theorem run_unguarded :
  ops (run create) = [async_connect]
  ∧ guarded (run create) = false.
Proof. split; reflexivity. Qed.

End ConnectAttemptFacts.

(** * Further properties *)

Section MoreProperties.

Context `{!PeerFinder.Manager, !Resource.Manager, !HttpLib, !Handshake,
          !ManifestLib, !Tuning}.
Context `{!PeerImp_methods}.
Context `{!Outbound.Finder, !Outbound.Resources, !ConfigLib, !ResponseLib}.

Implicit Types (o : OverlayImpl) (p : PeerImp) (l : list Effect).

(** ** Frames *)

Lemma tables_emits l o : tables (emits l o) = tables o.
Proof.
  revert o. induction l as [|e l IH]; intros o; simpl; [done|]. by rewrite IH.
Qed.

Lemma settings_emits l o : settings (emits l o) = settings o.
Proof.
  revert o. induction l as [|e l IH]; intros o; simpl; [done|]. by rewrite IH.
Qed.

Lemma finder_emits l o : m_peerFinder (emits l o) = m_peerFinder o.
Proof.
  revert o. induction l as [|e l IH]; intros o; simpl; [done|]. by rewrite IH.
Qed.

Lemma resources_emits l o : m_resourceManager (emits l o) = m_resourceManager o.
Proof.
  revert o. induction l as [|e l IH]; intros o; simpl; [done|]. by rewrite IH.
Qed.

Lemma tables_wf_same o o' : tables o' = tables o → tables_wf o → tables_wf o'.
Proof.
  unfold tables, tables_wf, ids_wf. intros E. injection E as -> -> ->. done.
Qed.

Lemma new_effects_trans o1 o2 o3 l1 l2 :
  effects_ o2 = effects_ o1 ++ l1 → effects_ o3 = effects_ o2 ++ l2 →
  new_effects o1 o3 = l1 ++ l2.
Proof.
  intros E1 E2. apply new_effects_app. by rewrite E2, E1, <- app_assoc.
Qed.

(** ** [emplace] and [erase] on the tables *)

Lemma emplace_fresh {K V} `{EqDecision K} (k : K) (v : V) (m : list (K * V)) :
  k ∉ m.*1 → emplace k v m = m ++ [(k, v)].
Proof. intros Hk. unfold emplace. by rewrite decide_False. Qed.

Lemma emplace_taken {K V} `{EqDecision K} (k : K) (v : V) (m : list (K * V)) :
  k ∈ m.*1 → emplace k v m = m.
Proof. intros Hk. unfold emplace. by rewrite decide_True. Qed.

Lemma emplace_NoDup {K V} `{EqDecision K} (k : K) (v : V) (m : list (K * V)) :
  NoDup m.*1 → NoDup (emplace k v m).*1.
Proof.
  intros ND. unfold emplace. destruct (decide (k ∈ m.*1)) as [|Hk]; [done|].
  rewrite fmap_app. simpl. apply NoDup_app. split; [done|].
  split; [|apply NoDup_singleton].
  intros x Hx ->%list_elem_of_singleton. done.
Qed.

Lemma erase_NoDup {K V} (keep : K * V → bool) (m : list (K * V)) :
  NoDup m.*1 → NoDup (List.filter keep m).*1.
Proof.
  induction m as [|kv m IH]; simpl; intros ND; [done|].
  apply NoDup_cons in ND as [Hk ND]. destruct (keep kv); simpl; [|by apply IH].
  apply NoDup_cons. split; [|by apply IH].
  intros Hin. apply Hk. apply list_elem_of_fmap in Hin as (x & -> & Hin).
  apply list_elem_of_fmap. exists x. split; [done|].
  apply list_elem_of_In. apply list_elem_of_In in Hin.
  by apply List.filter_In in Hin as [? _].
Qed.

Lemma ids_emplace_wf (peer : PeerImp) o :
  ids_wf o →
  ∀ k p, match ids_ o !! id peer with
         | Some _ => ids_ o
         | None => <[id peer := Some peer]> (ids_ o)
         end !! k = Some (Some p) → id p = k.
Proof.
  intros Hwf k p. destruct (ids_ o !! id peer) eqn:E; [apply Hwf|].
  destruct (decide (id peer = k)) as [<-|Hne].
  - rewrite lookup_insert_eq. by intros [= <-].
  - rewrite lookup_insert_ne by done. apply Hwf.
Qed.

(** ** The paths of [onHandoff] *)

Lemma makeRedirectResponse_eq (s : PeerFinder.Slot) (request : http_request_type)
  (remote_address : address_type) o :
  makeRedirectResponse s request remote_address o =
  (make_JsonWriter
     {| m_request := false; m_status := 503; m_reason := "Service Unavailable";
        m_version := (Z.quot (req_version request) 10, Z.rem (req_version request) 10);
        m_headers := [("Remote-Address", address_to_string remote_address)] |}
     (peer_ips
        (PeerFinder.redirect s (PeerFinder.redirect s (m_peerFinder o)).2).1),
   set_m_peerFinder
     (PeerFinder.redirect s (PeerFinder.redirect s (m_peerFinder o)).2).2 o).
Proof.
  destruct (PeerFinder.redirect s (m_peerFinder o)) as [eps0 pf1] eqn:E0.
  destruct (PeerFinder.redirect s pf1) as [eps pf2] eqn:E1.
  rewrite (makeRedirectResponse_unfold s request remote_address o _ _ _ _ E0 E1).
  simpl. by rewrite E1.
Qed.

(** Every path through [onHandoff], one goal per [return]. *)
Ltac handoff_paths :=
  unfold onHandoff, processRequest;
  destruct (bool_decide (req_url _ ≠ "/crawl")) eqn:?;
  cbn [fst snd moved response keep_alive Handoff_default];
  repeat (match goal with
          | |- context [let '(_, _) := ?e in _] => destruct e eqn:?
          | |- context [match ?e with _ => _ end] => destruct e eqn:?
          end;
          try match goal with
              | E : makeRedirectResponse _ _ _ _ = _ |- _ =>
                  rewrite makeRedirectResponse_eq in E; injection E as <- <-
              end;
          cbn [fst snd moved response keep_alive with_moved Handoff_default
                    next_id_ ids_ m_peers list_ hashRouter manifestCache_ work_
                    setup_ effects_ m_peerFinder m_resourceManager
                    set_next_id_ set_m_peerFinder set_m_resourceManager
                    set_m_peers set_list_ emit w_message w_json m_status
                    negb]).

Lemma onHandoff_tables (bundle : ssl_bundle) (request : http_request_type)
  (remote_endpoint : endpoint_type) o :
  tables_wf o → tables_wf (onHandoff bundle request remote_endpoint o).2.
Proof.
  unfold tables_wf, ids_wf. intros (Hi & Hp & Hl).
  handoff_paths; repeat split; try done; by apply emplace_NoDup.
Qed.

(** X1. Whatever the request and whatever the collaborators answer,
    [onHandoff] consumes exactly one id (modulo 2^32), leaves [ids_], the
    hash router, the manifest cache, the work guard and the setup alone,
    and starts at most one child: the peer session created with the id
    the call consumed. *)
Theorem onHandoff_frame (bundle : ssl_bundle) (request : http_request_type)
  (remote_endpoint : endpoint_type) o :
  let o' := (onHandoff bundle request remote_endpoint o).2 in
  next_id_ o' = (next_id_ o + 1) mod 2 ^ 32
  ∧ ids_ o' = ids_ o
  ∧ hashRouter o' = hashRouter o
  ∧ manifestCache_ o' = manifestCache_ o
  ∧ work_ o' = work_ o
  ∧ setup_ o' = setup_ o
  ∧ (new_effects o o' = [] ∨ new_effects o o' = [Run (PeerImpPtr (next_id_ o))]).
Proof.
  cbv zeta. handoff_paths; repeat split; try done;
    unfold new_effects; simpl;
    first [ left; apply drop_all
          | right; by rewrite drop_app_length ].
Qed.

(** X2. [onHandoff] never both takes the socket and answers: a handoff
    that carries a response has [moved = false], its status is 200 (the
    crawl report) or 503 (a redirect), and no peer session was started;
    a handoff with [moved = true] carries no response. *)
Theorem onHandoff_response_excludes_moved (bundle : ssl_bundle)
  (request : http_request_type) (remote_endpoint : endpoint_type) o :
  let h := (onHandoff bundle request remote_endpoint o).1 in
  let o' := (onHandoff bundle request remote_endpoint o).2 in
  (∀ w, response h = Some w →
        moved h = false
        ∧ (m_status (w_message w) = 200%Z ∨ m_status (w_message w) = 503%Z)
        ∧ new_effects o o' = [])
  ∧ (moved h = true → response h = None).
Proof.
  cbv zeta. handoff_paths; (split; [intros w Hw|intros Hm]); try done;
    injection Hw as <-; (split; [done|]);
    (split; [cbn; tauto|]); unfold new_effects; simpl; apply drop_all.
Qed.

Lemma getActivePeers_eq o : getActivePeers o = active_peers o.
Proof.
  unfold getActivePeers.
  assert (∀ (ps acc : list PeerImp),
            foldl (fun ret sp => ret ++ [sp]) acc ps = acc ++ ps) as Hf.
  { induction ps as [|q ps IH]; intros acc; simpl.
    - by rewrite app_nil_r.
    - rewrite IH. by rewrite <- app_assoc. }
  apply (Hf _ []).
Qed.

Lemma crawl_eq o :
  crawl o
  = Json.objectValue
      [("active", Json.arrayValue (map crawl_entry (active_peers o)))].
Proof.
  unfold crawl.
  assert (∀ ps acc,
    foldl (fun av sp => Json.append (crawl_entry sp) av) (Json.arrayValue acc) ps
    = Json.arrayValue (acc ++ map crawl_entry ps)) as Hf.
  { induction ps as [|q ps IH]; intros acc; simpl.
    - by rewrite app_nil_r.
    - rewrite IH. by rewrite <- app_assoc. }
  rewrite Hf. reflexivity.
Qed.

(** X3. An upgrade that passes every check hands the socket over
    ([moved = true], no response) and starts a peer session created with
    the id the call consumed: the session is filed under its slot in
    [m_peers] and as a child in [list_], but not in [ids_], so the active
    peers are as before until the session calls [activate], after which
    the session is found under its id (when the id is free). *)
Theorem onHandoff_accepts (bundle : ssl_bundle) (request : http_request_type)
  (remote_endpoint local : endpoint_type) o consumer rm1 rm2 s pf1 token
  hello shared publicKey pf2 :
  req_url request ≠ "/crawl" →
  isPeerUpgrade request = true →
  local_endpoint bundle = Some local →
  Resource.newInboundEndpoint remote_endpoint (m_resourceManager o) = (consumer, rm1) →
  Resource.disconnect consumer rm1 = (false, rm2) →
  PeerFinder.new_inbound_slot local remote_endpoint (m_peerFinder o) = (Some s, pf1) →
  List.find (fun t => ci_equal t "peer")
    (split_commas (header "Connect-As" (req_headers request))) = Some token →
  parseHello true (req_headers request) = Some hello →
  makeSharedValue (native_handle bundle) = Some shared →
  verifyHello hello shared (public_ip (setup_ o)) remote_endpoint = Some publicKey →
  PeerFinder.activate s publicKey
    (bool_decide (is_Some (cluster_member publicKey))) pf1
  = (PeerFinder.success, pf2) →
  let peer := {| id := next_id_ o; getRemoteAddress := remote_endpoint;
                 slot := s; hello := hello; getNodePublic := publicKey;
                 usage := consumer |} in
  let h := (onHandoff bundle request remote_endpoint o).1 in
  let o' := (onHandoff bundle request remote_endpoint o).2 in
  moved h = true ∧ response h = None
  ∧ m_peers o' = emplace s (Some peer) (m_peers o)
  ∧ list_ o' = emplace (PeerImpPtr (id peer)) (Some (PeerImpPtr (id peer))) (list_ o)
  ∧ m_peerFinder o' = pf2
  ∧ new_effects o o' = [Run (PeerImpPtr (id peer))]
  ∧ getActivePeers o' = getActivePeers o
  ∧ (ids_ o !! id peer = None →
     findPeerByShortID (id peer) (activate peer o') = Some peer).
Proof.
  intros Hurl Hup Hle Hnew Hdis Hslot Hfind Hhello Hshared Hverify Hact.
  cbv zeta. unfold onHandoff, processRequest.
  rewrite (bool_decide_eq_true_2 _ Hurl), Hup, Hle. simpl.
  rewrite Hnew, Hdis. simpl. rewrite Hslot. simpl.
  rewrite Hfind. simpl. rewrite Hhello, Hshared, Hverify, Hact. simpl.
  repeat split; try done.
  - unfold new_effects. simpl. by rewrite drop_app_length.
  - intros Hfree. unfold findPeerByShortID, activate. simpl.
    rewrite Hfree. by rewrite lookup_insert_eq.
Qed.

(** X4. An upgrade request whose [Connect-As] header does not name
    [peer] is answered with the 503 redirect ([moved = false],
    [Remote-Address] set to the client's address, the endpoints of the
    second [redirect(slot)] call in the body), without reading the hello.
    The slot obtained from [new_inbound_slot] is not handed to
    [on_closed]: the finder is left in the state of the two [redirect]
    calls. *)
Theorem onHandoff_connect_as (bundle : ssl_bundle) (request : http_request_type)
  (remote_endpoint local : endpoint_type) o consumer rm1 rm2 s pf1
  eps0 pf2 eps pf3 :
  req_url request ≠ "/crawl" →
  isPeerUpgrade request = true →
  local_endpoint bundle = Some local →
  Resource.newInboundEndpoint remote_endpoint (m_resourceManager o) = (consumer, rm1) →
  Resource.disconnect consumer rm1 = (false, rm2) →
  PeerFinder.new_inbound_slot local remote_endpoint (m_peerFinder o) = (Some s, pf1) →
  List.find (fun t => ci_equal t "peer")
    (split_commas (header "Connect-As" (req_headers request))) = None →
  PeerFinder.redirect s pf1 = (eps0, pf2) →
  PeerFinder.redirect s pf2 = (eps, pf3) →
  let h := (onHandoff bundle request remote_endpoint o).1 in
  let o' := (onHandoff bundle request remote_endpoint o).2 in
  h = {| moved := false; keep_alive := is_keep_alive request;
         response :=
           Some (make_JsonWriter
                   {| m_request := false; m_status := 503;
                      m_reason := "Service Unavailable";
                      m_version := (Z.quot (req_version request) 10,
                                    Z.rem (req_version request) 10);
                      m_headers :=
                        [("Remote-Address",
                          address_to_string (address remote_endpoint))] |}
                   (peer_ips eps)) |}
  ∧ m_peerFinder o' = pf3
  ∧ tables o' = tables o
  ∧ new_effects o o' = [].
Proof.
  intros Hurl Hup Hle Hnew Hdis Hslot Hfind Hr0 Hr1.
  cbv zeta. unfold onHandoff, processRequest.
  rewrite (bool_decide_eq_true_2 _ Hurl), Hup, Hle. simpl.
  rewrite Hnew, Hdis. simpl. rewrite Hslot. simpl.
  rewrite Hfind. simpl.
  erewrite makeRedirectResponse_unfold; [|exact Hr0|exact Hr1].
  simpl. repeat split. unfold new_effects. simpl. apply drop_all.
Qed.

(** X5. A request for [/crawl] is answered before anything else is looked
    at, upgrade headers included: status 200, body
    [{"overlay": {"active": [...]}}] with one entry per active peer in
    the order of [for_each], [moved = false]; nothing but the id counter
    changes. *)
Theorem onHandoff_crawl (bundle : ssl_bundle) (request : http_request_type)
  (remote_endpoint : endpoint_type) o :
  req_url request = "/crawl" →
  onHandoff bundle request remote_endpoint o
  = ({| moved := false; keep_alive := false;
        response :=
          Some (make_JsonWriter
                  {| m_request := false; m_status := 200; m_reason := "OK";
                     m_version := (Z.quot (req_version request) 10,
                                   Z.rem (req_version request) 10);
                     m_headers := [] |}
                  (Json.objectValue
                     [("overlay",
                       Json.objectValue
                         [("active",
                           Json.arrayValue
                             (map crawl_entry (active_peers o)))])])) |},
     set_next_id_ ((next_id_ o + 1) mod 2 ^ 32) o).
Proof.
  intros Hurl. unfold onHandoff, processRequest.
  rewrite bool_decide_eq_false_2 by (intros Hne; by apply Hne).
  simpl. by rewrite crawl_eq.
Qed.

(** X6. An upgrade request is closed without a response ([moved = true],
    no response) when the local endpoint cannot be read or when the
    client is over its resource budget; in both cases the finder is not
    asked for a slot and no table changes.  In the first case the
    resource manager is not charged either. *)
Theorem onHandoff_refused_early (bundle : ssl_bundle)
  (request : http_request_type) (remote_endpoint : endpoint_type) o :
  req_url request ≠ "/crawl" →
  isPeerUpgrade request = true →
  (local_endpoint bundle = None
   ∨ (Resource.disconnect
        (Resource.newInboundEndpoint remote_endpoint (m_resourceManager o)).1
        (Resource.newInboundEndpoint remote_endpoint (m_resourceManager o)).2).1
     = true) →
  let h := (onHandoff bundle request remote_endpoint o).1 in
  let o' := (onHandoff bundle request remote_endpoint o).2 in
  moved h = true ∧ response h = None
  ∧ m_peerFinder o' = m_peerFinder o
  ∧ tables o' = tables o
  ∧ new_effects o o' = []
  ∧ (local_endpoint bundle = None → m_resourceManager o' = m_resourceManager o).
Proof.
  intros Hurl Hup Hcase. cbv zeta. unfold onHandoff, processRequest.
  rewrite (bool_decide_eq_true_2 _ Hurl), Hup. simpl.
  destruct (local_endpoint bundle) as [local|] eqn:Hle.
  - destruct Hcase as [?|Hover]; [done|].
    destruct (Resource.newInboundEndpoint remote_endpoint (m_resourceManager o))
      as [consumer rm1].
    simpl in *. destruct (Resource.disconnect consumer rm1) as [over rm2].
    simpl in *. subst over. simpl.
    repeat split; try done. unfold new_effects. simpl. apply drop_all.
  - simpl. repeat split; try done. unfold new_effects. simpl. apply drop_all.
Qed.

(** ** The invariant of the tables *)

Lemma filter_keys_NoDup {K V} (P : K * V → Prop) `{!∀ x, Decision (P x)}
  (m : list (K * V)) :
  NoDup m.*1 → NoDup (filter P m).*1.
Proof.
  induction m as [|kv m IH]; intros ND; [done|].
  apply NoDup_cons in ND as [Hk ND]. rewrite filter_cons.
  destruct (decide (P kv)); [|by apply IH].
  rewrite fmap_cons. apply NoDup_cons. split; [|by apply IH].
  intros Hin. apply Hk. apply list_elem_of_fmap in Hin as (x & -> & Hin).
  apply list_elem_of_fmap. exists x. split; [done|].
  by apply list_elem_of_filter in Hin as [_ ?].
Qed.

Lemma relay_tables {T} `{!HopsMessage T} (m : T) (uid : uint256) o :
  tables (relay m uid o) = tables o.
Proof.
  rewrite relay_unfold. destruct (ttl_exceeded m); [done|]. simpl.
  destruct (negb _); [|done]. by rewrite tables_emits.
Qed.

Lemma send_tables {T} `{!HopsMessage T} (m : T) o :
  tables (send m o).2 = tables o.
Proof. rewrite send_unfold. simpl. by rewrite tables_emits. Qed.

Lemma stop_tables o : tables (stop o) = tables o.
Proof.
  rewrite stop_unfold. destruct (work_ o); [|done]. by rewrite tables_emits.
Qed.

(** One round of the loop of [onManifests]: nothing but the router, the
    cache and the log changes, and the log grows by effects of the round's
    manifest. *)
Lemma onManifests_body_frame (history : bool) (from : PeerImp) (s : string) o :
  let o' := onManifests_body history from s o in
  tables o' = tables o ∧ settings o' = settings o
  ∧ m_peerFinder o' = m_peerFinder o
  ∧ m_resourceManager o' = m_resourceManager o
  ∧ ∃ l, effects_ o' = effects_ o ++ l
         ∧ Forall (fun e =>
             match e with
             | PubManifest _ => True
             | InsertValidatorManifest raw =>
                 ∃ mo, make_Manifest s = Some mo ∧ raw = serialized mo
             | Sent _ sm =>
                 history = false
                 ∧ sm = make_Message
                          (PB_Manifests {| mf_list := [s]; mf_history := false |})
                          mtMANIFESTS
             | _ => False
             end) l.
Proof.
  cbv zeta. unfold onManifests_body.
  destruct (make_Manifest s) as [mo|] eqn:Hmk.
  2:{ repeat split; try done. exists []. by rewrite app_nil_r. }
  simpl. destruct (bool_decide (hashRouter o !! mhash mo = None)); simpl.
  2:{ repeat split; try done. exists []. by rewrite app_nil_r. }
  destruct (applyManifest mo (manifestCache_ o)) as [result c1].
  destruct history, result; simpl;
    rewrite ?foreach_send_if_not, ?tables_emits, ?settings_emits,
      ?finder_emits, ?resources_emits, ?effects_emits; simpl;
    (repeat split; try done);
    eexists; (split; [rewrite <- ?app_assoc; simpl; try reflexivity;
                      by rewrite ?app_nil_r|]);
    repeat (apply Forall_cons; split; [first [done | by eexists]|]);
    try apply Forall_nil;
    try (apply Forall_forall; intros e He;
         apply list_elem_of_In, List.in_map_iff in He as (q & <- & _); done).
  all: exact I.
Qed.

Lemma onManifests_frame_aux (history : bool) (from : PeerImp) (ss : list string) o :
  let o' := foldl (fun o s => onManifests_body history from s o) o ss in
  tables o' = tables o ∧ settings o' = settings o
  ∧ m_peerFinder o' = m_peerFinder o
  ∧ m_resourceManager o' = m_resourceManager o
  ∧ ∃ l, effects_ o' = effects_ o ++ l
         ∧ Forall (fun e =>
             match e with
             | PubManifest _ => True
             | InsertValidatorManifest raw =>
                 ∃ s mo, s ∈ ss ∧ make_Manifest s = Some mo ∧ raw = serialized mo
             | Sent _ sm =>
                 history = false
                 ∧ ∃ s, s ∈ ss
                        ∧ sm = make_Message
                                 (PB_Manifests {| mf_list := [s]; mf_history := false |})
                                 mtMANIFESTS
             | _ => False
             end) l.
Proof.
  cbv zeta. revert o. induction ss as [|s ss IH]; intros o; simpl.
  - repeat split; try done. exists []. by rewrite app_nil_r.
  - destruct (onManifests_body_frame history from s o)
      as (Ht & Hs & Hf & Hr & l1 & El1 & Hl1).
    destruct (IH (onManifests_body history from s o))
      as (Ht' & Hs' & Hf' & Hr' & l2 & El2 & Hl2).
    rewrite Ht', Hs', Hf', Hr'. repeat split; try done.
    exists (l1 ++ l2). split; [by rewrite El2, El1, <- app_assoc|].
    apply Forall_app. split.
    + eapply Forall_impl; [exact Hl1|]. intros [] He; try done.
      * destruct He as (? & ?). split; [done|]. exists s. split; [by left|done].
      * destruct He as (mo & ? & ?). exists s, mo. split; [by left|done].
    + eapply Forall_impl; [exact Hl2|]. intros [] He; try done.
      * destruct He as (? & s' & ? & ?). split; [done|]. exists s'.
        split; [by right|done].
      * destruct He as (s' & mo & ? & ? & ?). exists s', mo. split; [by right|done].
Qed.

(** X7. [onManifests] touches nothing but the hash router, the manifest
    cache and the log, whatever the set holds (empty, malformed,
    suppressed or repeated entries included).  Every effect it adds is a
    publication, an insertion of the serialized form of a manifest parsed
    from the set, or the announcement of one entry of the set in a
    message of its own; a set marked history announces nothing. *)
Theorem onManifests_frame (m : TMManifests) (from : PeerImp) o :
  let o' := onManifests m from o in
  tables o' = tables o ∧ settings o' = settings o
  ∧ m_peerFinder o' = m_peerFinder o
  ∧ m_resourceManager o' = m_resourceManager o
  ∧ Forall (fun e =>
      match e with
      | PubManifest _ => True
      | InsertValidatorManifest raw =>
          ∃ s mo, s ∈ mf_list m ∧ make_Manifest s = Some mo ∧ raw = serialized mo
      | Sent _ sm =>
          mf_history m = false
          ∧ ∃ s, s ∈ mf_list m
                 ∧ sm = make_Message
                          (PB_Manifests {| mf_list := [s]; mf_history := false |})
                          mtMANIFESTS
      | _ => False
      end) (new_effects o o')
  ∧ (mf_history m = true →
     Forall (fun e => is_Sent e = false) (new_effects o o')).
Proof.
  cbv zeta. unfold onManifests.
  destruct (onManifests_frame_aux (mf_history m) from (mf_list m) o)
    as (Ht & Hs & Hf & Hr & l & El & Hl).
  rewrite (new_effects_app _ _ _ El). repeat split; try done.
  intros Hh. eapply Forall_impl; [exact Hl|].
  intros [] He; try done. destruct He as [He _]. congruence.
Qed.

Lemma add_active_wf (peer : PeerImp) o : tables_wf o → tables_wf (add_active peer o).
Proof.
  intros (Hi & Hp & Hl). unfold tables_wf, ids_wf, add_active. simpl.
  split; [by apply ids_emplace_wf|]. split; by apply emplace_NoDup.
Qed.

Lemma activate_wf (peer : PeerImp) o : tables_wf o → tables_wf (activate peer o).
Proof.
  intros (Hi & Hp & Hl). unfold tables_wf, ids_wf, activate. simpl.
  split; [by apply ids_emplace_wf|]. done.
Qed.

Lemma onPeerDeactivate_wf (i : Peer_id) o :
  tables_wf o → tables_wf (onPeerDeactivate i o).
Proof.
  intros (Hi & Hp & Hl). unfold tables_wf, ids_wf, onPeerDeactivate. simpl.
  split; [|done]. intros k p Hk. apply lookup_delete_Some in Hk as [_ Hk].
  by apply Hi.
Qed.

Lemma remove_slot_wf (s : PeerFinder.Slot) o o' :
  tables_wf o → remove_slot s o = Some o' → tables_wf o'.
Proof.
  intros (Hi & Hp & Hl). unfold remove_slot.
  destruct (decide (s ∈ (m_peers o).*1)); [|done]. intros [= <-].
  unfold tables_wf, ids_wf. simpl.
  split; [done|]. split; [|done]. by apply filter_keys_NoDup.
Qed.

Lemma remove_slot_present (s : PeerFinder.Slot) o :
  is_Some (remove_slot s o) ↔ s ∈ (m_peers o).*1.
Proof.
  unfold remove_slot. destruct (decide (s ∈ (m_peers o).*1)) as [Hin|Hout].
  - split; [done|]. intros _. by eexists.
  - split; [by intros [? ?]|done].
Qed.

Lemma remove_child_wf (s1 s2 : bool) (child : ChildPtr) o :
  tables_wf o → tables_wf (remove_child s1 s2 child o).2.
Proof.
  intros (Hi & Hp & Hl). unfold remove_child. simpl.
  destruct (bool_decide _); simpl; unfold tables_wf, ids_wf; simpl;
    (split; [done|]); (split; [done|]); by apply erase_NoDup.
Qed.

Lemma connect_wf (e : endpoint_type) o : tables_wf o → tables_wf (connect e o).
Proof.
  intros (Hi & Hp & Hl). unfold connect.
  destruct (Outbound.newOutboundEndpoint _ _) as [usage rm1].
  destruct (Resource.disconnect usage rm1) as [over rm2]. simpl.
  destruct over; [done|].
  destruct (Outbound.new_outbound_slot _ _) as [[s|] pf]; simpl; [|done].
  unfold tables_wf, ids_wf. simpl. split; [done|]. split; [done|].
  by apply emplace_NoDup.
Qed.

Lemma autoConnect_wf o : tables_wf o → tables_wf (autoConnect o).
Proof.
  intros Hwf. unfold autoConnect.
  destruct (Outbound.autoconnect (m_peerFinder o)) as [result pf].
  assert (tables_wf (set_m_peerFinder pf o)) as Hwf' by done.
  revert Hwf'. generalize (set_m_peerFinder pf o). clear.
  induction result as [|e result IH]; intros o Hwf; simpl; [done|].
  apply IH. by apply connect_wf.
Qed.

Lemma perform_wf (c : Call) o o' :
  tables_wf o → perform o c = Some o' → tables_wf o'.
Proof.
  intros Hwf. destruct c; cbn [perform]; intros E;
    try (apply (inj Some) in E; subst o').
  - by apply add_active_wf.
  - by apply activate_wf.
  - by apply onPeerDeactivate_wf.
  - by apply (remove_slot_wf s o).
  - by apply remove_child_wf.
  - by apply connect_wf.
  - by apply autoConnect_wf.
  - by apply onHandoff_tables.
  - eapply tables_wf_same; [apply send_tables|done].
  - eapply tables_wf_same; [apply send_tables|done].
  - eapply tables_wf_same; [apply relay_tables|done].
  - eapply tables_wf_same; [apply relay_tables|done].
  - eapply tables_wf_same;
      [apply (onManifests_frame_aux (mf_history m) from (mf_list m) o)|done].
  - eapply tables_wf_same; [apply stop_tables|done].
Qed.

(** X8. The tables stay well formed over every run of calls on the
    overlay, in any order and with any arguments, that has a result: each
    entry of [ids_] files a peer under that peer's own short id, and
    neither [m_peers] nor [list_] lists a key twice.  A run has no result
    only where it calls [remove(slot)] with a slot that is not in
    [m_peers] at that point, which the source asserts not to happen;
    every other call has a result in every state. *)
Theorem tables_wf_kept (cs : list Call) o :
  tables_wf o →
  (∀ o', perform_all cs o = Some o' → tables_wf o')
  ∧ (perform_all cs o = None →
     ∃ (before : list Call) (s : PeerFinder.Slot) (rest : list Call) o1,
       cs = before ++ call_remove_slot s :: rest
       ∧ perform_all before o = Some o1
       ∧ tables_wf o1
       ∧ s ∉ (m_peers o1).*1).
Proof.
  revert o. induction cs as [|c cs IH]; intros o Hwf; simpl.
  - split; [by intros o' [= <-]|done].
  - destruct (perform o c) as [o1|] eqn:Ec.
    + pose proof (perform_wf c o o1 Hwf Ec) as Hwf1.
      destruct (IH o1 Hwf1) as [Hsome Hnone]. split; [done|].
      intros E. destruct (Hnone E) as (cs1 & s & rest & o2 & -> & E1 & Hw2 & Hout).
      exists (c :: cs1), s, rest, o2. simpl. rewrite Ec.
      split; [done|]. split; [done|]. split; [done|done].
    + split; [done|]. intros _.
      destruct c; cbn [perform] in Ec; try discriminate Ec.
      exists [], s, cs, o. split; [done|]. split; [done|]. split; [done|].
      intros Hin. apply remove_slot_present in Hin as [? Hin]. congruence.
Qed.

(** ** The table of active peers *)

(** X9. Registering a peer whose short id is free makes it findable under
    that id, leaves every other id as it was, and raises [size()] by one;
    the peer is then among the active peers. *)
Theorem add_active_find (peer : PeerImp) o :
  ids_ o !! id peer = None →
  findPeerByShortID (id peer) (add_active peer o) = Some peer
  ∧ (∀ j, j ≠ id peer →
          findPeerByShortID j (add_active peer o) = findPeerByShortID j o)
  ∧ OverlayImpl_size (add_active peer o) = S (OverlayImpl_size o)
  ∧ peer ∈ getActivePeers (add_active peer o).
Proof.
  intros Hfree. rewrite getActivePeers_eq.
  unfold findPeerByShortID, OverlayImpl_size, active_peers, add_active. simpl.
  rewrite ?Hfree. simpl. rewrite ?Hfree. split; [by rewrite lookup_insert_eq|].
  split; [intros j Hj; by rewrite lookup_insert_ne|].
  split; [by apply map_size_insert_None|].
  apply list_elem_of_omap. exists (id peer, Some peer). split; [|done].
  apply elem_of_map_to_list. apply lookup_insert_eq.
Qed.

(** X10. Registering a peer under a short id that is taken leaves [ids_]
    as it is: the entry already there stays, the peer is not found under
    its id and is not among the active peers unless it is that entry, yet
    it is started all the same. *)
Theorem add_active_taken (peer : PeerImp) (w : weak_ptr PeerImp) o :
  ids_ o !! id peer = Some w →
  ids_ (add_active peer o) = ids_ o
  ∧ findPeerByShortID (id peer) (add_active peer o) = lock w
  ∧ getActivePeers (add_active peer o) = getActivePeers o
  ∧ new_effects o (add_active peer o) = [Run (PeerImpPtr (id peer))].
Proof.
  intros Htaken. rewrite !getActivePeers_eq.
  unfold findPeerByShortID, active_peers, add_active. simpl.
  rewrite Htaken. simpl. split; [done|]. split; [by rewrite Htaken|].
  split; [done|]. unfold new_effects. simpl. by rewrite drop_app_length.
Qed.

Lemma set_ids_same o : set_ids_ (ids_ o) o = o.
Proof. by destruct o. Qed.

(** X11. Deactivating a short id that is not in [ids_] changes nothing,
    and deactivating a peer right after it was activated under a free id
    restores the state. *)
Theorem activate_deactivate (peer : PeerImp) (i : Peer_id) o :
  (ids_ o !! i = None → onPeerDeactivate i o = o)
  ∧ (ids_ o !! id peer = None →
     onPeerDeactivate (id peer) (activate peer o) = o
     ∧ findPeerByShortID (id peer) (onPeerDeactivate (id peer) (activate peer o))
       = None).
Proof.
  split.
  - intros Hi. unfold onPeerDeactivate. rewrite delete_id by done.
    apply set_ids_same.
  - intros Hfree.
    assert (onPeerDeactivate (id peer) (activate peer o) = o) as E.
    { unfold onPeerDeactivate, activate. simpl. rewrite Hfree.
      rewrite delete_insert_id by done. by destruct o. }
    split; [done|]. rewrite E. unfold findPeerByShortID. by rewrite Hfree.
Qed.

(** X12. [size()] counts the entries of [ids_], expired ones included,
    while [getActivePeers] (like every [for_each]) returns only the peers
    whose handle still locks: the two differ by the number of expired
    handles. *)
Theorem size_counts_expired o :
  OverlayImpl_size o
  = (length (getActivePeers o)
     + length (List.filter (fun kv => bool_decide (lock kv.2 = None))
                 (map_to_list (ids_ o))))%nat.
Proof.
  rewrite getActivePeers_eq. unfold OverlayImpl_size, active_peers.
  rewrite <- length_map_to_list.
  induction (map_to_list (ids_ o)) as [|[k [q|]] kvs IH]; simpl; [done| |].
  - f_equal. exact IH.
  - rewrite Nat.add_succ_r. f_equal. exact IH.
Qed.

(** ** Children and shutdown *)

(** X13. A peer registered while the work guard is engaged, whose address
    is not yet in [list_], is reached by a later [stop]: its [stop()] is
    among the calls [stop] makes, and the guard is released. *)
Theorem stop_reaches_added (peer : PeerImp) o :
  work_ o = true →
  PeerImpPtr (id peer) ∉ (list_ o).*1 →
  Stopped (PeerImpPtr (id peer))
    ∈ new_effects (add_active peer o) (stop (add_active peer o))
  ∧ work_ (stop (add_active peer o)) = false.
Proof.
  intros Hw Hfresh.
  assert (work_ (add_active peer o) = true) as Hw' by done.
  rewrite stop_unfold, Hw'. split; [|by rewrite work_emits].
  rewrite (new_effects_app _ _ (map Stopped (reachable_children (add_active peer o))))
    by (by rewrite effects_emits).
  apply list_elem_of_fmap. exists (PeerImpPtr (id peer)). split; [done|].
  unfold reachable_children, add_active. simpl.
  rewrite emplace_fresh by done.
  apply list_elem_of_omap. exists (PeerImpPtr (id peer), Some (PeerImpPtr (id peer))).
  split; [|done]. apply elem_of_app. right. by left.
Qed.

Lemma erase_keys (c : ChildPtr) (m : list (ChildPtr * weak_ptr ChildPtr)) :
  (List.filter (fun kv => negb (bool_decide (kv.1 = c))) m).*1
  = List.filter (fun k => negb (bool_decide (k = c))) m.*1.
Proof.
  induction m as [|kv m IH]; simpl; [done|].
  destruct (negb (bool_decide (kv.1 = c))); [|exact IH].
  simpl. f_equal. exact IH.
Qed.

Lemma List_filter_Permutation {A} (f : A → bool) (xs ys : list A) :
  xs ≡ₚ ys → List.filter f xs ≡ₚ List.filter f ys.
Proof.
  induction 1 as [|x xs ys _ IH|x y xs|xs ys zs _ IH1 _ IH2]; simpl.
  - done.
  - destruct (f x); [by constructor|done].
  - destruct (f x), (f y); try done. apply perm_swap.
  - by etrans.
Qed.

Lemma List_filter_all {A} (f : A → bool) (xs : list A) :
  (∀ x, x ∈ xs → f x = true) → List.filter f xs = xs.
Proof.
  induction xs as [|x xs IH]; simpl; intros Hall; [done|].
  rewrite Hall by (by left). f_equal. apply IH. intros y Hy. apply Hall. by right.
Qed.

(** X14. While the overlay is stopping and its [Stoppable] children have
    stopped, the children of [list_] may be destroyed in any order:
    [stopped()] is called by the [remove] that empties [list_], that is,
    by the last one, and by none before. *)
Theorem drain_signals_last (cs : list ChildPtr) o :
  NoDup (list_ o).*1 →
  cs ≡ₚ (list_ o).*1 →
  cs ≠ [] →
  (drain cs o).1 = replicate (length cs - 1) false ++ [true]
  ∧ list_ (drain cs o).2 = [].
Proof.
  revert o. induction cs as [|c cs IH]; intros o ND Hperm Hne; [done|].
  simpl. unfold remove_child. cbn [list_ set_list_].
  set (m' := List.filter (fun kv => negb (bool_decide (kv.1 = c))) (list_ o)).
  assert (NoDup (c :: cs)) as NDc by (by rewrite Hperm).
  apply NoDup_cons in NDc as [Hc NDcs].
  assert (m'.*1 ≡ₚ cs) as Hperm'.
  { subst m'. rewrite erase_keys.
    rewrite <- (List_filter_Permutation _ _ _ Hperm). simpl.
    rewrite bool_decide_eq_true_2 by done. simpl.
    rewrite List_filter_all; [done|].
    intros x Hx. apply negb_true_iff, bool_decide_eq_false. by intros ->. }
  assert (NoDup m'.*1) as ND' by (by rewrite Hperm').
  destruct cs as [|c' cs].
  - apply Permutation_nil_r in Hperm'. apply fmap_nil_inv in Hperm'.
    rewrite Hperm'. simpl. unfold checkStopped. simpl. done.
  - assert (m' ≠ []) as Hm'.
    { intros E. rewrite E in Hperm'. by apply Permutation_nil_cons in Hperm'. }
    rewrite bool_decide_eq_false_2 by done.
    specialize (IH (set_list_ m' o) ND' (symmetry Hperm') ltac:(done)).
    destruct (drain (c' :: cs) (set_list_ m' o)) as [rest o''].
    simpl in *. destruct IH as [-> ->]. by rewrite Nat.sub_0_r.
Qed.

(** ** [connect] and [autoConnect] *)

Lemma connect_outcome (e : endpoint_type) o :
  ids_ (connect e o) = ids_ o ∧ m_peers (connect e o) = m_peers o
  ∧ ((effects_ (connect e o) = effects_ o
      ∧ next_id_ (connect e o) = next_id_ o
      ∧ list_ (connect e o) = list_ o)
     ∨ (effects_ (connect e o) = effects_ o ++ [Run (ConnectAttemptPtr (next_id_ o))]
        ∧ next_id_ (connect e o) = (next_id_ o + 1) mod 2 ^ 32
        ∧ list_ (connect e o)
          = emplace (ConnectAttemptPtr (next_id_ o))
              (Some (ConnectAttemptPtr (next_id_ o))) (list_ o))).
Proof.
  unfold connect.
  destruct (Outbound.newOutboundEndpoint _ _) as [usage rm1].
  destruct (Resource.disconnect usage rm1) as [over rm2]. simpl.
  destruct over; [by repeat split; try left|].
  destruct (Outbound.new_outbound_slot _ _) as [[s|] pf]; simpl.
  - repeat split; try done. by right.
  - repeat split; try done. by left.
Qed.

(** X15. [connect] starts at most one attempt, consumes an id exactly
    when it does, and never touches [ids_] or [m_peers].  When the
    consumer is over its budget the finder is not asked for a slot and
    nothing is started. *)
Theorem connect_starts_at_most_one (remote_endpoint : endpoint_type) o :
  let o' := connect remote_endpoint o in
  let charged :=
    Outbound.newOutboundEndpoint remote_endpoint (m_resourceManager o) in
  ids_ o' = ids_ o ∧ m_peers o' = m_peers o
  ∧ ((new_effects o o' = [] ∧ next_id_ o' = next_id_ o ∧ list_ o' = list_ o)
     ∨ (new_effects o o' = [Run (ConnectAttemptPtr (next_id_ o))]
        ∧ next_id_ o' = (next_id_ o + 1) mod 2 ^ 32
        ∧ list_ o'
          = emplace (ConnectAttemptPtr (next_id_ o))
              (Some (ConnectAttemptPtr (next_id_ o))) (list_ o)))
  ∧ ((Resource.disconnect charged.1 charged.2).1 = true →
     m_peerFinder o' = m_peerFinder o ∧ new_effects o o' = []).
Proof.
  cbv zeta. destruct (connect_outcome remote_endpoint o) as (Hi & Hp & Hcase).
  split; [done|]. split; [done|]. split.
  - destruct Hcase as [(He & Hn & Hl)|(He & Hn & Hl)]; [left|right];
      (split; [|done]); apply new_effects_app; [by rewrite app_nil_r|done].
  - unfold connect.
    destruct (Outbound.newOutboundEndpoint _ _) as [usage rm1]. simpl.
    destruct (Resource.disconnect usage rm1) as [over rm2]. simpl.
    intros ->. split; [done|]. unfold new_effects. simpl. apply drop_all.
Qed.

Lemma connects_fresh_ids (result : list endpoint_type) o :
  next_id_ o < 2 ^ 32 →
  ∃ k : nat,
    (k ≤ length result)%nat
    ∧ effects_ (foldl (fun o addr => connect addr o) o result)
      = effects_ o
        ++ map (fun j => Run (ConnectAttemptPtr ((next_id_ o + N.of_nat j) mod 2 ^ 32)))
             (seq 0 k)
    ∧ next_id_ (foldl (fun o addr => connect addr o) o result)
      = (next_id_ o + N.of_nat k) mod 2 ^ 32
    ∧ ids_ (foldl (fun o addr => connect addr o) o result) = ids_ o
    ∧ m_peers (foldl (fun o addr => connect addr o) o result) = m_peers o.
Proof.
  revert o. induction result as [|e result IH]; intros o Hlt; simpl.
  - exists 0%nat. simpl. rewrite app_nil_r, N.add_0_r, N.mod_small by done. done.
  - destruct (connect_outcome e o) as (Hi & Hp & [(He & Hn & Hl)|(He & Hn & Hl)]).
    + destruct (IH (connect e o)) as (k & Hk & Ee & En & Ei & Em);
        [by rewrite Hn|].
      exists k. rewrite Ee, En, Ei, Em, He, Hn, Hi, Hp. split; [lia|done].
    + destruct (IH (connect e o)) as (k & Hk & Ee & En & Ei & Em).
      { rewrite Hn. apply N.mod_lt. done. }
      exists (S k). rewrite Ee, En, Ei, Em, He, Hn, Hi, Hp.
      split; [lia|]. split; [|split; [|done]].
      * rewrite <- app_assoc. f_equal.
        change (seq 0 (S k)) with (0%nat :: seq 1 k). cbn [map app].
        change (N.of_nat 0) with 0.
        rewrite N.add_0_r, (N.mod_small _ _ Hlt). f_equal.
        rewrite <- seq_shift, map_map. apply map_ext. intros j.
        rewrite N.Div0.add_mod_idemp_l. do 3 f_equal. lia.
      * rewrite N.Div0.add_mod_idemp_l. f_equal. lia.
Qed.

(** X16. [autoConnect] starts at most one attempt per endpoint the finder
    proposes, and the attempts it starts carry consecutive ids (modulo
    2^32) from the counter onwards; the counter ends past the last of
    them, and [ids_] and [m_peers] are as before. *)
Theorem autoConnect_fresh_ids o :
  next_id_ o < 2 ^ 32 →
  ∃ k : nat,
    (k ≤ length (Outbound.autoconnect (m_peerFinder o)).1)%nat
    ∧ new_effects o (autoConnect o)
      = map (fun j => Run (ConnectAttemptPtr ((next_id_ o + N.of_nat j) mod 2 ^ 32)))
          (seq 0 k)
    ∧ next_id_ (autoConnect o) = (next_id_ o + N.of_nat k) mod 2 ^ 32
    ∧ ids_ (autoConnect o) = ids_ o
    ∧ m_peers (autoConnect o) = m_peers o.
Proof.
  intros Hlt. unfold autoConnect.
  destruct (Outbound.autoconnect (m_peerFinder o)) as [result pf]. simpl.
  destruct (connects_fresh_ids result (set_m_peerFinder pf o) Hlt)
    as (k & Hk & Ee & En & Ei & Em).
  exists k. split; [done|]. split; [by apply new_effects_app|]. done.
Qed.

(** ** What the crawl report tells *)

Lemma crawl_entry_members (sp : PeerImp) :
  Json_members (crawl_entry sp)
  = ["public_key"; "type"; "uptime"]
    ++ (if crawl_opt_in sp then ["ip"] else [])
    ++ (if crawl_opt_in sp
        then if PeerFinder.inbound (slot sp)
             then match PeerFinder.listening_port (slot sp) with
                  | Some _ => ["port"]
                  | None => []
                  end
             else ["port"]
        else [])
    ++ (if bool_decide (getVersion sp = EmptyString) then [] else ["version"]).
Proof.
  unfold crawl_entry.
  destruct (crawl_opt_in sp); destruct (PeerFinder.inbound (slot sp));
    destruct (PeerFinder.listening_port (slot sp));
    destruct (bool_decide (getVersion sp = EmptyString)); reflexivity.
Qed.

(** X17. The crawl report lists one entry per active peer, in the order
    of [for_each].  Every entry names the peer's public key, direction
    and uptime; the address is there exactly for the peers that opted
    into the crawl, and a port only next to an address: for an outbound
    peer always, for an inbound peer only when the slot knows its
    listening port. *)
Theorem crawl_discloses o :
  ∃ entries,
    crawl o = Json.objectValue [("active", Json.arrayValue entries)]
    ∧ Forall2 (fun sp pv =>
        let ms := Json_members pv in
        NoDup ms
        ∧ "public_key" ∈ ms ∧ "type" ∈ ms ∧ "uptime" ∈ ms
        ∧ ("ip" ∈ ms ↔ crawl_opt_in sp = true)
        ∧ ("port" ∈ ms ↔
             crawl_opt_in sp = true
             ∧ (PeerFinder.inbound (slot sp) = true →
                is_Some (PeerFinder.listening_port (slot sp))))
        ∧ ("version" ∈ ms ↔ getVersion sp ≠ EmptyString))
      (getActivePeers o) entries.
Proof.
  exists (map crawl_entry (active_peers o)).
  split; [apply crawl_eq|]. rewrite getActivePeers_eq.
  apply Forall2_fmap_r, Forall_Forall2_diag, Forall_forall. intros sp _.
  unfold compose. cbv beta zeta. rewrite crawl_entry_members.
  destruct (crawl_opt_in sp); destruct (PeerFinder.inbound (slot sp));
    destruct (PeerFinder.listening_port (slot sp));
    case_bool_decide as Ev; simpl;
    (split; [repeat (apply NoDup_cons; split; [set_solver|]); apply NoDup_nil_2|]);
    repeat split; try set_solver; try (intros; exfalso; set_solver);
    try (intros _; intros _; by eexists); try by intros [? [? ?]].
Qed.

(** ** [selectPeers] at its edges *)

Lemma selectPeers_loop_prefix (v : list item) (limit accepted : N) (set : PeerSet) :
  ∃ considered rest,
    v = considered ++ rest
    ∧ (selectPeers_loop v limit accepted set).2 = set ∪ item_ids considered.
Proof.
  revert accepted set. induction v as [|e v IH]; intros accepted set; simpl.
  - exists [], []. unfold item_ids. simpl. split; [done|set_solver].
  - case_bool_decide as Hin; simpl.
    + destruct (limit <=? (accepted + 1) mod 2 ^ 64); simpl.
      * exists [e], v. unfold item_ids. simpl. split; [done|set_solver].
      * destruct (IH ((accepted + 1) mod 2 ^ 64) ({[id e.2]} ∪ set))
          as (considered & rest & Ev & Es).
        exists (e :: considered), rest. split; [by rewrite Ev|].
        rewrite Es. unfold item_ids. simpl. set_solver.
    + destruct (IH accepted ({[id e.2]} ∪ set)) as (considered & rest & Ev & Es).
      exists (e :: considered), rest. split; [by rewrite Ev|].
      rewrite Es. unfold item_ids. simpl. set_solver.
Qed.

Lemma selectPeers_loop_zero (v : list item) (set : PeerSet) :
  (Forall (fun e => id e.2 ∈ set) v ∧ selectPeers_loop v 0 0 set = (0, set))
  ∨ (∃ (v1 : list item) (x : item) (v2 : list item),
       v = v1 ++ x :: v2
       ∧ Forall (fun e => id e.2 ∈ set) v1
       ∧ (id x.2 ∉ set)
       ∧ selectPeers_loop v 0 0 set = (1, {[id (x.2)]} ∪ set)).
Proof.
  induction v as [|e v IH]; simpl.
  - left. by split.
  - case_bool_decide as Hin; simpl.
    + right. exists [], e, v. by repeat split.
    + assert ({[id e.2]} ∪ set = set) as -> by set_solver.
      destruct IH as [[Hall E]|(l1 & e' & l2 & Ev & Hall & Hout & E)].
      * left. split; [by constructor|done].
      * right. exists (e :: l1), e', l2.
        split; [by rewrite Ev|]. split; [by constructor|]. by split.
Qed.

Lemma StronglySorted_app_cross {A} (R : relation A) (l1 l2 : list A) a b :
  StronglySorted R (l1 ++ l2) → a ∈ l1 → b ∈ l2 → R a b.
Proof.
  induction l1 as [|x l1 IH]; simpl; intros Hs Ha Hb.
  - by apply elem_of_nil in Ha.
  - apply StronglySorted_inv in Hs as [Hs Hall].
    apply elem_of_cons in Ha as [->|Ha]; [|by apply IH].
    rewrite Forall_forall in Hall. apply Hall.
    apply elem_of_app. by right.
Qed.

Lemma NoDup_fmap_eq {A B} (f : A → B) (l : list A) (x y : A) :
  NoDup (f <$> l) → x ∈ l → y ∈ l → f x = f y → x = y.
Proof.
  induction l as [|z l IH]; simpl; intros ND Hx Hy E.
  - by apply elem_of_nil in Hx.
  - apply NoDup_cons in ND as [Hz ND].
    apply elem_of_cons in Hx as [->|Hx]; apply elem_of_cons in Hy as [->|Hy].
    + done.
    + exfalso. apply Hz. rewrite E. by apply list_elem_of_fmap_2.
    + exfalso. apply Hz. rewrite <- E. by apply list_elem_of_fmap_2.
    + by apply IH.
Qed.

Lemma item_ids_elem (v : list item) (i : Peer_id) :
  i ∈ item_ids v ↔ ∃ e, e ∈ v ∧ id e.2 = i.
Proof.
  unfold item_ids. rewrite elem_of_list_to_set, list_elem_of_In, List.in_map_iff.
  split; intros (e & Ha & Hb); exists e.
  - split; [by apply list_elem_of_In|done].
  - split; [done|by apply list_elem_of_In].
Qed.

Lemma scored_elem (score : PeerImp → bool) o (e : item) :
  e ∈ scored score o ↔ ∃ p, p ∈ active_peers o ∧ e = (getScore p (score p), p).
Proof.
  rewrite scored_map, list_elem_of_In, List.in_map_iff.
  split; intros (p & Ha & Hb); exists p.
  - split; [by apply list_elem_of_In|done].
  - split; [done|by apply list_elem_of_In].
Qed.

(** X18. With a limit of zero [selectPeers] still inserts: the loop tests
    the limit only after an accepted insertion, so the best-scored active
    peer that is not yet in the set is added and 1 is returned, above the
    limit.  Only when every active peer is already in the set does it
    return 0 and leave the set alone. *)
Theorem selectPeers_limit_zero (sort : list item → list item) (set : PeerSet)
  (score : PeerImp → bool) o :
  std_sort_contract sort →
  let n := (selectPeers sort set 0 score o).1 in
  let set' := (selectPeers sort set 0 score o).2 in
  ((∀ p, p ∈ getActivePeers o → id p ∈ set) ∧ n = 0 ∧ set' = set)
  ∨ (∃ p, p ∈ getActivePeers o ∧ (id p ∉ set)
          ∧ n = 1 ∧ set' = {[id p]} ∪ set
          ∧ ∀ q, q ∈ getActivePeers o → id q ∉ set →
                 (getScore q (score q) ≤ getScore p (score p))%Z).
Proof.
  intros Hsort. cbv zeta. rewrite getActivePeers_eq. unfold selectPeers.
  destruct (Hsort (scored score o)) as [Hperm Hsorted].
  destruct (selectPeers_loop_zero (sort (scored score o)) set)
    as [[Hall E]|(l1 & e & l2 & Ev & Hall & Hout & E)]; rewrite E; simpl.
  - left. split; [|done]. intros p Hp.
    rewrite Forall_forall in Hall.
    apply (Hall (getScore p (score p), p)).
    rewrite Hperm. apply scored_elem. by exists p.
  - right.
    assert (e ∈ scored score o) as He.
    { rewrite <- Hperm, Ev. apply elem_of_app. right. by left. }
    apply scored_elem in He as (p & Hp & ->). simpl in *.
    exists p. split; [done|]. split; [done|]. split; [done|]. split; [done|].
    intros q Hq Hqout.
    assert ((getScore q (score q), q) ∈ sort (scored score o)) as Hin.
    { rewrite Hperm. apply scored_elem. by exists q. }
    rewrite Ev in Hin, Hsorted.
    apply elem_of_app in Hin as [Hin|Hin].
    + rewrite Forall_forall in Hall. by apply Hall in Hin.
    + apply elem_of_cons in Hin as [Hin|Hin].
      * injection Hin as -> _. lia. 
      * rewrite cons_middle, app_assoc in Hsorted.
        assert ((getScore p (score p), p) ∈ l1 ++ [(getScore p (score p), p)]) as Hpin.
        { apply elem_of_app. right. by left. }
        pose proof (StronglySorted_app_cross _ _ _ _ _ Hsorted Hpin Hin) as Hle.
        by apply not_before_descending in Hle.
Qed.

(** X19. [selectPeers] takes the best: an active peer the call added to
    the set scores at least as high as every active peer that is not in
    the set afterwards, whatever the limit and however the sort orders
    peers of equal score. *)
Theorem selectPeers_takes_best (sort : list item → list item) (set : PeerSet)
  (limit : N) (score : PeerImp → bool) o (p q : PeerImp) :
  std_sort_contract sort → ids_wf o →
  p ∈ getActivePeers o → q ∈ getActivePeers o →
  id p ∉ set →
  id p ∈ (selectPeers sort set limit score o).2 →
  id q ∉ (selectPeers sort set limit score o).2 →
  (getScore q (score q) ≤ getScore p (score p))%Z.
Proof.
  intros Hsort Hwf Hp Hq Hnew Hsel Hleft. rewrite getActivePeers_eq in Hp, Hq.
  unfold selectPeers in *.
  destruct (Hsort (scored score o)) as [Hperm Hsorted].
  destruct (selectPeers_loop_prefix (sort (scored score o)) limit 0 set)
    as (considered & rest & Ev & Es).
  rewrite Es in Hsel, Hleft. rewrite Ev in Hsorted.
  apply elem_of_union in Hsel as [Hsel|Hsel]; [done|].
  apply item_ids_elem in Hsel as (e & He & Eid).
  assert (e = (getScore p (score p), p)) as ->.
  { assert (e ∈ scored score o) as He'.
    { rewrite <- Hperm, Ev. apply elem_of_app. by left. }
    apply scored_elem in He' as (p' & Hp' & ->). simpl in Eid.
    by rewrite (NoDup_fmap_eq id _ p' p (active_peers_NoDup o Hwf) Hp' Hp Eid). }
  assert ((getScore q (score q), q) ∈ rest) as Hr.
  { assert ((getScore q (score q), q) ∈ sort (scored score o)) as Hin.
    { rewrite Hperm. apply scored_elem. by exists q. }
    rewrite Ev in Hin. apply elem_of_app in Hin as [Hin|Hin]; [|done].
    exfalso. apply Hleft, elem_of_union. right.
    apply item_ids_elem. by eexists. }
  pose proof (StronglySorted_app_cross _ _ _ _ _ Hsorted He Hr) as Hle.
  by apply not_before_descending in Hle.
Qed.

(** ** [send], peer by peer *)

Lemma sent_count_map (i : Peer_id) (sm : Message) (ps : list PeerImp) :
  sent_count i (map (fun p => Sent (id p) sm) ps)
  = length (List.filter (fun p => bool_decide (id p = i)) ps).
Proof.
  unfold sent_count. induction ps as [|p ps IH]; simpl; [done|].
  destruct (bool_decide (id p = i)); simpl; [f_equal|]; exact IH.
Qed.

Lemma filter_id_NoDup (cond : PeerImp → bool) (ps : list PeerImp) (p : PeerImp) :
  NoDup (id <$> ps) → p ∈ ps →
  length (List.filter (fun q => bool_decide (id q = id p)) (List.filter cond ps))
  = if cond p then 1%nat else 0%nat.
Proof.
  induction ps as [|x ps IH]; simpl; intros ND Hp.
  - by apply elem_of_nil in Hp.
  - apply NoDup_cons in ND as [Hx ND].
    assert (∀ q, q ∈ ps → id q ≠ id x) as Hother.
    { intros q Hq E. apply Hx. rewrite <- E. by apply list_elem_of_fmap_2. }
    apply elem_of_cons in Hp as [->|Hp].
    + assert (List.filter (fun q => bool_decide (id q = id x)) (List.filter cond ps) = [])
        as Hnone.
      { clear IH ND Hx. induction ps as [|y ps IH]; simpl; [done|].
        assert (List.filter (fun q => bool_decide (id q = id x)) (List.filter cond ps) = [])
          as IH'.
        { apply IH. intros q Hq. apply Hother. by right. }
        destruct (cond y); simpl; [|done].
        rewrite bool_decide_eq_false_2; [done|]. apply Hother. by left. }
      destruct (cond x); simpl; [|by rewrite Hnone].
      rewrite bool_decide_eq_true_2 by done. simpl. by rewrite Hnone.
    + destruct (cond x); simpl; [|by apply IH].
      rewrite bool_decide_eq_false_2; [by apply IH|].
      intros E. by apply (Hother p Hp).
Qed.

(** X20. [send] queues the message exactly once on every active peer that
    may get it (all of them when the message carries no hop count, the
    hop-aware ones otherwise) and on no one else; every copy is the
    encoding of the message as [send] returns it, and neither the tables
    nor the hash router, the finder or the resource manager change. *)
Theorem send_reaches_eligible {T} `{!HopsMessage T} (m : T) o :
  ids_wf o →
  let m' := (send m o).1 in
  let o' := (send m o).2 in
  (∀ p, p ∈ getActivePeers o →
        sent_count (id p) (new_effects o o') = if eligible m' p then 1%nat else 0%nat)
  ∧ (∀ i, i ∉ id <$> getActivePeers o → sent_count i (new_effects o o') = 0%nat)
  ∧ Forall (fun e => ∃ p, p ∈ getActivePeers o ∧ e = Sent (id p) (encode m'))
      (new_effects o o')
  ∧ tables o' = tables o ∧ settings o' = settings o
  ∧ hashRouter o' = hashRouter o
  ∧ m_peerFinder o' = m_peerFinder o
  ∧ m_resourceManager o' = m_resourceManager o.
Proof.
  intros Hwf. cbv zeta. rewrite getActivePeers_eq, send_unfold. cbv zeta.
  cbn [fst snd].
  rewrite new_effects_emits, tables_emits, settings_emits, hashRouter_emits,
    finder_emits, resources_emits.
  set (m' := if expire (setup_ o) then set_hops 0 m else m).
  split; [|split; [|split; [|done]]].
  - intros p Hp. rewrite sent_count_map.
    apply (filter_id_NoDup _ _ _ (active_peers_NoDup o Hwf) Hp).
  - intros i Hi. rewrite sent_count_map.
    induction (active_peers o) as [|x ps IH]; simpl; [done|].
    assert (i ∉ id <$> ps) as Hi' by (intros ?; apply Hi; by right).
    destruct (negb (has_hops m') || hopsAware x); simpl; [|by apply IH].
    rewrite bool_decide_eq_false_2; [by apply IH|].
    intros E. apply Hi. rewrite <- E. by left.
  - apply Forall_forall. intros e He.
    apply list_elem_of_In, List.in_map_iff in He as (p & <- & Hin).
    apply List.filter_In in Hin as [Hin _].
    exists p. split; [by apply list_elem_of_In|done].
Qed.

(** ** The redirect, from the node that is full to the node that dialled *)

Lemma redirects_of_peer_ips (eps : list PeerFinder.Endpoint) :
  (∀ e, e ∈ eps →
        parse_endpoint (endpoint_to_string (PeerFinder.ep_address e))
        = Some (PeerFinder.ep_address e)) →
  redirects_of_json (peer_ips eps) = Some (map PeerFinder.ep_address eps).
Proof.
  intros Hparse. unfold redirects_of_json, peer_ips, Json_isMember, Json_get.
  simpl. f_equal.
  assert (∀ (acc : list endpoint_type),
    foldl (fun (acc : list endpoint_type) v =>
             match v with
             | Json.stringValue s =>
                 match parse_endpoint s with
                 | Some ep => acc ++ [ep]
                 | None => acc
                 end
             | _ => acc
             end) acc
      (map (fun e => Json.stringValue (endpoint_to_string (PeerFinder.ep_address e)))
         eps)
    = acc ++ map PeerFinder.ep_address eps) as Hf.
  { induction eps as [|e eps IH]; intros acc; simpl.
    - by rewrite app_nil_r.
    - rewrite Hparse by (by left). rewrite IH.
      + by rewrite <- app_assoc.
      + intros e' He'. apply Hparse. by right. }
  apply (Hf []).
Qed.

(** X21. The redirect written by [makeRedirectResponse] is read back by
    the dialler's [processResponse]: provided the reader parses the body
    to the JSON that was written and [parse_endpoint] reads the listed
    endpoints back, [onRedirects] is handed exactly the endpoints of the
    finder's list, in order.  The response is never taken for a peer
    upgrade, so an open attempt that receives it reports the redirects,
    cancels its timer and closes the socket, and registers no peer. *)
Theorem redirect_round_trip (s : PeerFinder.Slot) (request : http_request_type)
  (remote_address : address_type) o (body : string) :
  let w := (makeRedirectResponse s request remote_address o).1 in
  let eps := (PeerFinder.redirect s (PeerFinder.redirect s (m_peerFinder o)).2).1 in
  Reader_parse body = Some (w_json w) →
  (∀ e, e ∈ eps →
        parse_endpoint (endpoint_to_string (PeerFinder.ep_address e))
        = Some (PeerFinder.ep_address e)) →
  response_redirects (m_status (w_message w)) body
  = Some (map PeerFinder.ep_address eps)
  ∧ isPeerUpgrade_message (w_message w) = false
  ∧ ∀ env a,
      answers_for (w_message w) body env →
      ConnectAttempt.is_open a = true →
      ConnectAttempt.ops (ConnectAttempt.processResponse env a)
      = ConnectAttempt.ops a
        ++ [ConnectAttempt.peerFinder_onRedirects; ConnectAttempt.timer_cancel;
            ConnectAttempt.socket_close]
      ∧ ConnectAttempt.is_open (ConnectAttempt.processResponse env a) = false.
Proof.
  cbv zeta. rewrite makeRedirectResponse_eq. cbn [fst w_json w_message m_status].
  intros Hbody Hparse.
  assert (response_redirects 503 body
          = Some (map PeerFinder.ep_address
                    (PeerFinder.redirect s
                       (PeerFinder.redirect s (m_peerFinder o)).2).1)) as Hred.
  { unfold response_redirects. rewrite bool_decide_eq_true_2 by done.
    rewrite Hbody. by apply redirects_of_peer_ips. }
  assert (∀ m, m_request m = false → m_status m = 503%Z →
               isPeerUpgrade_message m = false) as Hup.
  { intros m Hr Hs. unfold isPeerUpgrade_message.
    destruct (negb (message_upgrade m)); [done|].
    case_bool_decide; [done|]. rewrite Hr, Hs. done. }
  split; [done|]. split; [by apply Hup|].
  intros env a [Ha1 Ha2] Hopen. cbn [m_status] in Ha1.
  rewrite Hred in Ha1. rewrite bool_decide_eq_true_2 in Ha1 by by eexists.
  rewrite Hup in Ha2 by done.
  unfold ConnectAttempt.processResponse, ConnectAttempt.close.
  rewrite Ha1, Ha2. simpl. rewrite Hopen. simpl.
  by rewrite <- !app_assoc.
Qed.

(** ** [setup_Overlay] *)

(** X22. A setup that [setup_Overlay] returns has passed both checks: its
    IP limit is not negative, and its public IP is either the default one
    (when the section names none) or the address parsed from the section,
    which is then a valid IPv4 address that is not private. *)
Theorem setup_Overlay_checked (default : Setup) (section : ConfigSection)
  (setup : Setup) :
  setup_Overlay default section = inr setup →
  (0 ≤ ipLimit setup)%Z
  ∧ ipLimit setup = set_int (ipLimit default) "ip_limit" section
  ∧ expire setup = get_bool section "expire" false
  ∧ ((set_string EmptyString "public_ip" section = EmptyString
      ∧ public_ip setup = public_ip default)
     ∨ (set_string EmptyString "public_ip" section ≠ EmptyString
        ∧ Address_from_string (set_string EmptyString "public_ip" section)
          = (public_ip setup, true)
        ∧ is_v4 (public_ip setup) = true
        ∧ is_private (public_ip setup) = false)).
Proof.
  unfold setup_Overlay.
  destruct (Z.ltb_spec (set_int (ipLimit default) "ip_limit" section) 0)
    as [Hneg|Hpos]; [done|].
  case_bool_decide as Hip.
  - intros [= <-]. simpl. split; [done|]. split; [done|]. split; [done|].
    left. by split.
  - destruct (Address_from_string _) as [a valid] eqn:Ea.
    destruct valid; simpl; [|done].
    destruct (is_v4 a) eqn:Ev; simpl; [|done].
    destruct (is_private a) eqn:Ep; [done|].
    intros [= <-]. simpl. split; [done|]. split; [done|]. split; [done|].
    right. by repeat split.
Qed.

(** ** A response that is no upgrade *)

(** X23. A response whose status is not 101 never makes a peer: whatever
    else the environment answers, neither [onRead] nor [onWrite] (which
    runs [onRead] once the request is written) registers a peer, and
    [processResponse] leaves the attempt closed. *)
Theorem no_peer_without_101 (m : http_message) (body : string)
  (env : ConnectAttempt.Answers) (ec : ConnectAttempt.error_code) (n : N)
  (a : ConnectAttempt.t) :
  answers_for m body env →
  m_request m = false →
  m_status m ≠ 101%Z →
  (ConnectAttempt.overlay_add_active
     ∉ ConnectAttemptRuns.new_ops a (ConnectAttempt.onRead env ec n a))
  ∧ (ConnectAttempt.overlay_add_active
       ∉ ConnectAttemptRuns.new_ops a (ConnectAttempt.onWrite env ec n a))
  ∧ ConnectAttempt.is_open (ConnectAttempt.processResponse env a) = false.
Proof.
  intros [_ Hup] Hreq Hst.
  assert (ConnectAttempt.response_isPeerUpgrade env = false) as Hno.
  { rewrite Hup. unfold isPeerUpgrade_message.
    destruct (negb (message_upgrade m)); [done|].
    case_bool_decide; [done|]. rewrite Hreq. simpl.
    by rewrite bool_decide_eq_true_2. }
  destruct a as [open buf l].
  unfold ConnectAttemptRuns.new_ops, ConnectAttempt.onWrite, ConnectAttempt.onRead,
    ConnectAttempt.processResponse, ConnectAttempt.setTimer,
    ConnectAttempt.cancelTimer, ConnectAttempt.fail, ConnectAttempt.close,
    ConnectAttempt.do, ConnectAttempt.set_write_buf_.
  rewrite Hno. simpl.
  repeat split;
    repeat (first [ case_bool_decide
                  | match goal with
                    | |- context [if ?b then _ else _] => destruct b eqn:?
                    end ]; simpl);
    try done;
    rewrite <- ?app_assoc, ?drop_app_length; simpl;
    rewrite ?elem_of_cons, elem_of_nil; intros Hin;
    repeat (destruct Hin as [Hin|Hin]; [discriminate Hin|]); done.
Qed.

End MoreProperties.

(** ** Runs of the connect attempt *)

Module ConnectAttemptRunFacts.
Import ConnectAttempt ConnectAttemptRuns.

Ltac handler_unfold :=
  unfold new_ops, handle, stop, onTimer, onConnect, onHandshake, onWrite,
    onRead, onShutdown, processResponse, setTimer, cancelTimer, fail, close,
    do, set_write_buf_ in *.

Ltac handler_cases :=
  repeat (first [ case_bool_decide
                | match goal with
                  | |- context [if ?b then _ else _] => destruct b eqn:?
                  end ];
          simpl in *; try congruence).

Ltac log_norm :=
  rewrite <- ?app_assoc, ?drop_app_length, ?drop_all, ?app_nil_r; simpl.

Lemma handle_extends (a : t) (c : Completion) :
  ops (handle a c) = ops a ++ new_ops a (handle a c).
Proof.
  destruct a as [open buf l].
  destruct c; handler_unfold; simpl; handler_cases; log_norm; done.
Qed.

Lemma new_ops_extends (a a' : t) (l : list Op) :
  ops a' = ops a ++ l → new_ops a a' = l.
Proof. intros E. unfold new_ops. by rewrite E, drop_app_length. Qed.

Lemma run_extends (cs : list Completion) (a : t) :
  ops (foldl handle a cs) = ops a ++ new_ops a (foldl handle a cs).
Proof.
  revert a. induction cs as [|c cs IH]; intros a; simpl.
  - unfold new_ops. by rewrite drop_all, app_nil_r.
  - rewrite (new_ops_extends a _ (new_ops a (handle a c)
                                   ++ new_ops (handle a c) (foldl handle (handle a c) cs))).
    + by rewrite app_assoc, <- handle_extends, <- IH.
    + by rewrite app_assoc, <- handle_extends, <- IH.
Qed.

Lemma new_ops_step (cs : list Completion) (c : Completion) (a : t) :
  new_ops a (foldl handle (handle a c) cs)
  = new_ops a (handle a c) ++ new_ops (handle a c) (foldl handle (handle a c) cs).
Proof.
  apply new_ops_extends.
  by rewrite app_assoc, <- handle_extends, <- run_extends.
Qed.

Lemma closed_step (a : t) (c : Completion) :
  is_open a = false →
  is_open (handle a c) = false
  ∧ write_buf_ (handle a c) = write_buf_ a
  ∧ Forall (fun op => op = timer_cancel) (new_ops a (handle a c)).
Proof.
  destruct a as [open buf l]. simpl. intros ->.
  destruct c; handler_unfold; simpl; handler_cases; log_norm;
    repeat split; repeat constructor.
Qed.

Lemma stop_closes (a : t) : is_open (stop a) = false.
Proof. unfold stop, close. destruct (is_open a) eqn:E; [done|exact E]. Qed.

(** X24. [stop] is final: once it has run, whichever handlers complete
    afterwards and whatever the environment answers them, the attempt
    stays closed, its write buffer is not touched, and the only call it
    still makes is cancelling its timer: no network operation is started,
    no redirect is reported and no peer is registered. *)
Theorem stop_is_final (a : t) (cs : list Completion) :
  let a' := foldl handle (stop a) cs in
  is_open a' = false
  ∧ write_buf_ a' = write_buf_ (stop a)
  ∧ Forall (fun op => op = timer_cancel) (new_ops (stop a) a').
Proof.
  cbv zeta. pose proof (stop_closes a) as Hc.
  generalize dependent (stop a). clear a. intros a Hc.
  revert a Hc. induction cs as [|c cs IH]; intros a Hc; simpl.
  - split; [done|]. split; [done|]. unfold new_ops. by rewrite drop_all.
  - destruct (closed_step a c Hc) as (Hc' & Hb & Hl).
    destruct (IH _ Hc') as (Ho & Hw & Hall).
    split; [done|]. split; [by rewrite Hw|].
    rewrite new_ops_step. by apply Forall_app.
Qed.

Lemma count_op_app (op : Op) (l1 l2 : list Op) :
  count_op op (l1 ++ l2) = (count_op op l1 + count_op op l2)%nat.
Proof. unfold count_op. by rewrite List.filter_app, length_app. Qed.

Lemma close_step (a : t) (c : Completion) :
  count_op socket_close (new_ops a (handle a c))
  = (if is_open a && negb (is_open (handle a c)) then 1 else 0)%nat
  ∧ (is_open a = false → is_open (handle a c) = false).
Proof.
  destruct a as [[] buf l];
    destruct c; handler_unfold; simpl; handler_cases; log_norm; done.
Qed.

(** X25. Over any run of completions and [stop] calls, from any state
    of an attempt (the socket open, or closed because the open inside
    [async_connect] failed or a close has already happened), the socket
    is closed exactly when the attempt goes from open to closed: at most
    once, and not at all for an attempt whose socket is not open.  No
    handler reopens a closed attempt. *)
Theorem socket_closed_once (a : t) (cs : list Completion) :
  let a' := foldl handle a cs in
  count_op socket_close (new_ops a a')
  = (if is_open a && negb (is_open a') then 1 else 0)%nat
  ∧ (count_op socket_close (new_ops a a') ≤ 1)%nat
  ∧ (is_open a = false → is_open a' = false).
Proof.
  cbv zeta.
  assert (count_op socket_close (new_ops a (foldl handle a cs))
          = (if is_open a && negb (is_open (foldl handle a cs)) then 1 else 0)%nat
          ∧ (is_open a = false → is_open (foldl handle a cs) = false)) as [Hc Hs].
  { revert a. induction cs as [|c cs IH]; intros a; simpl.
    - unfold new_ops, count_op. rewrite drop_all. simpl.
      by destruct (is_open a).
    - destruct (close_step a c) as [Hc1 Hs1].
      destruct (IH (handle a c)) as [Hc2 Hs2].
      rewrite new_ops_step, count_op_app, Hc1, Hc2.
      destruct (is_open a) eqn:Ea; simpl.
      + destruct (is_open (handle a c)) eqn:E1; simpl.
        * split; [done|]. done.
        * rewrite (Hs2 eq_refl). simpl. split; [done|]. done.
      + rewrite (Hs1 eq_refl). simpl. split; [done|]. intros _. by apply Hs2, Hs1. }
  split; [exact Hc|]. split; [|exact Hs].
  rewrite Hc. destruct (_ && _); lia.
Qed.

Lemma guarded_step (a : t) (c : Completion) (st : timer_state) :
  timer_can_be_set c = true →
  guarded_from st (new_ops a (handle a c)) = true.
Proof.
  destruct a as [open buf l].
  destruct c; simpl; intros Hok; handler_unfold; rewrite ?Hok; simpl;
    handler_cases; log_norm; done.
Qed.

(** X26. Apart from the connect that [run] starts, every network
    operation of an attempt is started with the 15 second timer armed
    and waiting, over any run in which the timer can be set: the handlers
    cancel the timer on entry and arm it again before the operation they
    start. *)
Theorem run_guarded_after_connect (cs : list Completion) (st : timer_state) :
  Forall (fun c => timer_can_be_set c = true) cs →
  guarded_from st (new_ops (run create) (foldl handle (run create) cs)) = true.
Proof.
  generalize (run create). intros a Hall. revert a st.
  induction Hall as [|c cs Hc Hall IH]; intros a st; simpl.
  - unfold new_ops. by rewrite drop_all.
  - rewrite new_ops_step, ConnectAttemptFacts.guarded_from_app.
    by rewrite guarded_step, IH.
Qed.

(** X27. When the timer cannot be set the handler goes on all the same:
    the failure of [expires_from_now] is not acted upon, and a network
    operation the handler starts is started without a watchdog. *)
Theorem unset_timer_unguarded (a : t) (c : Completion) (st : timer_state) :
  timer_can_be_set c = false →
  guarded_from st (new_ops a (handle a c))
  = negb (existsb is_network_op (new_ops a (handle a c))).
Proof.
  destruct a as [open buf l].
  destruct c; simpl; intros Hok; try discriminate Hok;
    handler_unfold; rewrite ?Hok; simpl; handler_cases; log_norm; done.
Qed.

(** X28. A handler completed with [operation_aborted] does nothing but
    cancel the timer, and the timer's own handler does not even do that:
    the attempt stays open or closed as it was and no operation is
    started, so an aborted operation never closes the socket by itself. *)
Theorem aborted_only_cancels (a : t) (c : Completion) :
  aborted c = true →
  handle a c = match c with
               | timer_fired _ => a
               | _ => cancelTimer a
               end.
Proof.
  destruct a as [open buf l].
  destruct c; simpl; intros Hab; try discriminate Hab;
    apply bool_decide_eq_true_1 in Hab; subst;
    handler_unfold; simpl; handler_cases; done.
Qed.

End ConnectAttemptRunFacts.

(** * The statements on the concrete environment *)

Import Scenario.

Lemma with_peers_wf (exp : bool) : ids_wf (with_peers exp).
Proof. apply ids_wfb_sound. by destruct exp. Qed.

(** Scenario "relay deduplication": peers A, B and C are active.  Peer A
    sends a proposal under [uid_H] at [hops = 1] and it is relayed; peer B
    sends the same proposal at [hops = 2] and it is handed to [relay]
    again.  Only the first call sends: B gets one copy, and C, which is
    not hop-aware, gets none. *)
Lemma relay_at_most_once_witness :
  ids_wf (with_peers false)
  ∧ new_effects (with_peers false)
      (foldl (step uid_H) (with_peers false)
         [Suppress 1; Relay (proposal (Some 1));
          Suppress 2; Relay (proposal (Some 2))])
    = [Sent 2 (encode (proposal (Some 1)))]
  ∧ ∀ (ss : list (Step TMProposeSet)) (i : Peer_id),
      (sent_count i
         (new_effects (with_peers false) (foldl (step uid_H) (with_peers false) ss))
       ≤ 1)%nat.
Proof.
  split; [apply with_peers_wf|]. split; [reflexivity|].
  apply (relay_at_most_once uid_H (with_peers false) (with_peers_wf false)).
Defined.

(** Scenario "TTL drop": with [maxTTL = 3] a proposal at [hops = 3] is
    not relayed. *)
Lemma relay_ttl_drop_witness :
  has_hops (proposal (Some 3)) = true
  ∧ maxTTL ≤ hops (proposal (Some 3))
  ∧ relay (proposal (Some 3)) uid_H (with_peers false) = with_peers false.
Proof.
  assert (has_hops (proposal (Some 3)) = true) as H1 by reflexivity.
  assert (maxTTL ≤ hops (proposal (Some 3))) as H2 by (vm_compute; discriminate).
  split; [exact H1|]. split; [exact H2|].
  exact (proj1 (relay_ttl_drop (proposal (Some 3)) uid_H (with_peers false) H1 H2)).
Defined.

(** With [expire] set, a proposal relayed at [hops = 1] leaves the node
    with [hops = 1], not zero. *)
Lemma relay_keeps_hops_counterexample :
  expire (setup_ (with_peers true)) = true
  ∧ ¬ hops_zeroed
        (new_effects (with_peers true)
           (relay (proposal (Some 1)) uid_H (with_peers true))).
Proof.
  split; [reflexivity|]. intros Hz.
  specialize (Hz (encode (proposal (Some 1)))).
  assert (encode (proposal (Some 1))
          ∈ sent_messages
              (new_effects (with_peers true)
                 (relay (proposal (Some 1)) uid_H (with_peers true)))) as Hin.
  { vm_compute. left. }
  specialize (Hz Hin). vm_compute in Hz. discriminate.
Qed.

Lemma expire_zeroes_hops_on_send_witness :
  expire (setup_ (with_peers true)) = true
  ∧ hops_zeroed
      (new_effects (with_peers true) (send (proposal (Some 1)) (with_peers true)).2).
Proof.
  assert (expire (setup_ (with_peers true)) = true) as H1 by reflexivity.
  split; [exact H1|].
  exact (proj1 (proj2
    (expire_zeroes_hops_on_send (proposal (Some 1)) uid_H (with_peers true) H1))).
Defined.

(** Scenario "inbound admission, full slots, redirect": the one slot is
    taken by peer A; a second client asking to connect as a peer is
    answered 503 with peer A's endpoint and its own address. *)
Lemma onHandoff_redirect_witness :
  let known := [{| PeerFinder.ep_hops := 1;
                   PeerFinder.ep_address := getRemoteAddress peerA |}] in
  let h := (onHandoff bundle upgrade_request client full).1 in
  let o' := (onHandoff bundle upgrade_request client full).2 in
  peer_ips known
  = Json.objectValue
      [("peer-ips", Json.arrayValue [Json.stringValue "10.0.0.1:51235"])]
  ∧ moved h = false
  ∧ m_peerFinder o'
    = {| f_maxPeers := 1; f_next := 11; f_open := [slot peerA];
         f_active := [(slot peerA, getNodePublic peerA)];
         f_known := known |}
  ∧ ∃ w, response h = Some w
         ∧ m_status (w_message w) = 503%Z
         ∧ w_json w = peer_ips known
         ∧ m_headers (w_message w) = [("Remote-Address", "192.0.2.7")].
Proof.
  intros known h o'. split; [reflexivity|].
  eapply (onHandoff_redirect bundle upgrade_request client listening full
            "192.0.2.7" _ _
            {| PeerFinder.key := 10; PeerFinder.inbound := true;
               PeerFinder.listening_port := None |}
            _ "Peer" "n9New" 7 "n9New" PeerFinder.full _ known _ known).
  - discriminate.
  - reflexivity.
  - reflexivity.
  - reflexivity.
  - reflexivity.
  - reflexivity.
  - reflexivity.
  - reflexivity.
  - reflexivity.
  - reflexivity.
  - reflexivity.
  - discriminate.
  - reflexivity.
  - reflexivity.
Defined.

(** Scenario "self-connect rejection": the remote endpoint is our own
    listening endpoint; the finder refuses the slot and the connection is
    dropped without a response. *)
Lemma onHandoff_self_connect_witness :
  PeerFinder.new_inbound_slot listening listening (m_peerFinder full)
  = (None, m_peerFinder full)
  ∧ moved (onHandoff bundle upgrade_request listening full).1 = false
  ∧ response (onHandoff bundle upgrade_request listening full).1 = None
  ∧ m_peers (onHandoff bundle upgrade_request listening full).2 = m_peers full
  ∧ list_ (onHandoff bundle upgrade_request listening full).2 = list_ full.
Proof.
  assert (PeerFinder.new_inbound_slot listening listening (m_peerFinder full)
          = (None, m_peerFinder full)) as Hslot by reflexivity.
  split; [exact Hslot|].
  destruct (onHandoff_self_connect bundle upgrade_request listening listening full
              "10.0.0.9" {[ "10.0.0.9" := 1 ]} {[ "10.0.0.9" := 1 ]}
              (m_peerFinder full))
    as (Hm & Hr & Hp & _ & Hl & _); [discriminate|reflexivity..|exact Hslot|].
  repeat split; assumption.
Defined.

(** A plain request for [/], with no upgrade: passed through. *)
Lemma onHandoff_not_ours_witness :
  req_url plain_request ≠ "/crawl"
  ∧ is_upgrade plain_request = false
  ∧ moved (onHandoff bundle plain_request client full).1 = false
  ∧ response (onHandoff bundle plain_request client full).1 = None
  ∧ (onHandoff bundle plain_request client full).2 = set_next_id_ 2 full.
Proof.
  assert (req_url plain_request ≠ "/crawl") as H1 by discriminate.
  assert (is_upgrade plain_request = false) as H2 by reflexivity.
  split; [exact H1|]. split; [exact H2|].
  destruct (onHandoff_not_ours bundle plain_request client full H1 (or_introl H2))
    as (Hm & Hr & Ho & _).
  split; [exact Hm|]. split; [exact Hr|]. exact Ho.
Defined.

(** Scenario "manifest rotation": the cache holds sequence 3 for master
    [M]; a manifest with sequence 4 from peer A is accepted, published,
    stored and announced to B and C (the skip set holds A). *)
Lemma onManifests_disposition_witness :
  let m := {| mf_list := ["Mabcd"]; mf_history := false |} in
  new_effects (with_peers false) (onManifests m peerA (with_peers false))
  = [PubManifest (make_Manifest "Mabcd");
     InsertValidatorManifest "Mabcd";
     Sent 2 (make_Message (PB_Manifests m) mtMANIFESTS);
     Sent 3 (make_Message (PB_Manifests m) mtMANIFESTS)].
Proof.
  intros m.
  pose proof (onManifests_disposition m peerA (with_peers false) [] [] "Mabcd"
                {| serialized := "Mabcd"; masterKey := "M"; signingKey := "abcd";
                   sequence := 4; mhash := 77004 |}
                {[ 77004 := {| HashRouter.peers := {[1]}; HashRouter.flags := 0 |} ]}
                accepted {[ "M" := 4 ]}
                eq_refl eq_refl eq_refl eq_refl) as W.
  simpl in W. destruct W as (E & _ & W). rewrite E. simpl. exact W.
Defined.

(** Scenario "shutdown": peers A, B and C are children of the overlay and
    the work guard is engaged.  The first [stop] calls [stop()] on the
    three of them, in the order of [list_]; a second [stop] calls
    nothing. *)
Lemma stop_idempotent_witness :
  work_ (with_peers false) = true
  ∧ new_effects (with_peers false) (stop (with_peers false))
    = map Stopped (reachable_children (with_peers false))
  ∧ map Stopped (reachable_children (with_peers false))
    = [Stopped (PeerImpPtr 1); Stopped (PeerImpPtr 2); Stopped (PeerImpPtr 3)]
  ∧ work_ (stop (with_peers false)) = false
  ∧ new_effects (stop (with_peers false)) (stop (stop (with_peers false))) = [].
Proof.
  assert (work_ (with_peers false) = true) as Hon by reflexivity.
  destruct (stop_idempotent (with_peers false))
    as (_ & Hfirst & _ & Hw & _ & _ & Hsecond).
  split; [exact Hon|]. split; [exact (proj1 (proj2 (Hfirst Hon)))|].
  split; [reflexivity|]. split; [exact Hw|exact Hsecond].
Defined.

(** The contract of [std::sort] alone does not settle how ties are
    broken.  Peers B and A score alike and B is put into the vector
    first; of two procedures that both meet the contract, one considers
    A before B (with a limit of two, A is selected next to C and B is
    left out), the other considers B before A.  Which of the two the
    program shows is decided by the [std::sort] of the C++ library it is
    built with, and that is not part of these sources. *)
Lemma std_sort_contract_leaves_ties_open :
  let v := scored prefers_C (with_peers false) in
  std_sort_contract sort_forward
  ∧ std_sort_contract sort_backward
  ∧ map (fun e => (e.1, id e.2)) v = [(0%Z, 2); (10000%Z, 3); (0%Z, 1)]
  ∧ map (fun e => (e.1, id e.2)) (sort_forward v)
    = [(10000%Z, 3); (0%Z, 1); (0%Z, 2)]
  ∧ ¬ ties_by_insertion_order v (sort_forward v)
  ∧ selectPeers sort_forward ∅ 2 prefers_C (with_peers false) = (2, {[3; 1]})
  ∧ selectPeers sort_backward ∅ 2 prefers_C (with_peers false) = (2, {[3; 2]}).
Proof.
  intros v.
  split; [apply sort_forward_contract|]. split; [apply sort_backward_contract|].
  split; [reflexivity|]. split; [reflexivity|].
  split; [|split; vm_compute; reflexivity].
  intros Hties.
  destruct (Hties 0%nat 2%nat (0%Z, peerB) (0%Z, peerA))
    as (i' & j' & Hlt & Hi & Hj); [lia|reflexivity|reflexivity|reflexivity|].
  assert (sort_forward v = [(10000%Z, peerC); (0%Z, peerA); (0%Z, peerB)]) as E
    by reflexivity.
  rewrite E in Hi, Hj.
  destruct i' as [|[|[|i']]]; simpl in Hi; try discriminate.
  destruct j' as [|[|[|j']]]; simpl in Hj; try discriminate; lia.
Qed.

Lemma selectPeers_spec_witness :
  std_sort_contract sort_backward
  ∧ 0 < 2 ∧ 2 < 2 ^ 64
  ∧ (selectPeers sort_backward ∅ 2 prefers_C (with_peers false)).1
    = N.of_nat (size ((selectPeers sort_backward ∅ 2 prefers_C (with_peers false)).2 ∖ ∅))
  ∧ (selectPeers sort_backward ∅ 2 prefers_C (with_peers false)).1 ≤ 2.
Proof.
  assert (0 < 2) as H1 by reflexivity.
  assert (2 < 2 ^ 64) as H2 by reflexivity.
  split; [apply sort_backward_contract|]. split; [exact H1|]. split; [exact H2|].
  exact (proj2 (proj2 (proj2 (proj2
    (selectPeers_spec sort_backward ∅ 2 prefers_C (with_peers false)
       sort_backward_contract H1 H2))))).
Defined.


(** * Further statements on the concrete environment *)

Import ScenarioMore.

Lemma with_peers_tables_wf (exp : bool) : tables_wf (with_peers exp).
Proof.
  split; [apply with_peers_wf|].
  split; apply (bool_decide_unpack _); destruct exp; vm_compute; exact I.
Qed.

Lemma with_peers_active (exp : bool) :
  getActivePeers (with_peers exp) = [peerB; peerC; peerA].
Proof. destruct exp; reflexivity. Qed.

(** Scenario "inbound admission": a client asking to connect as a peer
    is admitted by a node that has room; the session gets id 1 and the
    slot the finder hands out, and is found under its id once it has
    activated. *)
Lemma onHandoff_accepts_witness :
  let s := {| PeerFinder.key := 10; PeerFinder.inbound := true;
              PeerFinder.listening_port := None |} in
  let peer := {| id := 1; getRemoteAddress := client; slot := s;
                 hello := "n9New"; getNodePublic := "n9New";
                 usage := "192.0.2.7" |} in
  let h := (onHandoff bundle upgrade_request client (started false)).1 in
  let o' := (onHandoff bundle upgrade_request client (started false)).2 in
  moved h = true ∧ response h = None
  ∧ m_peers o' = [(s, Some peer)]
  ∧ list_ o' = [(PeerImpPtr 1, Some (PeerImpPtr 1))]
  ∧ new_effects (started false) o' = [Run (PeerImpPtr 1)]
  ∧ getActivePeers o' = []
  ∧ findPeerByShortID 1 (activate peer o') = Some peer.
Proof.
  intros s peer h o'.
  destruct (onHandoff_accepts bundle upgrade_request client listening
              (started false) "192.0.2.7" _ _ s _ "Peer" "n9New" 7 "n9New" _
              ltac:(discriminate) eq_refl eq_refl eq_refl eq_refl eq_refl
              eq_refl eq_refl eq_refl eq_refl eq_refl)
    as (H1 & H2 & H3 & H4 & _ & H6 & H7 & H8).
  split; [exact H1|]. split; [exact H2|]. split; [exact H3|].
  split; [exact H4|]. split; [exact H6|]. split; [exact H7|].
  exact (H8 eq_refl).
Defined.

(** Scenario "not a peer": an upgrade request that asks to connect as a
    leaf is answered with the redirect, and the slot it was given stays
    open in the finder. *)
Lemma onHandoff_connect_as_witness :
  let h := (onHandoff bundle leaf_request client (started false)).1 in
  let o' := (onHandoff bundle leaf_request client (started false)).2 in
  moved h = false
  ∧ (∃ w, response h = Some w ∧ m_status (w_message w) = 503%Z)
  ∧ f_open (m_peerFinder o')
    = [{| PeerFinder.key := 10; PeerFinder.inbound := true;
          PeerFinder.listening_port := None |}]
  ∧ new_effects (started false) o' = [].
Proof.
  cbv zeta.
  destruct (onHandoff_connect_as bundle leaf_request client listening
              (started false) "192.0.2.7" _ _
              {| PeerFinder.key := 10; PeerFinder.inbound := true;
                 PeerFinder.listening_port := None |} _ [] _ [] _
              ltac:(discriminate) eq_refl eq_refl eq_refl eq_refl eq_refl
              eq_refl eq_refl eq_refl)
    as (H1 & H2 & _ & H4).
  split; [by rewrite H1|]. split; [rewrite H1; by eexists|].
  split; [by rewrite H2|exact H4].
Defined.

(** Scenario "crawl": a request for [/crawl] is answered with the report
    on peers A, B and C even though it carries upgrade headers. *)
Lemma onHandoff_crawl_witness :
  req_url crawl_request = "/crawl"
  ∧ isPeerUpgrade crawl_request = true
  ∧ moved (onHandoff bundle crawl_request client (with_peers false)).1 = false
  ∧ ∃ w, response (onHandoff bundle crawl_request client (with_peers false)).1
         = Some w
         ∧ m_status (w_message w) = 200%Z
         ∧ w_json w
           = Json.objectValue
               [("overlay",
                 Json.objectValue
                   [("active",
                     Json.arrayValue (map crawl_entry [peerB; peerC; peerA]))])].
Proof.
  split; [reflexivity|]. split; [reflexivity|].
  rewrite (onHandoff_crawl bundle crawl_request client (with_peers false) eq_refl).
  split; [reflexivity|]. eexists. split; [reflexivity|]. split; reflexivity.
Defined.

(** Scenario "over budget": a client charged past its budget, and a
    socket without a local endpoint, are both closed without an answer. *)
Lemma onHandoff_refused_early_witness :
  (moved (onHandoff bundle upgrade_request client charged).1 = true
   ∧ response (onHandoff bundle upgrade_request client charged).1 = None
   ∧ m_peerFinder (onHandoff bundle upgrade_request client charged).2
     = m_peerFinder charged)
  ∧ (moved (onHandoff broken_bundle upgrade_request client (started false)).1 = true
     ∧ m_resourceManager
         (onHandoff broken_bundle upgrade_request client (started false)).2
       = ∅).
Proof.
  split.
  - destruct (onHandoff_refused_early bundle upgrade_request client charged
                ltac:(discriminate) eq_refl (or_intror eq_refl))
      as (H1 & H2 & H3 & _).
    split; [exact H1|]. split; [exact H2|exact H3].
  - destruct (onHandoff_refused_early broken_bundle upgrade_request client
                (started false) ltac:(discriminate) eq_refl (or_introl eq_refl))
      as (H1 & _ & _ & _ & _ & H6).
    split; [exact H1|exact (H6 eq_refl)].
Defined.

(** Scenario "tables": the tables of the overlay with peers A, B and C
    stay well formed over a run that dials, admits, registers a peer
    twice, removes peer A's slot, deactivates, sends, relays and stops;
    removing the slot a second time has no result. *)
Lemma tables_wf_kept_witness :
  let cs := [call_connect client; call_onHandoff bundle upgrade_request client;
             call_add_active peerD; call_add_active peerD;
             call_remove_slot (slot peerA);
             call_onPeerDeactivate 2; call_send_propose (proposal None);
             call_relay_propose (proposal (Some 1)) uid_H;
             call_remove_child true true (PeerImpPtr 1); call_stop] in
  tables_wf (with_peers false)
  ∧ is_Some (perform_all cs (with_peers false))
  ∧ (∀ o', perform_all cs (with_peers false) = Some o' → tables_wf o')
  ∧ perform_all (cs ++ [call_remove_slot (slot peerA)]) (with_peers false) = None.
Proof.
  intros cs. split; [apply with_peers_tables_wf|].
  split; [apply (bool_decide_unpack _); vm_compute; exact I|].
  split; [|vm_compute; reflexivity].
  exact (proj1 (tables_wf_kept cs (with_peers false) (with_peers_tables_wf false))).
Defined.

(** Scenario "register": peer D's id 4 is free among A, B and C. *)
Lemma add_active_find_witness :
  ids_ (with_peers false) !! id peerD = None
  ∧ findPeerByShortID 4 (add_active peerD (with_peers false)) = Some peerD
  ∧ OverlayImpl_size (add_active peerD (with_peers false)) = 4%nat.
Proof.
  split; [reflexivity|].
  destruct (add_active_find peerD (with_peers false) eq_refl) as (H1 & _ & H3 & _).
  split; [exact H1|exact H3].
Defined.

(** Scenario "register twice": peer A's id is taken by peer A. *)
Lemma add_active_taken_witness :
  ids_ (with_peers false) !! id peerA = Some (Some peerA)
  ∧ ids_ (add_active peerA (with_peers false)) = ids_ (with_peers false)
  ∧ new_effects (with_peers false) (add_active peerA (with_peers false))
    = [Run (PeerImpPtr 1)].
Proof.
  split; [reflexivity|].
  destruct (add_active_taken peerA (Some peerA) (with_peers false) eq_refl)
    as (H1 & _ & _ & H4).
  split; [exact H1|exact H4].
Defined.

(** Scenario "stop after register": peer D registered on the started
    overlay is stopped by [stop]. *)
Lemma stop_reaches_added_witness :
  work_ (started false) = true
  ∧ Stopped (PeerImpPtr 4)
      ∈ new_effects (add_active peerD (started false))
          (stop (add_active peerD (started false)))
  ∧ work_ (stop (add_active peerD (started false))) = false.
Proof.
  split; [reflexivity|].
  apply (stop_reaches_added peerD (started false) eq_refl).
  apply not_elem_of_nil.
Defined.

(** Scenario "last child": the children of peers A, B and C destroyed in
    the order B, C, A; the third [remove] calls [stopped()]. *)
Lemma drain_signals_last_witness :
  (drain [PeerImpPtr 2; PeerImpPtr 3; PeerImpPtr 1] (with_peers false)).1
  = [false; false; true]
  ∧ list_ (drain [PeerImpPtr 2; PeerImpPtr 3; PeerImpPtr 1] (with_peers false)).2
    = [].
Proof.
  apply (drain_signals_last [PeerImpPtr 2; PeerImpPtr 3; PeerImpPtr 1]
           (with_peers false)).
  - apply (bool_decide_unpack _). vm_compute. exact I.
  - apply (bool_decide_unpack _). vm_compute. exact I.
  - discriminate.
Defined.

(** Scenario "dial": the finder proposes the endpoints of peers A and B;
    both attempts are started, with ids 1 and 2. *)
Lemma autoConnect_fresh_ids_witness :
  next_id_ dialling < 2 ^ 32
  ∧ new_effects dialling (autoConnect dialling)
    = [Run (ConnectAttemptPtr 1); Run (ConnectAttemptPtr 2)]
  ∧ ∃ k : nat,
      (k ≤ length (Outbound.autoconnect (m_peerFinder dialling)).1)%nat
      ∧ new_effects dialling (autoConnect dialling)
        = map (fun j => Run (ConnectAttemptPtr ((next_id_ dialling + N.of_nat j) mod 2 ^ 32)))
            (seq 0 k)
      ∧ next_id_ (autoConnect dialling) = (next_id_ dialling + N.of_nat k) mod 2 ^ 32
      ∧ ids_ (autoConnect dialling) = ids_ dialling
      ∧ m_peers (autoConnect dialling) = m_peers dialling.
Proof.
  assert (next_id_ dialling < 2 ^ 32) as H1 by reflexivity.
  split; [exact H1|]. split; [reflexivity|].
  exact (autoConnect_fresh_ids dialling H1).
Defined.

(** Scenario "limit zero": with an empty set and a limit of zero, the
    peer preferred by the score is inserted and 1 is returned. *)
Lemma selectPeers_limit_zero_witness :
  std_sort_contract sort_forward
  ∧ selectPeers sort_forward ∅ 0 prefers_C (with_peers false) = (1, {[3]})
  ∧ ((∀ p, p ∈ getActivePeers (with_peers false) → id p ∈ (∅ : PeerSet))
     ∧ (selectPeers sort_forward ∅ 0 prefers_C (with_peers false)).1 = 0
     ∧ (selectPeers sort_forward ∅ 0 prefers_C (with_peers false)).2 = ∅
     ∨ ∃ p, p ∈ getActivePeers (with_peers false) ∧ (id p ∉ (∅ : PeerSet))
            ∧ (selectPeers sort_forward ∅ 0 prefers_C (with_peers false)).1 = 1
            ∧ (selectPeers sort_forward ∅ 0 prefers_C (with_peers false)).2
              = {[id p]} ∪ ∅
            ∧ ∀ q, q ∈ getActivePeers (with_peers false) → id q ∉ (∅ : PeerSet) →
                   (getScore q (prefers_C q) ≤ getScore p (prefers_C p))%Z).
Proof.
  split; [apply sort_forward_contract|]. split; [reflexivity|].
  exact (selectPeers_limit_zero sort_forward ∅ prefers_C (with_peers false)
           sort_forward_contract).
Defined.

(** Scenario "best peer": with a limit of one, peer C is selected and
    peer A is not; C scores at least as high as A. *)
Lemma selectPeers_takes_best_witness :
  id peerC ∈ (selectPeers sort_forward ∅ 1 prefers_C (with_peers false)).2
  ∧ (id peerA ∉ (selectPeers sort_forward ∅ 1 prefers_C (with_peers false)).2)
  ∧ (getScore peerA (prefers_C peerA) ≤ getScore peerC (prefers_C peerC))%Z.
Proof.
  assert (id peerC ∈ (selectPeers sort_forward ∅ 1 prefers_C (with_peers false)).2)
    as H1 by (apply (bool_decide_unpack _); vm_compute; exact I).
  assert (id peerA ∉ (selectPeers sort_forward ∅ 1 prefers_C (with_peers false)).2)
    as H2 by (apply (bool_decide_unpack _); vm_compute; exact I).
  split; [exact H1|]. split; [exact H2|].
  apply (selectPeers_takes_best sort_forward ∅ 1 prefers_C (with_peers false)
           peerC peerA sort_forward_contract (with_peers_wf false)).
  - rewrite with_peers_active. set_solver.
  - rewrite with_peers_active. set_solver.
  - apply not_elem_of_empty.
  - exact H1.
  - exact H2.
Defined.

(** Scenario "send": a proposal with a hop count goes once to the
    hop-aware peers A and B and not to peer C. *)
Lemma send_reaches_eligible_witness :
  ids_wf (with_peers false)
  ∧ sent_count (id peerA)
      (new_effects (with_peers false)
         (send (proposal (Some 1)) (with_peers false)).2) = 1%nat
  ∧ sent_count (id peerC)
      (new_effects (with_peers false)
         (send (proposal (Some 1)) (with_peers false)).2) = 0%nat.
Proof.
  split; [apply with_peers_wf|].
  assert (peerA ∈ getActivePeers (with_peers false)) as HA
    by (rewrite with_peers_active; set_solver).
  assert (peerC ∈ getActivePeers (with_peers false)) as HC
    by (rewrite with_peers_active; set_solver).
  split.
  - etrans.
    + exact (proj1 (send_reaches_eligible (proposal (Some 1)) (with_peers false)
                      (with_peers_wf false)) peerA HA).
    + vm_compute. reflexivity.
  - etrans.
    + exact (proj1 (send_reaches_eligible (proposal (Some 1)) (with_peers false)
                      (with_peers_wf false)) peerC HC).
    + vm_compute. reflexivity.
Defined.

(** Scenario "redirect read back": the redirect of the full node names
    peer A's endpoint, and the dialler hands that endpoint to the
    finder and closes. *)
Lemma redirect_round_trip_witness :
  let w := (makeRedirectResponse (slot peerA) upgrade_request "192.0.2.7" full).1 in
  Reader_parse redirect_body = Some (w_json w)
  ∧ response_redirects (m_status (w_message w)) redirect_body
    = Some [getRemoteAddress peerA]
  ∧ isPeerUpgrade_message (w_message w) = false
  ∧ ConnectAttempt.ops
      (ConnectAttempt.processResponse redirected
         (ConnectAttempt.run ConnectAttempt.create))
    = [ConnectAttempt.async_connect; ConnectAttempt.peerFinder_onRedirects;
       ConnectAttempt.timer_cancel; ConnectAttempt.socket_close].
Proof.
  intros w.
  assert (Reader_parse redirect_body = Some (w_json w)) as Hbody by reflexivity.
  split; [exact Hbody|].
  assert (∀ e, e ∈ (PeerFinder.redirect (slot peerA)
                      (PeerFinder.redirect (slot peerA) (m_peerFinder full)).2).1 →
               parse_endpoint (endpoint_to_string (PeerFinder.ep_address e))
               = Some (PeerFinder.ep_address e)) as Hparse.
  { intros e He. simpl in He. apply elem_of_cons in He as [->|He]; [reflexivity|].
    by apply elem_of_nil in He. }
  destruct (redirect_round_trip (slot peerA) upgrade_request "192.0.2.7" full
              redirect_body Hbody Hparse) as (H1 & H2 & H3).
  split; [exact H1|]. split; [exact H2|].
  exact (proj1 (H3 redirected (ConnectAttempt.run ConnectAttempt.create)
                  (conj eq_refl eq_refl) eq_refl)).
Defined.

(** Scenario "configuration": a section with a public IPv4 address and a
    limit of 2. *)
Lemma setup_Overlay_checked_witness :
  setup_Overlay default_setup overlay_section
  = inr {| expire := true; public_ip := "203.0.113.5"; ipLimit := 2 |}
  ∧ is_v4 "203.0.113.5" = true ∧ is_private "203.0.113.5" = false.
Proof.
  assert (setup_Overlay default_setup overlay_section
          = inr {| expire := true; public_ip := "203.0.113.5"; ipLimit := 2 |})
    as H1 by reflexivity.
  split; [exact H1|].
  destruct (setup_Overlay_checked _ _ _ H1)
    as (_ & _ & _ & [[H4 _]|(_ & _ & H5 & H6)]).
  - discriminate H4.
  - split; [exact H5|exact H6].
Defined.

(** Scenario "answered 200": a response that upgrades in its headers but
    answers 200 makes no peer. *)
Lemma no_peer_without_101_witness :
  answers_for ok_response EmptyString refused
  ∧ ConnectAttempt.is_open
      (ConnectAttempt.processResponse refused
         (ConnectAttempt.run ConnectAttempt.create)) = false.
Proof.
  assert (answers_for ok_response EmptyString refused) as H1
    by (split; reflexivity).
  split; [exact H1|].
  exact (proj2 (proj2
    (no_peer_without_101 ok_response EmptyString refused ConnectAttempt.no_error 0
       (ConnectAttempt.run ConnectAttempt.create) H1 eq_refl ltac:(discriminate)))).
Defined.

(** Scenario "outbound handshake": connect, TLS handshake, the request
    written in one piece and a first read of the response, with the
    timer armed at each step. *)
Lemma run_guarded_after_connect_witness :
  ConnectAttemptRuns.new_ops (ConnectAttempt.run ConnectAttempt.create)
    (foldl ConnectAttemptRuns.handle (ConnectAttempt.run ConnectAttempt.create)
       [ConnectAttemptRuns.connect_done all_ok ConnectAttempt.no_error;
        ConnectAttemptRuns.handshake_done all_ok ConnectAttempt.no_error;
        ConnectAttemptRuns.write_done all_ok ConnectAttempt.no_error 300])
  = [ConnectAttempt.timer_cancel;
     ConnectAttempt.timer_expires_from_now 15 true;
     ConnectAttempt.timer_async_wait; ConnectAttempt.async_handshake;
     ConnectAttempt.timer_cancel;
     ConnectAttempt.timer_expires_from_now 15 true;
     ConnectAttempt.timer_async_wait; ConnectAttempt.async_write_some;
     ConnectAttempt.timer_cancel; ConnectAttempt.timer_cancel;
     ConnectAttempt.timer_expires_from_now 15 true;
     ConnectAttempt.timer_async_wait; ConnectAttempt.async_read_some]
  ∧ ConnectAttempt.guarded_from ConnectAttempt.idle
      (ConnectAttemptRuns.new_ops (ConnectAttempt.run ConnectAttempt.create)
         (foldl ConnectAttemptRuns.handle (ConnectAttempt.run ConnectAttempt.create)
            [ConnectAttemptRuns.connect_done all_ok ConnectAttempt.no_error;
             ConnectAttemptRuns.handshake_done all_ok ConnectAttempt.no_error;
             ConnectAttemptRuns.write_done all_ok ConnectAttempt.no_error 300]))
    = true.
Proof.
  split; [reflexivity|].
  apply ConnectAttemptRunFacts.run_guarded_after_connect.
  repeat constructor.
Defined.

(** Scenario "timer failure": the connect completes while the timer
    cannot be set; the handshake is started unguarded. *)
Lemma unset_timer_unguarded_witness :
  ConnectAttemptRuns.new_ops (ConnectAttempt.run ConnectAttempt.create)
    (ConnectAttempt.onConnect no_timer ConnectAttempt.no_error
       (ConnectAttempt.run ConnectAttempt.create))
  = [ConnectAttempt.timer_cancel;
     ConnectAttempt.timer_expires_from_now 15 false;
     ConnectAttempt.async_handshake]
  ∧ ConnectAttempt.guarded_from ConnectAttempt.idle
      (ConnectAttemptRuns.new_ops (ConnectAttempt.run ConnectAttempt.create)
         (ConnectAttemptRuns.handle (ConnectAttempt.run ConnectAttempt.create)
            (ConnectAttemptRuns.connect_done no_timer ConnectAttempt.no_error)))
    = false.
Proof.
  split; [reflexivity|].
  exact (ConnectAttemptRunFacts.unset_timer_unguarded
           (ConnectAttempt.run ConnectAttempt.create)
           (ConnectAttemptRuns.connect_done no_timer ConnectAttempt.no_error)
           ConnectAttempt.idle eq_refl).
Defined.

(** Scenario "aborted read": a read that completes with
    [operation_aborted] only cancels the timer. *)
Lemma aborted_only_cancels_witness :
  ConnectAttemptRuns.handle (ConnectAttempt.run ConnectAttempt.create)
    (ConnectAttemptRuns.read_done all_ok ConnectAttempt.operation_aborted 0)
  = ConnectAttempt.cancelTimer (ConnectAttempt.run ConnectAttempt.create).
Proof.
  exact (ConnectAttemptRunFacts.aborted_only_cancels
           (ConnectAttempt.run ConnectAttempt.create)
           (ConnectAttemptRuns.read_done all_ok ConnectAttempt.operation_aborted 0)
           eq_refl).
Defined.
